(** * skynet-kernel: seed, registry, skyfile-path and progressive-fetch core

    A shallow embedding of the TypeScript sources
    - [libs/libskynet/src/registry.ts] (registry signatures, entry ids,
      tagged keys),
    - [libs/libskynet/src/seed.ts] (seed phrase validation),
    - the skyfile path validator,
    - the progressive fetch helper,
    together with the properties the specification states about them.

    JavaScript values are modelled as the code uses them: a [Uint8Array] is a
    list of bytes, a string is a list of UTF-16 code units, a [bigint] is a
    [Z], a Go-style return tuple [[value, err]] is a pair whose second
    component is [None] for [null], and a thrown exception is an explicit
    outcome of the computation. *)

From Stdlib Require Import ZArith NArith Lia.
From Stdlib.Strings Require Import Byte Ascii String.
From stdpp Require Import base option list gmap pretty.

Local Open Scope nat_scope.

(** ** JavaScript basics *)

Module JS.

(** The exceptions the modelled code can raise. *)
Inductive exn := RangeError | TypeError.

(** A computation either returns normally or throws. *)
Inductive completion (A : Type) :=
| Normal (a : A)
| Throw (e : exn).
Arguments Normal {A} a.
Arguments Throw {A} e.

Definition bind {A B} (c : completion A) (k : A -> completion B) : completion B :=
  match c with
  | Normal a => k a
  | Throw e => Throw e
  end.

Notation "x <- c ;;; k" := (bind c (fun x => k))
  (at level 100, c at next level, right associativity).

(** A [Uint8Array]. *)
Definition bytes := list byte.

#[export] Instance byte_eq_decision : EqDecision byte := Byte.byte_eq_dec.

(** [new Uint8Array(n)]: [n] zero bytes. *)
Definition u8_new (n : nat) : bytes := replicate n x00.

(** [target.set(src, offset)]: copies [src] into [target] at [offset];
    a source that does not fit raises [RangeError]. *)
Definition u8_set (target src : bytes) (offset : nat) : completion bytes :=
  if decide (offset + length src <= length target)
  then Normal (take offset target ++ src ++ drop (offset + length src) target)
  else Throw RangeError.

(** [target[i] = b] on a typed array: a write out of range is ignored. *)
Definition u8_store (target : bytes) (i : nat) (b : byte) : bytes :=
  <[i := b]> target.

(** The byte a typed array stores for a number: the number modulo 256. *)
Definition byte_of_N (n : N) : byte :=
  default x00 (Byte.of_N (n mod 256)).
Arguments byte_of_N : simpl never.

(** A string is its sequence of UTF-16 code units. *)
Definition codeunit := N.
Definition jsstring := list codeunit.

(** The string literal with the given (ASCII) characters. *)
Definition lit (s : string) : jsstring :=
  map N_of_ascii (list_ascii_of_string s).

(** [Err] is the type [string | null] of the sources. *)
Definition Err := option jsstring.

(** [s.startsWith(p)]. *)
Fixpoint startsWith (s p : jsstring) {struct p} : bool :=
  match p, s with
  | [], _ => true
  | _ :: _, [] => false
  | c :: p', d :: s' => if decide (c = d) then startsWith s' p' else false
  end.

(** [s.split(sep)] for a separator of one code unit. *)
Fixpoint split (sep : codeunit) (s : jsstring) : list jsstring :=
  match s with
  | [] => [[]]
  | c :: s' =>
      if decide (c = sep) then [] :: split sep s'
      else match split sep s' with
           | w :: ws => (c :: w) :: ws
           | [] => [[c]]
           end
  end.

(** [s.slice(0, n)]. *)
Definition slice0 (n : nat) (s : jsstring) : jsstring := take n s.

(** Filling the zero tail of a buffer: writing [src] right after the part
    [pre] already written leaves [pre ++ src] followed by zeros. *)
Lemma u8_set_fill (pre src buf : bytes) (n k off : nat) :
  buf = pre ++ replicate n x00 ->
  n = length src + k ->
  off = length pre ->
  u8_set buf src off = Normal (pre ++ src ++ replicate k x00).
Proof.
  intros -> -> ->. unfold u8_set.
  rewrite decide_True by (rewrite length_app, length_replicate; lia).
  f_equal. rewrite take_app_length. f_equal. f_equal.
  rewrite drop_app_add. apply drop_replicate_add.
Qed.

Lemma u8_set_too_long (target src : bytes) (off : nat) :
  length target < off + length src ->
  u8_set target src off = Throw RangeError.
Proof. intros H. unfold u8_set. rewrite decide_False by lia. reflexivity. Qed.

End JS.
Import JS.

(** ** Byte encodings ([encoding.ts]) *)

Module Encoding.

Local Open Scope Z_scope.

(** The little-endian bytes of [n], least significant first. *)
Fixpoint le_bytes (k : nat) (n : Z) : bytes :=
  match k with
  | O => []
  | S k' => byte_of_N (Z.to_N (Z.land n 255)) :: le_bytes k' (Z.shiftr n 8)
  end.

(** Modelled from the spec: [encodeU64] of [encoding.ts] is not among the
    sources; the specification gives it as
    "encodeU64(n: 0 <= n < 2^64) -> 8 bytes, little-endian", failing when
    [n] is negative or at least [2^64].  Its callers take the failure as the
    second component of the returned pair; the wording of the two messages
    is not given by the specification. *)
Definition encodeU64 (num : Z) : bytes * Err :=
  if decide (num < 0) then ([], Some (lit "expected a positive integer"))
  else if decide (2 ^ 64 <= num)
       then ([], Some (lit "expected a number no larger than a uint64"))
       else (le_bytes 8 num, None).

(** Modelled from the spec: [encodePrefixedBytes] of [encoding.ts] is not
    among the sources; the specification gives it as
    "encodePrefixedBytes(b) -> encode(len(b)) ++ b". *)
Definition encodePrefixedBytes (b : bytes) : bytes * Err :=
  match encodeU64 (Z.of_nat (length b)) with
  | (encodedLen, None) => (encodedLen ++ b, None)
  | (_, Some err) => ([], Some err)
  end.

Lemma length_le_bytes (k : nat) (n : Z) : length (le_bytes k n) = k.
Proof.
  revert n. induction k as [|k IH]; intros n; cbn [le_bytes length]; [reflexivity|].
  by rewrite IH.
Qed.

Lemma encodeU64_ok (n : Z) :
  0 <= n < 2 ^ 64 -> encodeU64 n = (le_bytes 8 n, None).
Proof.
  intros [H0 H1]. unfold encodeU64.
  destruct (decide (n < 0)) as [?|_]; [lia|].
  destruct (decide (2 ^ 64 <= n)) as [?|_]; [lia|reflexivity].
Qed.

Lemma encodeU64_inv (n : Z) (b : bytes) :
  encodeU64 n = (b, None) -> 0 <= n < 2 ^ 64 /\ b = le_bytes 8 n.
Proof.
  unfold encodeU64.
  destruct (decide (n < 0)) as [?|?]; [discriminate|].
  destruct (decide (2 ^ 64 <= n)) as [?|?]; [discriminate|].
  intros H. apply (f_equal fst) in H. cbn [fst] in H. subst b.
  split; [lia | reflexivity].
Qed.

Lemma encodePrefixedBytes_inv (b e : bytes) :
  encodePrefixedBytes b = (e, None) ->
  e = le_bytes 8 (Z.of_nat (length b)) ++ b.
Proof.
  unfold encodePrefixedBytes.
  destruct (encodeU64 _) as [l [err|]] eqn:E; [discriminate|].
  intros H. apply (f_equal fst) in H. cbn [fst] in H. subst e.
  apply encodeU64_inv in E as [_ ->]. reflexivity.
Qed.

Lemma encodePrefixedBytes_ok (b : bytes) :
  Z.of_nat (length b) < 2 ^ 64 ->
  encodePrefixedBytes b = (le_bytes 8 (Z.of_nat (length b)) ++ b, None).
Proof.
  intros H. unfold encodePrefixedBytes. rewrite encodeU64_ok by lia. reflexivity.
Qed.

(** Modelled from the spec: [addContextToErr] of [err.ts] is not among the
    sources; the specification has every layer put "a short human-readable
    prefix" before the original error text. *)
Definition addContextToErr (err : jsstring) (context : jsstring) : jsstring :=
  context ++ lit ": " ++ err.

End Encoding.
Import Encoding.

(** ** [TextEncoder] *)

Module Text.

Local Open Scope N_scope.

Definition isHighSurrogate (u : codeunit) : bool := (0xD800 <=? u) && (u <? 0xDC00).
Definition isLowSurrogate (u : codeunit) : bool := (0xDC00 <=? u) && (u <? 0xE000).

(** The UTF-8 bytes of one code point. *)
Definition utf8 (cp : N) : bytes :=
  if cp <? 0x80 then [byte_of_N cp]
  else if cp <? 0x800 then
    [byte_of_N (0xC0 + cp / 64); byte_of_N (0x80 + cp mod 64)]
  else if cp <? 0x10000 then
    [byte_of_N (0xE0 + cp / 4096); byte_of_N (0x80 + (cp / 64) mod 64);
     byte_of_N (0x80 + cp mod 64)]
  else
    [byte_of_N (0xF0 + cp / 262144); byte_of_N (0x80 + (cp / 4096) mod 64);
     byte_of_N (0x80 + (cp / 64) mod 64); byte_of_N (0x80 + cp mod 64)].

(** [new TextEncoder().encode(s)]: the UTF-8 encoding of the string; a
    surrogate pair is one code point, a lone surrogate becomes U+FFFD. *)
Fixpoint encode (s : jsstring) : bytes :=
  match s with
  | [] => []
  | u :: rest =>
      if isHighSurrogate u then
        match rest with
        | v :: rest' =>
            if isLowSurrogate v
            then utf8 (0x10000 + (u - 0xD800) * 1024 + (v - 0xDC00)) ++ encode rest'
            else utf8 0xFFFD ++ encode rest
        | [] => utf8 0xFFFD
        end
      else if isLowSurrogate u then utf8 0xFFFD ++ encode rest
      else utf8 u ++ encode rest
  end.

End Text.

(** ** Registry entries ([libs/libskynet/src/registry.ts])

    [taggedRegistryEntryKeys] and [deriveRegistryEntryID] of
    [libkerneldev/src/registry.ts] are the same functions, with a datakey
    tag that is not optional. *)

Module Registry.

Record Ed25519Keypair := { publicKey : bytes; secretKey : bytes }.

(** The keypair returned next to an error: [nkp] in libkerneldev,
    [{} as Ed25519Keypair] in libskynet. *)
Definition nkp : Ed25519Keypair := {| publicKey := []; secretKey := [] |}.

Definition SEED_BYTES : nat := 16.

Section Primitives.

(** The primitives are consumed as black boxes. *)
Variable blake2b : bytes -> bytes.
Variable sha512 : bytes -> bytes.
Variable ed25519KeypairFromEntropy : bytes -> Ed25519Keypair * Err.
Variable ed25519Sign : bytes -> bytes -> bytes * Err.
Variable ed25519Verify : bytes -> bytes -> bytes -> bool.

(** The buffer [dataToSign] / [dataToVerify] that both
    [computeRegistrySignature] and [verifyRegistrySignature] build. *)
Definition registrySigningData (dataKey data encodedData encodedRevision : bytes)
  : completion bytes :=
  let buf := u8_new (32 + 8 + length data + 8) in
  buf <- u8_set buf dataKey 0 ;;;
  buf <- u8_set buf encodedData 32 ;;;
  u8_set buf encodedRevision (32 + 8 + length data).

Definition computeRegistrySignature
  (secretKey dataKey data : bytes) (revision : Z) : completion (bytes * Err) :=
  if decide (86 < length data)
  then Normal ([], Some (lit "registry data must be at most 86 bytes"))
  else
    match encodePrefixedBytes data with
    | (_, Some errEPB) =>
        Normal ([], Some (addContextToErr errEPB (lit "unable to encode provided registry data")))
    | (encodedData, None) =>
        match encodeU64 revision with
        | (_, Some errEU64) =>
            Normal ([], Some (addContextToErr errEU64 (lit "unable to encode the revision number")))
        | (encodedRevision, None) =>
            dataToSign <- registrySigningData dataKey data encodedData encodedRevision ;;;
            let sigHash := blake2b dataToSign in
            match ed25519Sign sigHash secretKey with
            | (_, Some errS) =>
                Normal ([], Some (addContextToErr errS (lit "unable to sign registry entry")))
            | (sig, None) => Normal (sig, None)
            end
        end
    end.

Definition verifyRegistrySignature
  (pubkey datakey data : bytes) (revision : Z) (sig : bytes) : completion bool :=
  match encodePrefixedBytes data with
  | (_, Some _) => Normal false
  | (encodedData, None) =>
      match encodeU64 revision with
      | (_, Some _) => Normal false
      | (encodedRevision, None) =>
          dataToVerify <- registrySigningData datakey data encodedData encodedRevision ;;;
          let sigHash := blake2b dataToVerify in
          Normal (ed25519Verify sigHash sig pubkey)
      end
  end.

(** The specifier "ed25519" written into the first bytes of the encoding. *)
Definition specifier : bytes :=
  map (fun c => byte_of_N (N_of_ascii c)) (list_ascii_of_string "ed25519").

(** The buffer [encoding] that [deriveRegistryEntryID] hashes. *)
Definition entryIDEncoding (pubkey datakey encodedLen : bytes) : completion bytes :=
  let encoding := u8_new (16 + 8 + 32 + 32) in
  let encoding := u8_store encoding 0 (byte_of_N 101) in  (* "e" *)
  let encoding := u8_store encoding 1 (byte_of_N 100) in  (* "d" *)
  let encoding := u8_store encoding 2 (byte_of_N 50) in   (* "2" *)
  let encoding := u8_store encoding 3 (byte_of_N 53) in   (* "5" *)
  let encoding := u8_store encoding 4 (byte_of_N 53) in   (* "5" *)
  let encoding := u8_store encoding 5 (byte_of_N 49) in   (* "1" *)
  let encoding := u8_store encoding 6 (byte_of_N 57) in   (* "9" *)
  encoding <- u8_set encoding encodedLen 16 ;;;
  encoding <- u8_set encoding pubkey (16 + 8) ;;;
  u8_set encoding datakey (16 + 8 + 32).

Definition deriveRegistryEntryID (pubkey datakey : bytes) : completion (bytes * Err) :=
  if decide (length pubkey ≠ 32)
  then Normal ([], Some (lit "pubkey is invalid, length is wrong"))
  else if decide (length datakey ≠ 32)
  then Normal ([], Some (lit "datakey is not a valid hash, length is wrong"))
  else
    match encodeU64 32 with
    | (_, Some errU64) =>
        Normal ([], Some (addContextToErr errU64 (lit "unable to encode pubkey length")))
    | (encodedLen, None) =>
        encoding <- entryIDEncoding pubkey datakey encodedLen ;;;
        let id := blake2b encoding in
        Normal (id, None)
    end.

(** The buffer [datakeyInput] of [taggedRegistryEntryKeys]. *)
Definition datakeyInput (seed keypairTag datakeyTag : bytes) : completion bytes :=
  let datakeyInput :=
    u8_new (length seed + 1 + length keypairTag + length datakeyTag) in
  let keypairLen := u8_new 1 in
  let keypairLen := u8_store keypairLen 0 (byte_of_N (N.of_nat (length keypairTag))) in
  datakeyInput <- u8_set datakeyInput seed 0 ;;;
  datakeyInput <- u8_set datakeyInput keypairLen (length seed) ;;;
  datakeyInput <- u8_set datakeyInput keypairTag (length seed + 1) ;;;
  u8_set datakeyInput datakeyTag (length seed + 1 + length keypairTag).

(** The buffer [entropyInput] of [taggedRegistryEntryKeys]. *)
Definition entropyInput (seed keypairTag : bytes) : completion bytes :=
  let entropyInput := u8_new (length keypairTag + length seed) in
  entropyInput <- u8_set entropyInput seed 0 ;;;
  u8_set entropyInput keypairTag (length seed).

Definition taggedRegistryEntryKeys
  (seed : bytes) (keypairTagStr : jsstring) (datakeyTagStr : option jsstring)
  : completion (Ed25519Keypair * bytes * Err) :=
  if decide (length seed ≠ SEED_BYTES)
  then Normal (nkp, [], Some (lit "seed has the wrong length"))
  else if decide (255 < length keypairTagStr)
  then Normal (nkp, [], Some (lit "keypairTag must be less than 256 characters"))
  else
    (* If no datakey tag was provided, use the empty string. *)
    let datakeyTagStr := default [] datakeyTagStr in
    let keypairTag := Text.encode keypairTagStr in
    entropyInput <- entropyInput seed keypairTag ;;;
    let keypairEntropy := sha512 entropyInput in
    let datakeyTag := Text.encode datakeyTagStr in
    datakeyInput <- datakeyInput seed keypairTag datakeyTag ;;;
    let datakeyEntropy := sha512 datakeyInput in
    match ed25519KeypairFromEntropy (take 32 keypairEntropy) with
    | (_, Some errKPFE) =>
        Normal (nkp, [], Some (addContextToErr errKPFE (lit "unable to derive keypair")))
    | (keypair, None) =>
        let datakey := take 32 datakeyEntropy in
        Normal (keypair, datakey, None)
    end.


(** *** Facts about the buffers *)

Lemma length_specifier : length specifier = 7.
Proof. reflexivity. Qed.

(** One [set] into the zero tail of a buffer whose written part is [pre]. *)
Ltac u8_fill pre k :=
  erewrite (u8_set_fill pre _ _ _ k);
  [ cbn [bind]
  | rewrite <- ?app_assoc, ?app_nil_l; reflexivity
  | rewrite ?length_app, ?length_replicate, ?length_specifier; cbn [length]; lia
  | rewrite ?length_app, ?length_replicate, ?length_specifier; cbn [length]; lia ].

Lemma registrySigningData_ok (dataKey data encodedData encodedRevision : bytes) :
  length dataKey = 32 ->
  length encodedData = 8 + length data ->
  length encodedRevision = 8 ->
  registrySigningData dataKey data encodedData encodedRevision
  = Normal (dataKey ++ encodedData ++ encodedRevision).
Proof.
  intros Hk Hd Hr. unfold registrySigningData, u8_new.
  u8_fill (@nil byte) (8 + length data + 8).
  u8_fill dataKey 8.
  u8_fill (dataKey ++ encodedData) 0.
  by rewrite <- !app_assoc, app_nil_r.
Qed.

Lemma registrySigningData_encoded (dataKey data encodedData encodedRevision : bytes)
  (revision : Z) :
  length dataKey = 32 ->
  encodePrefixedBytes data = (encodedData, None) ->
  encodeU64 revision = (encodedRevision, None) ->
  registrySigningData dataKey data encodedData encodedRevision
  = Normal (dataKey ++ encodedData ++ encodedRevision).
Proof.
  intros Hk Hd Hr. apply registrySigningData_ok; [done| |].
  - apply encodePrefixedBytes_inv in Hd as ->.
    rewrite length_app, length_le_bytes. lia.
  - apply encodeU64_inv in Hr as [_ ->]. apply length_le_bytes.
Qed.

Lemma entryIDEncoding_ok (pubkey datakey encodedLen : bytes) :
  length pubkey = 32 -> length datakey = 32 -> length encodedLen = 8 ->
  entryIDEncoding pubkey datakey encodedLen
  = Normal (specifier ++ replicate 9 x00 ++ encodedLen ++ pubkey ++ datakey).
Proof.
  intros Hp Hd He. unfold entryIDEncoding.
  change (u8_store _ 6 _) with ((specifier ++ replicate 9 x00) ++ replicate 72 x00).
  u8_fill (specifier ++ replicate 9 x00) 64.
  u8_fill ((specifier ++ replicate 9 x00) ++ encodedLen) 32.
  u8_fill (((specifier ++ replicate 9 x00) ++ encodedLen) ++ pubkey) 0.
  by rewrite <- !app_assoc, app_nil_r.
Qed.

Lemma datakeyInput_ok (seed keypairTag datakeyTag : bytes) :
  datakeyInput seed keypairTag datakeyTag
  = Normal (seed ++ [byte_of_N (N.of_nat (length keypairTag))] ++ keypairTag ++ datakeyTag).
Proof.
  unfold datakeyInput, u8_new, u8_store.
  change (<[0:=?b]> (replicate 1 x00)) with [b].
  u8_fill (@nil byte) (1 + length keypairTag + length datakeyTag).
  u8_fill seed (length keypairTag + length datakeyTag).
  u8_fill (seed ++ [byte_of_N (N.of_nat (length keypairTag))]) (length datakeyTag).
  u8_fill ((seed ++ [byte_of_N (N.of_nat (length keypairTag))]) ++ keypairTag) 0.
  by rewrite <- !app_assoc, app_nil_r.
Qed.

Lemma entropyInput_ok (seed keypairTag : bytes) :
  entropyInput seed keypairTag = Normal (seed ++ keypairTag).
Proof.
  unfold entropyInput, u8_new.
  u8_fill (@nil byte) (length keypairTag).
  u8_fill seed 0.
  by rewrite app_nil_r.
Qed.

(** With a prefix byte that holds the length of the encoded keypair tag,
    the preimage determines both tags.  This needs the encoded tag to have
    at most 255 bytes. *)
Lemma byte_of_N_inj (n m : N) :
  (n < 256)%N -> (m < 256)%N -> byte_of_N n = byte_of_N m -> n = m.
Proof.
  intros Hn Hm. unfold byte_of_N. rewrite !N.mod_small by assumption.
  destruct (Byte.of_N n) as [b|] eqn:En; [|apply Byte.of_N_None_iff in En; lia].
  destruct (Byte.of_N m) as [c|] eqn:Em; [|apply Byte.of_N_None_iff in Em; lia].
  cbn [default from_option id]. intros ->.
  apply Byte.to_of_N in En, Em. congruence.
Qed.

Lemma datakeyInput_inj (seed keypairTag datakeyTag keypairTag' datakeyTag' : bytes) :
  length keypairTag <= 255 -> length keypairTag' <= 255 ->
  datakeyInput seed keypairTag datakeyTag = datakeyInput seed keypairTag' datakeyTag' ->
  keypairTag = keypairTag' /\ datakeyTag = datakeyTag'.
Proof.
  intros Hk Hk'. rewrite !datakeyInput_ok. intros H.
  apply (f_equal (fun c => match c with Normal b => b | Throw _ => [] end)) in H.
  apply app_inv_head in H. cbn [app] in H.
  assert (Hb : byte_of_N (N.of_nat (length keypairTag))
               = byte_of_N (N.of_nat (length keypairTag'))) by congruence.
  assert (Ht : keypairTag ++ datakeyTag = keypairTag' ++ datakeyTag') by congruence.
  apply byte_of_N_inj in Hb; [|lia..].
  apply app_inj_1 in Ht; [exact Ht | lia].
Qed.

(** *** Signing and verifying *)

(** The bytes that are hashed and signed for a registry entry. *)
Definition signingPreimage (datakey encodedData encodedRevision : bytes) : bytes :=
  datakey ++ encodedData ++ encodedRevision.

Lemma verifyRegistrySignature_ok
  (pubkey datakey data : bytes) (revision : Z) (sig encodedData encodedRevision : bytes) :
  length datakey = 32 ->
  encodePrefixedBytes data = (encodedData, None) ->
  encodeU64 revision = (encodedRevision, None) ->
  verifyRegistrySignature pubkey datakey data revision sig
  = Normal (ed25519Verify (blake2b (signingPreimage datakey encodedData encodedRevision))
              sig pubkey).
Proof.
  intros Hk Hd Hr. unfold verifyRegistrySignature. rewrite Hd, Hr.
  by rewrite (registrySigningData_encoded _ _ _ _ revision).
Qed.

Lemma computeRegistrySignature_ok
  (secretKey datakey data : bytes) (revision : Z) (encodedData encodedRevision : bytes) :
  length data <= 86 ->
  length datakey = 32 ->
  encodePrefixedBytes data = (encodedData, None) ->
  encodeU64 revision = (encodedRevision, None) ->
  computeRegistrySignature secretKey datakey data revision
  = match ed25519Sign (blake2b (signingPreimage datakey encodedData encodedRevision))
            secretKey with
    | (_, Some errS) =>
        Normal ([], Some (addContextToErr errS (lit "unable to sign registry entry")))
    | (sig, None) => Normal (sig, None)
    end.
Proof.
  intros Hlen Hk Hd Hr. unfold computeRegistrySignature.
  destruct (decide (86 < length data)) as [?|_]; [lia|].
  rewrite Hd, Hr.
  by rewrite (registrySigningData_encoded _ _ _ _ revision).
Qed.

Section Scheme.

(** The contract of the signature scheme: a keypair made from 32 bytes of
    entropy signs every message, and the signature verifies under its
    public key. *)
Hypothesis ed25519_correct :
  forall (entropy : bytes) (keypair : Ed25519Keypair),
    length entropy = 32 ->
    ed25519KeypairFromEntropy entropy = (keypair, None) ->
    forall msg : bytes,
    exists sig : bytes,
      ed25519Sign msg (secretKey keypair) = (sig, None) /\
      ed25519Verify msg sig (publicKey keypair) = true.

(** C2: for a 32-byte datakey, data of at most 86 bytes, a revision that is
    an unsigned 64-bit counter, and a keypair made by the signature scheme
    from 32 bytes of entropy, [computeRegistrySignature] succeeds and
    [verifyRegistrySignature] returns true on the signature it produced;
    both hash the preimage
    [datakey ++ encodePrefixedBytes data ++ encodeU64 revision]. *)
Theorem computeRegistrySignature_verifies
  (entropy : bytes) (keypair : Ed25519Keypair) (datakey data : bytes) (revision : Z) :
  length entropy = 32 ->
  ed25519KeypairFromEntropy entropy = (keypair, None) ->
  length datakey = 32 ->
  length data <= 86 ->
  (0 <= revision < 2 ^ 64)%Z ->
  exists sig encodedData encodedRevision : bytes,
    encodePrefixedBytes data = (encodedData, None) /\
    encodeU64 revision = (encodedRevision, None) /\
    ed25519Sign (blake2b (datakey ++ encodedData ++ encodedRevision)) (secretKey keypair)
    = (sig, None) /\
    computeRegistrySignature (secretKey keypair) datakey data revision
    = Normal (sig, None) /\
    (forall pubkey sig' : bytes,
        verifyRegistrySignature pubkey datakey data revision sig'
        = Normal (ed25519Verify (blake2b (datakey ++ encodedData ++ encodedRevision))
                    sig' pubkey)) /\
    verifyRegistrySignature (publicKey keypair) datakey data revision sig = Normal true.
Proof.
  intros He Hkp Hk Hlen Hrev.
  assert (Hd : encodePrefixedBytes data
               = (le_bytes 8 (Z.of_nat (length data)) ++ data, None))
    by (apply encodePrefixedBytes_ok; lia).
  pose proof (encodeU64_ok revision Hrev) as Hr.
  destruct (ed25519_correct entropy keypair He Hkp
              (blake2b (signingPreimage datakey
                          (le_bytes 8 (Z.of_nat (length data)) ++ data)
                          (le_bytes 8 revision)))) as (sig & Hs & Hv).
  exists sig, (le_bytes 8 (Z.of_nat (length data)) ++ data), (le_bytes 8 revision).
  split; [exact Hd|]. split; [exact Hr|]. split; [exact Hs|].
  split; [|split].
  - rewrite (computeRegistrySignature_ok _ _ _ _ _ _ Hlen Hk Hd Hr). by rewrite Hs.
  - intros pubkey sig'. by apply verifyRegistrySignature_ok.
  - rewrite (verifyRegistrySignature_ok _ _ _ _ _ _ _ Hk Hd Hr). by rewrite Hv.
Qed.

End Scheme.

(** C10: the 86-byte limit is checked when signing only.
    [computeRegistrySignature] returns an error for every data longer than
    86 bytes; [verifyRegistrySignature] has no such bound and returns true
    for longer data whose signature is valid over
    [datakey ++ encodePrefixedBytes data ++ encodeU64 revision]. *)
Theorem data_limit_enforced_only_when_signing :
  (forall (secretKey dataKey data : bytes) (revision : Z),
      86 < length data ->
      exists err : jsstring,
        computeRegistrySignature secretKey dataKey data revision = Normal ([], Some err))
  /\
  (forall (pubkey datakey data : bytes) (revision : Z)
          (sig encodedData encodedRevision : bytes),
      86 < length data ->
      length datakey = 32 ->
      encodePrefixedBytes data = (encodedData, None) ->
      encodeU64 revision = (encodedRevision, None) ->
      ed25519Verify (blake2b (datakey ++ encodedData ++ encodedRevision)) sig pubkey = true ->
      verifyRegistrySignature pubkey datakey data revision sig = Normal true).
Proof.
  split.
  - intros secretKey dataKey data revision Hlen. unfold computeRegistrySignature.
    destruct (decide (86 < length data)) as [_|?]; [|lia]. by eexists.
  - intros pubkey datakey data revision sig encodedData encodedRevision _ Hk Hd Hr Hv.
    rewrite (verifyRegistrySignature_ok _ _ _ _ _ _ _ Hk Hd Hr).
    unfold signingPreimage. by rewrite Hv.
Qed.

(** *** A datakey of the wrong length *)

(** A datakey that does not fit the buffer makes the first [set] throw. *)
Lemma verifyRegistrySignature_long_datakey
  (pubkey datakey data : bytes) (revision : Z) (sig : bytes) :
  (Z.of_nat (length data) < 2 ^ 64)%Z ->
  (0 <= revision < 2 ^ 64)%Z ->
  48 + length data < length datakey ->
  verifyRegistrySignature pubkey datakey data revision sig = Throw RangeError.
Proof.
  intros Hd Hr Hk. unfold verifyRegistrySignature.
  rewrite (encodePrefixedBytes_ok _ Hd), (encodeU64_ok _ Hr).
  unfold registrySigningData, u8_new.
  rewrite u8_set_too_long; [reflexivity|].
  rewrite length_replicate. lia.
Qed.

(** C3 (the code departs from it): [verifyRegistrySignature] is said never
    to throw and to return a boolean for byte arrays of any length.  On a
    49-byte datakey with empty data and revision 0 the call
    [dataToVerify.set(datakey, 0)] raises [RangeError]: the buffer has only
    48 bytes. *)
Theorem verifyRegistrySignature_throws (pubkey sig : bytes) :
  verifyRegistrySignature pubkey (replicate 49 x00) [] 0 sig = Throw RangeError.
Proof.
  apply verifyRegistrySignature_long_datakey; cbn [length]; [lia | lia |].
  rewrite length_replicate. lia.
Qed.

(** A 33-byte datakey is not rejected either: its last byte is overwritten
    by the encoded data, so it verifies exactly as its 32-byte prefix. *)
Lemma verifyRegistrySignature_trailing_byte (pubkey sig : bytes) :
  verifyRegistrySignature pubkey (replicate 32 x00 ++ [x01]) [] 0 sig
  = verifyRegistrySignature pubkey (replicate 32 x00) [] 0 sig.
Proof. vm_compute. reflexivity. Qed.

(** *** Entry ids *)

(** The bytes [deriveRegistryEntryID] hashes: the specifier "ed25519" padded
    with zeros to 16 bytes, the encoded length 32, the pubkey and the
    datakey. *)
Definition entryIDPreimage (pubkey datakey : bytes) : bytes :=
  specifier ++ replicate 9 x00 ++ le_bytes 8 32 ++ pubkey ++ datakey.

Lemma deriveRegistryEntryID_ok (pubkey datakey : bytes) :
  length pubkey = 32 -> length datakey = 32 ->
  deriveRegistryEntryID pubkey datakey
  = Normal (blake2b (entryIDPreimage pubkey datakey), None).
Proof.
  intros Hp Hd. unfold deriveRegistryEntryID.
  destruct (decide (length pubkey ≠ 32)) as [?|_]; [done|].
  destruct (decide (length datakey ≠ 32)) as [?|_]; [done|].
  rewrite encodeU64_ok by lia.
  rewrite entryIDEncoding_ok by (try apply length_le_bytes; done).
  reflexivity.
Qed.

Lemma entryIDPreimage_inj (pubkey datakey pubkey' datakey' : bytes) :
  length pubkey = length pubkey' ->
  entryIDPreimage pubkey datakey = entryIDPreimage pubkey' datakey' ->
  pubkey = pubkey' /\ datakey = datakey'.
Proof.
  unfold entryIDPreimage. intros Hlen H.
  do 3 apply app_inv_head in H.
  by apply app_inj_1 in H.
Qed.

(** C6 (as the code has it): [deriveRegistryEntryID] returns an error exactly
    when the pubkey or the datakey is not 32 bytes long; otherwise it returns
    the hash of the 88-byte encoding: the 7-byte specifier padded with nine
    zero bytes to 16 bytes, then the encoded value 32, the pubkey and the
    datakey.  The id is 32 bytes when the hash is, and two different pairs
    of 32-byte inputs give different hashed encodings. *)
Theorem deriveRegistryEntryID_spec (pubkey datakey : bytes) :
  exists (id : bytes) (err : Err),
    deriveRegistryEntryID pubkey datakey = Normal (id, err) /\
    (err <> None <-> length pubkey <> 32 \/ length datakey <> 32) /\
    (err = None ->
     id = blake2b (specifier ++ replicate 9 x00 ++ le_bytes 8 32 ++ pubkey ++ datakey)) /\
    (err = None -> (forall m, length (blake2b m) = 32) -> length id = 32) /\
    (forall pubkey' datakey' : bytes,
        length pubkey = 32 -> length datakey = 32 ->
        length pubkey' = 32 -> length datakey' = 32 ->
        (pubkey, datakey) <> (pubkey', datakey') ->
        entryIDPreimage pubkey datakey <> entryIDPreimage pubkey' datakey').
Proof.
  assert (Hinj : forall pubkey' datakey' : bytes,
             length pubkey = 32 -> length datakey = 32 ->
             length pubkey' = 32 -> length datakey' = 32 ->
             (pubkey, datakey) <> (pubkey', datakey') ->
             entryIDPreimage pubkey datakey <> entryIDPreimage pubkey' datakey').
  { intros pubkey' datakey' Hp _ Hp' _ Hne Heq. apply Hne.
    apply entryIDPreimage_inj in Heq as [-> ->]; [done | congruence]. }
  destruct (decide (length pubkey = 32)) as [Hp|Hp].
  - destruct (decide (length datakey = 32)) as [Hd|Hd].
    + exists (blake2b (entryIDPreimage pubkey datakey)), None.
      split; [by apply deriveRegistryEntryID_ok|].
      split; [split; [done | intros [?|?]; done]|].
      split; [done|]. split; [intros _ Hh; apply Hh | exact Hinj].
    + exists [], (Some (lit "datakey is not a valid hash, length is wrong")).
      split.
      { unfold deriveRegistryEntryID.
        destruct (decide (length pubkey ≠ 32)) as [?|_]; [done|].
        destruct (decide (length datakey ≠ 32)) as [_|?]; done. }
      split; [split; [by right | done]|].
      split; [done|]. split; [done | exact Hinj].
  - exists [], (Some (lit "pubkey is invalid, length is wrong")).
    split.
    { unfold deriveRegistryEntryID.
      destruct (decide (length pubkey ≠ 32)) as [_|?]; done. }
    split; [split; [by left | done]|].
    split; [done|]. split; [done | exact Hinj].
Qed.

(** *** Tagged keys *)

(** The keypair tag of 128 copies of U+00E9: 128 characters, 256 bytes. *)
Definition longTag : jsstring := replicate 128 233%N.

Lemma encode_longTag :
  Text.encode longTag = mjoin (replicate 128 [xc3; xa9]).
Proof. vm_compute. reflexivity. Qed.

(** C5 (the code departs from it): two distinct tag pairs that
    [taggedRegistryEntryKeys] accepts, [(longTag, "")] and [("", longTag)],
    build the same datakey preimage and so the same datakey.  The length
    check counts the 128 characters of [longTag], the length prefix holds
    its 256 encoded bytes modulo 256, which is 0 as for the empty tag. *)
Theorem tagged_datakey_collision (seed : bytes) :
  (longTag, @nil codeunit) <> (@nil codeunit, longTag) /\
  length longTag <= 255 /\
  datakeyInput seed (Text.encode longTag) (Text.encode [])
  = datakeyInput seed (Text.encode []) (Text.encode longTag) /\
  (forall (keypair1 keypair2 : Ed25519Keypair) (datakey1 datakey2 : bytes),
      taggedRegistryEntryKeys seed longTag (Some []) = Normal (keypair1, datakey1, None) ->
      taggedRegistryEntryKeys seed [] (Some longTag) = Normal (keypair2, datakey2, None) ->
      datakey1 = datakey2).
Proof.
  assert (Hpre : datakeyInput seed (Text.encode longTag) (Text.encode [])
                 = datakeyInput seed (Text.encode []) (Text.encode longTag)).
  { rewrite !datakeyInput_ok, encode_longTag.
    change (Text.encode []) with (@nil byte).
    change (byte_of_N (N.of_nat (length (mjoin (replicate 128 [xc3; xa9])))))
      with (byte_of_N (N.of_nat (length (@nil byte)))).
    by rewrite app_nil_r. }
  split; [discriminate|]. split; [vm_compute; lia|]. split; [exact Hpre|].
  intros keypair1 keypair2 datakey1 datakey2.
  unfold taggedRegistryEntryKeys.
  destruct (decide (length seed ≠ SEED_BYTES)) as [?|_]; [discriminate|].
  destruct (decide (255 < length longTag)) as [?|_]; [discriminate|].
  destruct (decide (255 < length (@nil codeunit))) as [?|_]; [discriminate|].
  cbn [default from_option id]. rewrite !entropyInput_ok, Hpre. cbn [bind].
  destruct (datakeyInput seed (Text.encode []) (Text.encode longTag)) as [input|];
    cbn [bind]; [|discriminate].
  destruct (ed25519KeypairFromEntropy (take 32 (sha512 (seed ++ Text.encode longTag))))
    as [kp1 [e1|]]; [discriminate|].
  destruct (ed25519KeypairFromEntropy (take 32 (sha512 (seed ++ Text.encode []))))
    as [kp2 [e2|]]; [discriminate|].
  intros H1 H2.
  apply (f_equal (fun c => match c with Normal (_, d, _) => d | Throw _ => [] end)) in H1, H2.
  congruence.
Qed.

End Primitives.

End Registry.

(** ** The registry functions on concrete inputs *)

Module RegistryExamples.
Import Registry.

(** A small signature scheme to run the registry functions with: the
    keypair is the entropy itself, a signature is the key followed by the
    message, and the hash is the identity. *)
Definition modelHash (m : bytes) : bytes := m.
Definition modelKeypairFromEntropy (entropy : bytes) : Ed25519Keypair * Err :=
  ({| publicKey := entropy; secretKey := entropy |}, None).
Definition modelSign (msg secretKey : bytes) : bytes * Err := (secretKey ++ msg, None).
Definition modelVerify (msg sig pubkey : bytes) : bool := bool_decide (sig = pubkey ++ msg).

Lemma model_correct (entropy : bytes) (keypair : Ed25519Keypair) :
  length entropy = 32 ->
  modelKeypairFromEntropy entropy = (keypair, None) ->
  forall msg : bytes,
  exists sig : bytes,
    modelSign msg (secretKey keypair) = (sig, None) /\
    modelVerify msg sig (publicKey keypair) = true.
Proof.
  intros _ [= <-] msg. eexists. split; [reflexivity|].
  apply bool_decide_eq_true. reflexivity.
Qed.

(** A witness of C2, at a concrete entry: entropy of 32 ones, a datakey of 32 twos, the
    data [3] and revision 7. *)
Lemma computeRegistrySignature_verifies_witness :
  exists sig encodedData encodedRevision : bytes,
    encodePrefixedBytes [x03] = (encodedData, None) /\
    encodeU64 7 = (encodedRevision, None) /\
    modelSign (modelHash (replicate 32 x02 ++ encodedData ++ encodedRevision))
      (replicate 32 x01) = (sig, None) /\
    computeRegistrySignature modelHash modelSign (replicate 32 x01) (replicate 32 x02) [x03] 7
    = Normal (sig, None) /\
    (forall pubkey sig' : bytes,
        verifyRegistrySignature modelHash modelVerify pubkey (replicate 32 x02) [x03] 7 sig'
        = Normal (modelVerify (modelHash (replicate 32 x02 ++ encodedData ++ encodedRevision))
                    sig' pubkey)) /\
    verifyRegistrySignature modelHash modelVerify (replicate 32 x01) (replicate 32 x02) [x03] 7 sig
    = Normal true.
Proof.
  apply (computeRegistrySignature_verifies modelHash modelKeypairFromEntropy modelSign
           modelVerify model_correct (replicate 32 x01)
           {| publicKey := replicate 32 x01; secretKey := replicate 32 x01 |}
           (replicate 32 x02) [x03] 7).
  - reflexivity.
  - reflexivity.
  - reflexivity.
  - cbn [length]. lia.
  - lia.
Defined.

(** A witness of C10, at a concrete entry: 87 bytes of data are refused by the signer and
    accepted by the verifier. *)
Lemma data_limit_enforced_only_when_signing_witness :
  (exists err : jsstring,
      computeRegistrySignature modelHash modelSign [x01] (replicate 32 x02) (replicate 87 x03) 0
      = Normal ([], Some err)) /\
  verifyRegistrySignature modelHash modelVerify [x01] (replicate 32 x02) (replicate 87 x03) 0
    ([x01] ++ replicate 32 x02
       ++ (le_bytes 8 87 ++ replicate 87 x03) ++ le_bytes 8 0)
  = Normal true.
Proof.
  split.
  - apply (proj1 (data_limit_enforced_only_when_signing modelHash modelSign modelVerify)).
    rewrite length_replicate. lia.
  - apply (proj2 (data_limit_enforced_only_when_signing modelHash modelSign modelVerify)
             [x01] (replicate 32 x02) (replicate 87 x03) 0%Z _
             (le_bytes 8 87 ++ replicate 87 x03) (le_bytes 8 0)).
    + rewrite length_replicate. lia.
    + reflexivity.
    + reflexivity.
    + reflexivity.
    + reflexivity.
Defined.

(** Counterexample to C6 as stated: the hashed encoding is not the 7-byte specifier
    immediately followed by the encoded 32, the pubkey and the datakey.  For
    the all-zero pubkey and datakey the encoding has 88 bytes, nine of them
    zero padding after the specifier; with the identity in place of the hash
    the two results differ. *)
Lemma deriveRegistryEntryID_not_unpadded :
  ~ (forall (blake2b : bytes -> bytes) (pubkey datakey : bytes),
        length pubkey = 32 -> length datakey = 32 ->
        deriveRegistryEntryID blake2b pubkey datakey
        = Normal (blake2b (specifier ++ le_bytes 8 32 ++ pubkey ++ datakey), None)).
Proof.
  intros H.
  specialize (H modelHash (replicate 32 x00) (replicate 32 x00) eq_refl eq_refl).
  apply (f_equal (fun c => match c with
                           | Normal (id, _) => length id
                           | Throw _ => 0
                           end)) in H.
  vm_compute in H. discriminate H.
Qed.

End RegistryExamples.

(** ** Skyfile paths *)

Module Skyfile.

Definition slash : codeunit := 47%N.

(** The loop over [pathElems] of [validateSkyfilePath]. *)
Fixpoint checkPathElems (pathElems : list jsstring) : Err :=
  match pathElems with
  | [] => None
  | elem :: rest =>
      if decide (elem = lit ".") then Some (lit "path cannot have a . element")
      else if decide (elem = lit "..") then Some (lit "path cannot have a .. element")
      else if decide (elem = lit "")
      then Some (lit "path cannot have an empty element, cannot contain //")
      else checkPathElems rest
  end.

(** [validateSkyfilePath]: [None] is the [null] of a valid path. *)
Definition validateSkyfilePath (path : jsstring) : Err :=
  if decide (path = lit "") then Some (lit "path cannot be blank")
  else if decide (path = lit "..") then Some (lit "path cannot be ..")
  else if decide (path = lit ".") then Some (lit "path cannot be .")
  else if startsWith path (lit "/") then Some (lit "metdata.Filename cannot start with /")
  else if startsWith path (lit "../")
  then Some (lit "metdata.Filename cannot start with ../")
  else if startsWith path (lit "./")
  then Some (lit "metdata.Filename cannot start with ./")
  else checkPathElems (split slash path).

(** The tests of [TestValidateSkyfilePath]. *)
Example validateSkyfilePath_tests :
  validateSkyfilePath (lit "test") = None /\
  validateSkyfilePath (lit "test/subtrial") = None /\
  validateSkyfilePath (lit "test/subtrial.ext") = None /\
  validateSkyfilePath (lit "test/trial.ext/subtrial.ext") = None /\
  validateSkyfilePath (lit "") <> None /\
  validateSkyfilePath (lit ".") <> None /\
  validateSkyfilePath (lit "./") <> None /\
  validateSkyfilePath (lit "a//b") <> None /\
  validateSkyfilePath (lit "a/./b") <> None /\
  validateSkyfilePath (lit "a/../b") <> None /\
  validateSkyfilePath (lit "../a/b") <> None /\
  validateSkyfilePath (lit "/sometrial") <> None /\
  validateSkyfilePath (lit "sometrial/") <> None.
Proof. vm_compute. repeat split; discriminate. Qed.

(** *** What the specification says, in its own words *)

(** [s] starts with [p]. *)
Definition StartsWith (p s : jsstring) : Prop := exists k, s = p ++ k.

(** [segs] written one after the other with a separator in between. *)
Fixpoint joinWith (sep : codeunit) (segs : list jsstring) : jsstring :=
  match segs with
  | [] => []
  | [w] => w
  | w :: ws => w ++ sep :: joinWith sep ws
  end.

(** [segs] are the slash-separated segments of [path]: the path is the
    segments joined by slashes, and no segment contains a slash. *)
Definition SlashSegments (segs : list jsstring) (path : jsstring) : Prop :=
  segs <> [] /\ path = joinWith slash segs /\ forall w, In w segs -> ~ In slash w.

(** The valid paths of the specification. *)
Definition ValidPath (path : jsstring) : Prop :=
  path <> lit "" /\
  path <> lit "." /\ path <> lit ".." /\
  ~ StartsWith (lit "/") path /\
  ~ StartsWith (lit "./") path /\
  ~ StartsWith (lit "../") path /\
  forall segs, SlashSegments segs path ->
    forall w, In w segs -> w <> lit "" /\ w <> lit "." /\ w <> lit "..".

(** *** [startsWith] and [split] meet their descriptions *)

Lemma startsWith_spec (s p : jsstring) :
  startsWith s p = true <-> StartsWith p s.
Proof.
  revert s. induction p as [|c p IH]; intros s; cbn [startsWith].
  - split; [intros _; by exists s | reflexivity].
  - destruct s as [|d s].
    + split; [discriminate | intros [k Hk]; discriminate Hk].
    + destruct (decide (c = d)) as [->|Hne].
      * rewrite IH. split; intros [k Hk]; exists k.
        -- by rewrite Hk.
        -- by injection Hk.
      * split; [discriminate | intros [k Hk]; injection Hk; congruence].
Qed.

Lemma split_nonempty (sep : codeunit) (s : jsstring) : split sep s <> [].
Proof.
  destruct s as [|c s]; cbn [split]; [done|].
  destruct (decide (c = sep)); [done|]. by destruct (split sep s).
Qed.

Lemma joinWith_cons (sep : codeunit) (w : jsstring) (ws : list jsstring) :
  ws <> [] -> joinWith sep (w :: ws) = w ++ sep :: joinWith sep ws.
Proof. by destruct ws. Qed.

Lemma joinWith_split (sep : codeunit) (s : jsstring) :
  joinWith sep (split sep s) = s.
Proof.
  induction s as [|c s IH]; [reflexivity|]. cbn [split].
  destruct (decide (c = sep)) as [->|Hne].
  - rewrite joinWith_cons by apply split_nonempty. by rewrite IH.
  - pose proof (split_nonempty sep s) as Hs.
    destruct (split sep s) as [|w ws]; [done|].
    destruct ws as [|w' ws].
    + cbn in *. by rewrite IH.
    + rewrite joinWith_cons by done. rewrite joinWith_cons in IH by done.
      cbn [app]. by rewrite IH.
Qed.

Lemma split_no_sep (sep : codeunit) (s w : jsstring) :
  In w (split sep s) -> ~ In sep w.
Proof.
  revert w. induction s as [|c s IH]; intros w; cbn [split].
  - intros [<-|[]]. by intros [].
  - destruct (decide (c = sep)) as [->|Hne].
    + intros [<-|Hw]; [by intros [] | by apply IH].
    + destruct (split sep s) as [|w' ws].
      * intros [<-|[]]. intros [?|[]]. congruence.
      * intros [<-|Hw].
        -- intros [?|Hin]; [congruence|]. revert Hin. apply IH. by left.
        -- apply IH. by right.
Qed.

Lemma split_app_sep (sep : codeunit) (w rest : jsstring) :
  ~ In sep w -> split sep (w ++ sep :: rest) = w :: split sep rest.
Proof.
  induction w as [|c w IH]; intros Hw; cbn [app split].
  - by rewrite decide_True.
  - rewrite decide_False by (intros ->; apply Hw; by left).
    rewrite IH; [reflexivity|]. intros Hin. apply Hw. by right.
Qed.

Lemma split_single (sep : codeunit) (w : jsstring) :
  ~ In sep w -> split sep w = [w].
Proof.
  induction w as [|c w IH]; intros Hw; cbn [split]; [reflexivity|].
  rewrite decide_False by (intros ->; apply Hw; by left).
  rewrite IH; [reflexivity|]. intros Hin. apply Hw. by right.
Qed.

Lemma split_joinWith (sep : codeunit) (segs : list jsstring) :
  segs <> [] -> (forall w, In w segs -> ~ In sep w) ->
  split sep (joinWith sep segs) = segs.
Proof.
  induction segs as [|w ws IH]; [done|]. intros _ Hws.
  destruct ws as [|w' ws].
  - apply split_single, Hws. by left.
  - rewrite joinWith_cons by done.
    rewrite split_app_sep by (apply Hws; by left).
    f_equal. apply IH; [done|]. intros v Hv. apply Hws. by right.
Qed.

(** The segments of a path are those [split] computes, and no others. *)
Lemma SlashSegments_split (segs : list jsstring) (path : jsstring) :
  SlashSegments segs path <-> segs = split slash path.
Proof.
  split.
  - intros (Hne & -> & Hno). symmetry. by apply split_joinWith.
  - intros ->. split; [apply split_nonempty|].
    split; [symmetry; apply joinWith_split | apply split_no_sep].
Qed.

Lemma checkPathElems_None (pathElems : list jsstring) :
  checkPathElems pathElems = None <->
  forall w, In w pathElems -> w <> lit "" /\ w <> lit "." /\ w <> lit "..".
Proof.
  induction pathElems as [|elem rest IH]; cbn [checkPathElems].
  - split; [intros _ w [] | done].
  - destruct (decide (elem = lit ".")) as [->|H1].
    { split; [done|]. intros H. destruct (H (lit ".")) as (_ & ? & _); [by left | done]. }
    destruct (decide (elem = lit "..")) as [->|H2].
    { split; [done|]. intros H. destruct (H (lit "..")) as (_ & _ & ?); [by left | done]. }
    destruct (decide (elem = lit "")) as [->|H3].
    { split; [done|]. intros H. destruct (H (lit "")) as (? & _ & _); [by left | done]. }
    rewrite IH. split.
    + intros H w [<-|Hw]; [done | by apply H].
    + intros H w Hw. apply H. by right.
Qed.

(** C8: [validateSkyfilePath] returns null exactly for the paths that are
    non-empty, are not "." or "..", do not start with "/", "./" or "../",
    and have no slash-separated segment that is empty, "." or "..". *)
Theorem validateSkyfilePath_valid_iff (path : jsstring) :
  validateSkyfilePath path = None <-> ValidPath path.
Proof.
  unfold validateSkyfilePath, ValidPath.
  destruct (decide (path = lit "")) as [->|H0].
  { split; [done | intros (? & _); done]. }
  destruct (decide (path = lit "..")) as [->|H2].
  { split; [done | intros (_ & _ & ? & _); done]. }
  destruct (decide (path = lit ".")) as [->|H1].
  { split; [done | intros (_ & ? & _); done]. }
  destruct (startsWith path (lit "/")) eqn:Es.
  { apply startsWith_spec in Es. split; [done | intros (_ & _ & _ & ? & _); done]. }
  destruct (startsWith path (lit "../")) eqn:Edd.
  { apply startsWith_spec in Edd.
    split; [done | intros (_ & _ & _ & _ & _ & ? & _); done]. }
  destruct (startsWith path (lit "./")) eqn:Ed.
  { apply startsWith_spec in Ed.
    split; [done | intros (_ & _ & _ & _ & ? & _); done]. }
  assert (Hs : ~ StartsWith (lit "/") path)
    by (rewrite <- startsWith_spec, Es; done).
  assert (Hdd : ~ StartsWith (lit "../") path)
    by (rewrite <- startsWith_spec, Edd; done).
  assert (Hd : ~ StartsWith (lit "./") path)
    by (rewrite <- startsWith_spec, Ed; done).
  rewrite checkPathElems_None. split.
  - intros H. repeat (split; [done|]).
    intros segs Hsegs%SlashSegments_split. subst segs. exact H.
  - intros (_ & _ & _ & _ & _ & _ & H). apply (H (split slash path)).
    by apply SlashSegments_split.
Qed.

End Skyfile.

(** ** Seed phrases ([libs/libskynet/src/seed.ts]) *)

Module Seed.

Definition SEED_ENTROPY_WORDS : nat := 13.
Definition SEED_CHECKSUM_WORDS : nat := 2.
Definition SEED_BYTES : nat := 16.

Definition space : codeunit := 32%N.

Section Dictionary.

(** [dictionary.ts] is not among the sources: the word list and the length
    of the unique prefix are parameters, as is the hash. *)
Variable dictionary : list jsstring.
Variable DICTIONARY_UNIQUE_PREFIX : nat.
Variable sha512 : bytes -> bytes.

(** The number stored in byte [i] of a hash; [sha512] returns 64 bytes and
    only the first three are read. *)
Definition hashByte (h : bytes) (i : nat) : N := Byte.to_N (default x00 (h !! i)).

(** [seedToChecksumWords]; a word is [None] when the index is outside the
    dictionary ([undefined]). *)
Definition seedToChecksumWords (seed : bytes)
  : option jsstring * option jsstring * Err :=
  if decide (length seed ≠ SEED_BYTES)
  then (Some (lit ""), Some (lit ""),
        Some (lit "seed has the wrong length: " ++ lit (pretty (length seed))))
  else if decide (SEED_CHECKSUM_WORDS ≠ 2)
  then (Some (lit ""), Some (lit ""), Some (lit "SEED_CHECKSUM_WORDS is not set to 2"))
  else
    let h := sha512 seed in
    let word1 := N.shiftl (hashByte h 0) 8 in
    let word1 := (word1 + hashByte h 1)%N in
    let word1 := N.shiftr word1 6 in
    let word2 := N.shiftl (hashByte h 1) 10 in
    let word2 := N.land word2 0xffff in
    let word2 := (word2 + N.shiftl (hashByte h 2) 2)%N in
    let word2 := N.shiftr word2 6 in
    (dictionary !! N.to_nat word1, dictionary !! N.to_nat word2, None).

(** The search [for (let j = 0; j < dictionary.length; j++)] for the first
    dictionary word with the prefix of [seedWord], from index [j] on. *)
Fixpoint findWord (dict : list jsstring) (j : nat) (seedWord : jsstring) : option nat :=
  match dict with
  | [] => None
  | d :: dict' =>
      if decide (slice0 DICTIONARY_UNIQUE_PREFIX seedWord = slice0 DICTIONARY_UNIQUE_PREFIX d)
      then Some j
      else findWord dict' (S j) seedWord
  end.

(** The state of the packing loops: the bytes, [curByte] and [curBit]. *)
Record packing := { packed : bytes; curByte : nat; curBit : nat }.

(** The loop [for (let j = 0; j < wordBits; j++)] with [remaining] rounds
    to go: round [j] looks at bit [wordBits - j - 1 = remaining - 1]. *)
Fixpoint packBits (word : N) (remaining : nat) (st : packing) : packing :=
  match remaining with
  | O => st
  | S bit =>
      let bitSet := (0 <? N.land word (N.shiftl 1 (N.of_nat bit)))%N in
      let packed' :=
        if bitSet then
          match packed st !! curByte st with
          | Some b =>
              u8_store (packed st) (curByte st)
                (byte_of_N (N.lor (Byte.to_N b)
                              (N.shiftl 1 (N.of_nat (8 - curBit st - 1)))))
          | None => packed st
          end
        else packed st in
      let curBit' := curBit st + 1 in
      let st' :=
        if decide (8 <= curBit')
        then {| packed := packed'; curByte := curByte st + 1; curBit := 0 |}
        else {| packed := packed'; curByte := curByte st; curBit := curBit' |} in
      packBits word bit st'
  end.

(** The loop [for (let i = 0; i < SEED_ENTROPY_WORDS; i++)] from word [i]
    on; [seedWords] are the words not yet packed. *)
Fixpoint packWords (seedWords : list jsstring) (i : nat) (st : packing) : bytes * Err :=
  match seedWords with
  | [] => (packed st, None)
  | seedWord :: rest =>
      match findWord dictionary 0 seedWord with
      | None =>
          ([], Some (lit "word '" ++ seedWord ++ lit "' at index " ++ lit (pretty i)
                       ++ lit " not found in dictionary"))
      | Some word =>
          let wordBits := if decide (i = SEED_ENTROPY_WORDS - 1) then 8 else 10 in
          packWords rest (S i) (packBits (N.of_nat word) wordBits st)
      end
  end.

Definition seedWordsToSeed (seedWords : list jsstring) : bytes * Err :=
  if decide (length seedWords ≠ SEED_ENTROPY_WORDS)
  then ([], Some (lit "Seed words should have length " ++ lit (pretty SEED_ENTROPY_WORDS)
                    ++ lit " but has length " ++ lit (pretty (length seedWords))))
  else packWords seedWords 0 {| packed := u8_new SEED_BYTES; curByte := 0; curBit := 0 |}.

(** The helper [prefix] of [validSeedPhrase]: [s.slice(0, n)], which raises
    [TypeError] when [s] is [undefined]. *)
Definition prefix (s : option jsstring) : completion jsstring :=
  match s with
  | Some s => Normal (slice0 DICTIONARY_UNIQUE_PREFIX s)
  | None => Throw TypeError
  end.

Definition validSeedPhrase (seedPhrase : jsstring) : completion (bytes * Err) :=
  let seedWordsAndChecksum := split space seedPhrase in
  let seedWords := take SEED_ENTROPY_WORDS seedWordsAndChecksum in
  let checksumOne := seedWordsAndChecksum !! SEED_ENTROPY_WORDS in
  let checksumTwo := seedWordsAndChecksum !! (SEED_ENTROPY_WORDS + 1) in
  match seedWordsToSeed seedWords with
  | (_, Some err1) =>
      Normal ([], Some (addContextToErr err1 (lit "unable to parse seed phrase")))
  | (seed, None) =>
      match seedToChecksumWords seed with
      | (_, _, Some err2) =>
          Normal ([], Some (addContextToErr err2 (lit "could not compute checksum words")))
      | (checksumOneVerify, checksumTwoVerify, None) =>
          p1 <- prefix checksumOne ;;;
          p1v <- prefix checksumOneVerify ;;;
          if decide (p1 ≠ p1v)
          then Normal ([], Some (lit "first checksum word is invalid"))
          else
            p2 <- prefix checksumTwo ;;;
            p2v <- prefix checksumTwoVerify ;;;
            if decide (p2 ≠ p2v)
            then Normal ([], Some (lit "second checksum word is invalid"))
            else Normal (seed, None)
      end
  end.

(** [seedPhraseToSeed] is an alias of [validSeedPhrase]. *)
Definition seedPhraseToSeed (seedPhrase : jsstring) : completion (bytes * Err) :=
  validSeedPhrase seedPhrase.

(** *** The packing loops keep the 16 bytes *)

Lemma length_packBits (word : N) (remaining : nat) (st : packing) :
  length (packed (packBits word remaining st)) = length (packed st).
Proof.
  revert st. induction remaining as [|bit IH]; intros st; cbn [packBits]; [reflexivity|].
  rewrite IH.
  assert (Hp : length (if (0 <? N.land word (N.shiftl 1 (N.of_nat bit)))%N
                       then match packed st !! curByte st with
                            | Some b =>
                                u8_store (packed st) (curByte st)
                                  (byte_of_N (N.lor (Byte.to_N b)
                                                (N.shiftl 1 (N.of_nat (8 - curBit st - 1)))))
                            | None => packed st
                            end
                       else packed st) = length (packed st)).
  { destruct (0 <? _)%N; [|reflexivity].
    destruct (packed st !! curByte st); [apply length_insert | reflexivity]. }
  by destruct (decide (8 <= curBit st + 1)).
Qed.

Lemma packWords_found (seedWords : list jsstring) (i : nat) (st : packing) :
  (forall w, In w seedWords -> findWord dictionary 0 w <> None) ->
  exists seed, packWords seedWords i st = (seed, None) /\
               length seed = length (packed st).
Proof.
  revert i st. induction seedWords as [|w rest IH]; intros i st Hfound; cbn [packWords].
  - by exists (packed st).
  - destruct (findWord dictionary 0 w) as [word|] eqn:Ew.
    + destruct (IH (S i) (packBits (N.of_nat word)
                            (if decide (i = SEED_ENTROPY_WORDS - 1) then 8 else 10) st))
        as (seed & -> & Hlen).
      { intros v Hv. apply Hfound. by right. }
      exists seed. split; [reflexivity|]. by rewrite Hlen, length_packBits.
    + exfalso. apply (Hfound w); [by left | exact Ew].
Qed.

Lemma seedWordsToSeed_found (seedWords : list jsstring) :
  length seedWords = SEED_ENTROPY_WORDS ->
  (forall w, In w seedWords -> findWord dictionary 0 w <> None) ->
  exists seed, seedWordsToSeed seedWords = (seed, None) /\ length seed = SEED_BYTES.
Proof.
  intros Hlen Hfound. unfold seedWordsToSeed.
  destruct (decide (length seedWords ≠ SEED_ENTROPY_WORDS)) as [?|_]; [done|].
  destruct (packWords_found seedWords 0
              {| packed := u8_new SEED_BYTES; curByte := 0; curBit := 0 |} Hfound)
    as (seed & -> & Hs).
  exists seed. split; [reflexivity|]. rewrite Hs. apply length_replicate.
Qed.

(** C7 (the code departs from it): [validSeedPhrase] is said to be total and
    never to throw.  On a phrase of exactly 13 words, each found in the
    dictionary, the entropy words parse, [checksumOne] is [undefined], and
    [prefix(checksumOne)] raises [TypeError]. *)
Theorem validSeedPhrase_throws (seedPhrase : jsstring) :
  length (split space seedPhrase) = 13 ->
  (forall w, In w (split space seedPhrase) -> findWord dictionary 0 w <> None) ->
  validSeedPhrase seedPhrase = Throw TypeError.
Proof.
  intros Hlen Hfound. unfold validSeedPhrase.
  rewrite (take_ge (split space seedPhrase)) by (unfold SEED_ENTROPY_WORDS; lia).
  destruct (seedWordsToSeed_found _ Hlen Hfound) as (seed & -> & Hseed).
  unfold seedToChecksumWords.
  destruct (decide (length seed ≠ SEED_BYTES)) as [?|_]; [done|].
  destruct (decide (SEED_CHECKSUM_WORDS ≠ 2)) as [?|_]; [done|].
  rewrite (lookup_ge_None_2 (split space seedPhrase) SEED_ENTROPY_WORDS)
    by (unfold SEED_ENTROPY_WORDS; lia).
  reflexivity.
Qed.

End Dictionary.

(** A four-word dictionary, and a phrase of 13 times its first word. *)
Definition modelDictionary : list jsstring :=
  [lit "abbey"; lit "ablaze"; lit "abort"; lit "absorb"].

Definition thirteenWords : jsstring :=
  lit "abbey abbey abbey abbey abbey abbey abbey abbey abbey abbey abbey abbey abbey".

(** A stand-in for the hash; the throw does not depend on it. *)
Definition modelSha512 (m : bytes) : bytes := replicate 64 x00.

(** A witness of C7: the phrase of 13 words throws. *)
Lemma validSeedPhrase_throws_witness :
  validSeedPhrase modelDictionary 3 modelSha512 thirteenWords = Throw TypeError.
Proof.
  apply (validSeedPhrase_throws modelDictionary 3 modelSha512 thirteenWords).
  - reflexivity.
  - intros w Hw. vm_compute in Hw.
    repeat (destruct Hw as [<-|Hw]; [vm_compute; discriminate|]).
    destruct Hw.
Defined.

End Seed.

(** ** Progressive fetch *)

Module ProgressiveFetch.

Local Open Scope Z_scope.

(** A [Response]: [status] is [None] when the object has no ["status"]
    field or the field is not a number. *)
Record Response := { status : option Z; body : jsstring }.

(** What [fetch(query, fetchOpts)] settles with: a response for [then], or
    an error for [catch]. *)
Inductive fetchOutcome :=
| Resolved (response : Response)
| Rejected (err : jsstring).

(** References to arrays: JavaScript arrays are shared, mutable objects. *)
Definition loc := positive.

Module Midstate.
(** [progressiveFetchMidstate]; the arrays are held by reference. *)
Record t (FetchOpts : Type) := {
  endpoint : jsstring;
  fetchOpts : FetchOpts;
  portalsFailed : loc;
  responsesFailed : loc;
  remainingPortals : loc;
  logs : loc
}.
Arguments endpoint {FetchOpts} _.
Arguments fetchOpts {FetchOpts} _.
Arguments portalsFailed {FetchOpts} _.
Arguments responsesFailed {FetchOpts} _.
Arguments remainingPortals {FetchOpts} _.
Arguments logs {FetchOpts} _.
End Midstate.

Module Result.
(** [progressiveFetchResult]; [None] is [null]. *)
Record t := {
  success : bool;
  portal : option jsstring;
  response : option Response;
  portalsFailed : loc;
  responsesFailed : loc;
  remainingPortals : option loc;
  logs : loc
}.
End Result.

(** A log line; the text after the fixed message is [JSON.stringify] of the
    values kept here. *)
Inductive logLine (FetchOpts : Type) :=
| LogAllTried (pfm : Midstate.t FetchOpts)
| LogInvalidResponse (portal query : jsstring) (response : Response)
| LogErrorStatus (portal query : jsstring) (response : Response)
| LogFetchError (err : jsstring).
Arguments LogAllTried {FetchOpts} _.
Arguments LogInvalidResponse {FetchOpts} _ _ _.
Arguments LogErrorStatus {FetchOpts} _ _ _.
Arguments LogFetchError {FetchOpts} _.

Section Fetch.

Variable FetchOpts : Type.

(** The network: [fetch] answers a query in the current state of the world
    and moves the world on. *)
Variable World : Type.
Variable fetch : World -> jsstring -> FetchOpts -> fetchOutcome * World.

(** The arrays in memory, by element type. *)
Record heap := {
  strings : gmap loc (list jsstring);
  outcomes : gmap loc (list fetchOutcome);
  lines : gmap loc (list (logLine FetchOpts))
}.

Definition readStrings (h : heap) (l : loc) : list jsstring :=
  default [] (strings h !! l).

Definition writeStrings (h : heap) (l : loc) (v : list jsstring) : heap :=
  {| strings := <[l := v]> (strings h); outcomes := outcomes h; lines := lines h |}.

Definition writeOutcomes (h : heap) (l : loc) (v : list fetchOutcome) : heap :=
  {| strings := strings h; outcomes := <[l := v]> (outcomes h); lines := lines h |}.

Definition writeLines (h : heap) (l : loc) (v : list (logLine FetchOpts)) : heap :=
  {| strings := strings h; outcomes := outcomes h; lines := <[l := v]> (lines h) |}.

(** [a.push(x)] for the three kinds of array. *)
Definition pushString (h : heap) (l : loc) (x : jsstring) : heap :=
  writeStrings h l (readStrings h l ++ [x]).

Definition pushOutcome (h : heap) (l : loc) (x : fetchOutcome) : heap :=
  writeOutcomes h l (default [] (outcomes h !! l) ++ [x]).

Definition pushLine (h : heap) (l : loc) (x : logLine FetchOpts) : heap :=
  writeLines h l (default [] (lines h !! l) ++ [x]).

(** [a.shift()]: removes and returns the first element, in place. *)
Definition shift (h : heap) (l : loc) : option jsstring * heap :=
  match readStrings h l with
  | [] => (None, h)
  | x :: rest => (Some x, writeStrings h l rest)
  end.

(** The array literal [[]]: a new, empty array. *)
Definition newStrings (h : heap) : loc * heap :=
  let l := fresh (dom (strings h)) in (l, writeStrings h l []).

Definition newOutcomes (h : heap) : loc * heap :=
  let l := fresh (dom (outcomes h)) in (l, writeOutcomes h l []).

Definition newLines (h : heap) : loc * heap :=
  let l := fresh (dom (lines h)) in (l, writeLines h l []).

(** The three failure branches share their tail: log, record the portal and
    what it answered, go on. *)
Definition recordFailure (pfm : Midstate.t FetchOpts) (h : heap)
  (newLog : logLine FetchOpts) (portal : jsstring) (failed : fetchOutcome) : heap :=
  let h := pushLine h (Midstate.logs pfm) newLog in
  let h := pushString h (Midstate.portalsFailed pfm) portal in
  pushOutcome h (Midstate.responsesFailed pfm) failed.

(** [progressiveFetchHelper]; the value passed to [resolve] is returned.
    Every call takes one portal off [remainingPortals]; [fuel] bounds the
    number of calls.  The test [remainingPortals.length === 0] and the
    [shift()] that follows it are one step: [shift] gives [None] exactly on
    the empty array. *)
Fixpoint progressiveFetchHelper (fuel : nat) (pfm : Midstate.t FetchOpts)
  (w : World) (h : heap) : option (Result.t * World * heap) :=
  match fuel with
  | O => None
  | S fuel =>
      match shift h (Midstate.remainingPortals pfm) with
      | (None, h) =>
          (* If we run out of portals, return an error. *)
          let newLog := LogAllTried pfm in
          let h := pushLine h (Midstate.logs pfm) newLog in
          Some ({| Result.success := false;
                   Result.portal := None;
                   Result.response := None;
                   Result.portalsFailed := Midstate.portalsFailed pfm;
                   Result.responsesFailed := Midstate.responsesFailed pfm;
                   Result.remainingPortals := None;
                   Result.logs := Midstate.logs pfm |}, w, h)
      | (Some portal, h) =>
          let query := lit "https://" ++ portal ++ Midstate.endpoint pfm in
          match fetch w query (Midstate.fetchOpts pfm) with
          | (Resolved response, w) =>
              match status response with
              | None =>
                  let newLog := LogInvalidResponse portal query response in
                  let h := recordFailure pfm h newLog portal (Resolved response) in
                  progressiveFetchHelper fuel pfm w h
              | Some st =>
                  if decide (st < 200 \/ 300 <= st) then
                    let newLog := LogErrorStatus portal query response in
                    let h := recordFailure pfm h newLog portal (Resolved response) in
                    progressiveFetchHelper fuel pfm w h
                  else
                    (* Success! Return the response. *)
                    Some ({| Result.success := true;
                             Result.portal := Some portal;
                             Result.response := Some response;
                             Result.portalsFailed := Midstate.portalsFailed pfm;
                             Result.responsesFailed := Midstate.responsesFailed pfm;
                             Result.remainingPortals := Some (Midstate.remainingPortals pfm);
                             Result.logs := Midstate.logs pfm |}, w, h)
              end
          | (Rejected err, w) =>
              (* This portal failed, try again with the next portal. *)
              let newLog := LogFetchError err in
              let h := recordFailure pfm h newLog portal (Rejected err) in
              progressiveFetchHelper fuel pfm w h
          end
      end
  end.

(** [progressiveFetch]: [portals] is the caller's array, and
    [remainingPortals] is that same array. *)
Definition progressiveFetch (endpoint : jsstring) (fetchOpts : FetchOpts) (portals : loc)
  (w : World) (h : heap) : option (Result.t * World * heap) :=
  let '(portalsFailed, h) := newStrings h in
  let '(responsesFailed, h) := newOutcomes h in
  let '(logs, h) := newLines h in
  let pfm := {| Midstate.endpoint := endpoint;
                Midstate.fetchOpts := fetchOpts;
                Midstate.remainingPortals := portals;
                Midstate.portalsFailed := portalsFailed;
                Midstate.responsesFailed := responsesFailed;
                Midstate.logs := logs |} in
  progressiveFetchHelper (S (length (readStrings h portals))) pfm w h.

(** *** The protocol in the words of the specification *)

(** The query sent to a portal. *)
Definition queryOf (endpoint portal : jsstring) : jsstring :=
  lit "https://" ++ portal ++ endpoint.

(** The response a portal is accepted with: one with a numeric status in
    the 2xx range. *)
Definition accepted (o : fetchOutcome) : option Response :=
  match o with
  | Resolved r =>
      match status r with
      | Some st => if decide (200 <= st < 300) then Some r else None
      | None => None
      end
  | Rejected _ => None
  end.

(** The log line of a failed attempt. *)
Definition failureLog (portal query : jsstring) (o : fetchOutcome) : logLine FetchOpts :=
  match o with
  | Resolved r =>
      match status r with
      | None => LogInvalidResponse portal query r
      | Some _ => LogErrorStatus portal query r
      end
  | Rejected err => LogFetchError err
  end.

(** Fetching from the portals one after the other, in the order given:
    the outcomes, and the world afterwards. *)
Fixpoint fetchInOrder (endpoint : jsstring) (fetchOpts : FetchOpts) (w : World)
  (portals : list jsstring) : list fetchOutcome * World :=
  match portals with
  | [] => ([], w)
  | portal :: rest =>
      let '(o, w) := fetch w (queryOf endpoint portal) fetchOpts in
      let '(os, w) := fetchInOrder endpoint fetchOpts w rest in
      (o :: os, w)
  end.

(** The trail of a fetch operation, [TryHost(i)] by [TryHost(i)]: the failed
    portals with what they answered and the log, the accepted portal if any,
    and the portals not tried. *)
Record trail := {
  failedPortals : list jsstring;
  failedOutcomes : list fetchOutcome;
  logLines : list (logLine FetchOpts);
  winner : option (jsstring * Response);
  untried : list jsstring;
  worldAfter : World
}.

Fixpoint tryInOrder (endpoint : jsstring) (fetchOpts : FetchOpts) (w : World)
  (portals : list jsstring) : trail :=
  match portals with
  | [] =>
      {| failedPortals := []; failedOutcomes := []; logLines := [];
         winner := None; untried := []; worldAfter := w |}
  | portal :: rest =>
      let '(o, w) := fetch w (queryOf endpoint portal) fetchOpts in
      match accepted o with
      | Some r =>
          {| failedPortals := []; failedOutcomes := []; logLines := [];
             winner := Some (portal, r); untried := rest; worldAfter := w |}
      | None =>
          let t := tryInOrder endpoint fetchOpts w rest in
          {| failedPortals := portal :: failedPortals t;
             failedOutcomes := o :: failedOutcomes t;
             logLines := failureLog portal (queryOf endpoint portal) o :: logLines t;
             winner := winner t; untried := untried t; worldAfter := worldAfter t |}
      end
  end.

(** *** One step of the helper *)

Lemma accepted_inv (o : fetchOutcome) (r : Response) :
  accepted o = Some r ->
  o = Resolved r /\ exists st, status r = Some st /\ 200 <= st < 300.
Proof.
  destruct o as [r'|err]; cbn [accepted]; [|discriminate].
  destruct (status r') as [st|] eqn:Est; [|discriminate].
  destruct (decide (200 <= st < 300)) as [Hst|?]; [|discriminate].
  intros [= <-]. split; [reflexivity|]. by exists st.
Qed.

Lemma helper_step_accepted (fuel : nat) (pfm : Midstate.t FetchOpts) (w w' : World)
  (h : heap) (portal : jsstring) (rest : list jsstring) (o : fetchOutcome) (r : Response) :
  strings h !! Midstate.remainingPortals pfm = Some (portal :: rest) ->
  fetch w (queryOf (Midstate.endpoint pfm) portal) (Midstate.fetchOpts pfm) = (o, w') ->
  accepted o = Some r ->
  progressiveFetchHelper (S fuel) pfm w h
  = Some ({| Result.success := true;
             Result.portal := Some portal;
             Result.response := Some r;
             Result.portalsFailed := Midstate.portalsFailed pfm;
             Result.responsesFailed := Midstate.responsesFailed pfm;
             Result.remainingPortals := Some (Midstate.remainingPortals pfm);
             Result.logs := Midstate.logs pfm |},
          w', writeStrings h (Midstate.remainingPortals pfm) rest).
Proof.
  intros Hrp Hf Ha. apply accepted_inv in Ha as (-> & st & Hst & Hrange).
  cbn [progressiveFetchHelper]. unfold shift, readStrings. rewrite Hrp. cbn [default from_option id].
  unfold queryOf in Hf. rewrite Hf, Hst.
  destruct (decide (st < 200 \/ 300 <= st)) as [?|_]; [lia | reflexivity].
Qed.

Lemma helper_step_failed (fuel : nat) (pfm : Midstate.t FetchOpts) (w w' : World)
  (h : heap) (portal : jsstring) (rest : list jsstring) (o : fetchOutcome) :
  strings h !! Midstate.remainingPortals pfm = Some (portal :: rest) ->
  fetch w (queryOf (Midstate.endpoint pfm) portal) (Midstate.fetchOpts pfm) = (o, w') ->
  accepted o = None ->
  progressiveFetchHelper (S fuel) pfm w h
  = progressiveFetchHelper fuel pfm w'
      (recordFailure pfm (writeStrings h (Midstate.remainingPortals pfm) rest)
         (failureLog portal (queryOf (Midstate.endpoint pfm) portal) o) portal o).
Proof.
  intros Hrp Hf Ha.
  cbn [progressiveFetchHelper]. unfold shift, readStrings. rewrite Hrp. cbn [default from_option id].
  unfold queryOf in *. rewrite Hf.
  destruct o as [r|err]; cbn [accepted failureLog] in *; [|reflexivity].
  destruct (status r) as [st|]; [|reflexivity].
  destruct (decide (200 <= st < 300)) as [?|Hst]; [discriminate|].
  destruct (decide (st < 200 \/ 300 <= st)) as [_|?]; [reflexivity | lia].
Qed.

Lemma helper_step_exhausted (fuel : nat) (pfm : Midstate.t FetchOpts) (w : World) (h : heap) :
  strings h !! Midstate.remainingPortals pfm = Some [] ->
  progressiveFetchHelper (S fuel) pfm w h
  = Some ({| Result.success := false;
             Result.portal := None;
             Result.response := None;
             Result.portalsFailed := Midstate.portalsFailed pfm;
             Result.responsesFailed := Midstate.responsesFailed pfm;
             Result.remainingPortals := None;
             Result.logs := Midstate.logs pfm |},
          w, pushLine h (Midstate.logs pfm) (LogAllTried pfm)).
Proof.
  intros Hrp. cbn [progressiveFetchHelper]. unfold shift, readStrings. by rewrite Hrp.
Qed.

(** *** The whole run *)

(** What the result and the memory look like after a run with trail [t],
    started with [accP], [accO] and [accL] already recorded. *)
Definition resultOf (pfm : Midstate.t FetchOpts) (t : trail) : Result.t :=
  {| Result.success := bool_decide (is_Some (winner t));
     Result.portal := fst <$> winner t;
     Result.response := snd <$> winner t;
     Result.portalsFailed := Midstate.portalsFailed pfm;
     Result.responsesFailed := Midstate.responsesFailed pfm;
     Result.remainingPortals :=
       match winner t with
       | Some _ => Some (Midstate.remainingPortals pfm)
       | None => None
       end;
     Result.logs := Midstate.logs pfm |}.

Definition lastLog (pfm : Midstate.t FetchOpts) (t : trail) : list (logLine FetchOpts) :=
  match winner t with
  | Some _ => []
  | None => [LogAllTried pfm]
  end.

Record after (pfm : Midstate.t FetchOpts) (t : trail) (h h' : heap)
  (accP : list jsstring) (accO : list fetchOutcome) (accL : list (logLine FetchOpts))
  : Prop := {
  after_remaining : strings h' !! Midstate.remainingPortals pfm = Some (untried t);
  after_failed :
    strings h' !! Midstate.portalsFailed pfm = Some (accP ++ failedPortals t);
  after_outcomes :
    outcomes h' !! Midstate.responsesFailed pfm = Some (accO ++ failedOutcomes t);
  after_logs :
    lines h' !! Midstate.logs pfm = Some (accL ++ logLines t ++ lastLog pfm t);
  after_strings_frame :
    forall l, l <> Midstate.remainingPortals pfm -> l <> Midstate.portalsFailed pfm ->
              strings h' !! l = strings h !! l;
  after_outcomes_frame :
    forall l, l <> Midstate.responsesFailed pfm -> outcomes h' !! l = outcomes h !! l;
  after_lines_frame :
    forall l, l <> Midstate.logs pfm -> lines h' !! l = lines h !! l
}.

Lemma helper_run (pfm : Midstate.t FetchOpts) (portals : list jsstring) :
  Midstate.remainingPortals pfm <> Midstate.portalsFailed pfm ->
  forall (fuel : nat) (w : World) (h : heap)
         (accP : list jsstring) (accO : list fetchOutcome)
         (accL : list (logLine FetchOpts)),
    (length portals < fuel)%nat ->
    strings h !! Midstate.remainingPortals pfm = Some portals ->
    strings h !! Midstate.portalsFailed pfm = Some accP ->
    outcomes h !! Midstate.responsesFailed pfm = Some accO ->
    lines h !! Midstate.logs pfm = Some accL ->
    let t := tryInOrder (Midstate.endpoint pfm) (Midstate.fetchOpts pfm) w portals in
    exists h',
      progressiveFetchHelper fuel pfm w h = Some (resultOf pfm t, worldAfter t, h') /\
      after pfm t h h' accP accO accL.
Proof.
  intros Hne. induction portals as [|portal rest IH];
    intros fuel w h accP accO accL Hfuel Hrp Hpf Hrf Hlg.
  - destruct fuel as [|fuel]; [cbn in Hfuel; lia|].
    cbn [tryInOrder]. eexists. split; [by apply helper_step_exhausted|].
    split; cbn; try done.
    + by rewrite app_nil_r.
    + by rewrite app_nil_r.
    + unfold pushLine. cbn. rewrite Hlg. cbn. by rewrite lookup_insert_eq.
    + intros l Hl. by rewrite lookup_insert_ne.
  - destruct fuel as [|fuel]; [cbn in Hfuel; lia|].
    cbn [tryInOrder].
    destruct (fetch w (queryOf (Midstate.endpoint pfm) portal) (Midstate.fetchOpts pfm))
      as [o w'] eqn:Hf.
    destruct (accepted o) as [r|] eqn:Ha.
    + eexists. split; [by eapply helper_step_accepted|].
      split; cbn; try done.
      * by rewrite lookup_insert_eq.
      * rewrite lookup_insert_ne by done. by rewrite app_nil_r.
      * by rewrite app_nil_r.
      * by rewrite app_nil_r.
      * intros l Hl _. by rewrite lookup_insert_ne.
    + rewrite (helper_step_failed _ _ _ _ _ _ _ _ Hrp Hf Ha).
      set (h1 := recordFailure pfm _ _ _ _).
      destruct (IH fuel w' h1 (accP ++ [portal]) (accO ++ [o])
                  (accL ++ [failureLog portal (queryOf (Midstate.endpoint pfm) portal) o]))
        as (h' & Hrun & Hafter).
      * cbn in Hfuel. lia.
      * subst h1. cbn. rewrite lookup_insert_ne by done. by rewrite lookup_insert_eq.
      * subst h1. cbn. rewrite lookup_insert_eq. unfold readStrings. cbn.
        rewrite lookup_insert_ne by done. by rewrite Hpf.
      * subst h1. cbn. rewrite Hrf. cbn. by rewrite lookup_insert_eq.
      * subst h1. cbn. rewrite Hlg. cbn. by rewrite lookup_insert_eq.
      * exists h'. split; [exact Hrun|].
        destruct Hafter as [H1 H2 H3 H4 H5 H6 H7].
        split; cbn.
        -- exact H1.
        -- by rewrite H2, <- app_assoc.
        -- by rewrite H3, <- app_assoc.
        -- rewrite H4, <- app_assoc. reflexivity.
        -- intros l Hl1 Hl2. rewrite H5 by done. subst h1. cbn.
           rewrite lookup_insert_ne by done. by rewrite lookup_insert_ne.
        -- intros l Hl. rewrite H6 by done. subst h1. cbn.
           by rewrite lookup_insert_ne.
        -- intros l Hl. rewrite H7 by done. subst h1. cbn.
           by rewrite lookup_insert_ne.
Qed.

(** *** [progressiveFetch] follows the trail *)

Lemma progressiveFetch_run (endpoint : jsstring) (fetchOpts : FetchOpts) (portals : loc)
  (w : World) (h : heap) (hosts : list jsstring) :
  strings h !! portals = Some hosts ->
  let t := tryInOrder endpoint fetchOpts w hosts in
  exists (pfm : Midstate.t FetchOpts) (h' : heap),
    progressiveFetch endpoint fetchOpts portals w h
    = Some (resultOf pfm t, worldAfter t, h') /\
    Midstate.remainingPortals pfm = portals /\
    Midstate.endpoint pfm = endpoint /\
    Midstate.portalsFailed pfm <> portals /\
    strings h' !! portals = Some (untried t) /\
    strings h' !! Midstate.portalsFailed pfm = Some (failedPortals t) /\
    outcomes h' !! Midstate.responsesFailed pfm = Some (failedOutcomes t) /\
    lines h' !! Midstate.logs pfm = Some (logLines t ++ lastLog pfm t).
Proof.
  intros Hp t. unfold progressiveFetch, newStrings, newOutcomes, newLines.
  set (pf := fresh (dom (strings h))).
  set (h1 := writeStrings h pf []).
  set (rf := fresh (dom (outcomes h1))).
  set (h2 := writeOutcomes h1 rf []).
  set (lg := fresh (dom (lines h2))).
  set (h3 := writeLines h2 lg []).
  set (pfm := {| Midstate.endpoint := endpoint; Midstate.fetchOpts := fetchOpts;
                 Midstate.portalsFailed := pf; Midstate.responsesFailed := rf;
                 Midstate.remainingPortals := portals; Midstate.logs := lg |}).
  assert (Hne : pf <> portals).
  { intros Heq. apply (is_fresh (dom (strings h))). fold pf. rewrite Heq.
    apply elem_of_dom. by eexists. }
  assert (Hp3 : strings h3 !! portals = Some hosts).
  { subst h3 h2 h1. cbn. by rewrite lookup_insert_ne. }
  destruct (helper_run pfm hosts (not_eq_sym Hne)
              (S (length (readStrings h3 portals))) w h3 [] [] [])
    as (h' & Hrun & [H1 H2 H3 H4 _ _ _]).
  - unfold readStrings. rewrite Hp3. cbn. lia.
  - exact Hp3.
  - subst h3 h2 h1. cbn. by rewrite lookup_insert_eq.
  - subst h3 h2. cbn. by rewrite lookup_insert_eq.
  - subst h3. cbn. by rewrite lookup_insert_eq.
  - exists pfm, h'. split; [exact Hrun|]. by repeat split.
Qed.

(** Enough fuel: [progressiveFetch] always resolves. *)
Lemma progressiveFetch_resolves (endpoint : jsstring) (fetchOpts : FetchOpts)
  (portals : loc) (w : World) (h : heap) (hosts : list jsstring) :
  strings h !! portals = Some hosts ->
  is_Some (progressiveFetch endpoint fetchOpts portals w h).
Proof.
  intros Hp. destruct (progressiveFetch_run endpoint fetchOpts portals w h hosts Hp)
    as (pfm & h' & -> & _). by eexists.
Qed.

(** *** Facts about trails *)

(** The log lines of the failed portals. *)
Definition failureLogs (endpoint : jsstring) (portals : list jsstring)
  (os : list fetchOutcome) : list (logLine FetchOpts) :=
  zip_with (fun portal o => failureLog portal (queryOf endpoint portal) o) portals os.

Lemma tryInOrder_winner (endpoint : jsstring) (fetchOpts : FetchOpts) (w : World)
  (portals : list jsstring) (portal : jsstring) (r : Response) :
  winner (tryInOrder endpoint fetchOpts w portals) = Some (portal, r) ->
  In portal portals /\ exists st, status r = Some st /\ 200 <= st < 300.
Proof.
  revert w. induction portals as [|p rest IH]; intros w; cbn [tryInOrder].
  - discriminate.
  - destruct (fetch w (queryOf endpoint p) fetchOpts) as [o w'].
    destruct (accepted o) as [r'|] eqn:Ha; cbn [winner].
    + intros [= <- <-]. apply accepted_inv in Ha as (_ & Hst). split; [by left | exact Hst].
    + intros Hw. destruct (IH _ Hw) as [Hin Hst]. split; [by right | exact Hst].
Qed.

Lemma tryInOrder_untried (endpoint : jsstring) (fetchOpts : FetchOpts) (w : World)
  (portals : list jsstring) :
  portals <> [] ->
  (length (untried (tryInOrder endpoint fetchOpts w portals)) < length portals)%nat.
Proof.
  revert w. induction portals as [|p rest IH]; intros w Hne; [done|].
  cbn [tryInOrder].
  destruct (fetch w (queryOf endpoint p) fetchOpts) as [o w'].
  destruct (accepted o) as [r'|]; cbn [untried length]; [lia|].
  destruct rest as [|p' rest']; [cbn; lia|].
  specialize (IH w'). cbn [length] in IH. cbn [length].
  etrans; [apply IH; done | lia].
Qed.

Lemma tryInOrder_first_accepted (endpoint : jsstring) (fetchOpts : FetchOpts)
  (failed rest : list jsstring) (portal : jsstring) (os : list fetchOutcome)
  (o : fetchOutcome) (r : Response) (w w1 w2 : World) :
  fetchInOrder endpoint fetchOpts w failed = (os, w1) ->
  Forall (fun o => accepted o = None) os ->
  fetch w1 (queryOf endpoint portal) fetchOpts = (o, w2) ->
  accepted o = Some r ->
  tryInOrder endpoint fetchOpts w (failed ++ portal :: rest)
  = {| failedPortals := failed; failedOutcomes := os;
       logLines := failureLogs endpoint failed os;
       winner := Some (portal, r); untried := rest; worldAfter := w2 |}.
Proof.
  revert w os. induction failed as [|p failed IH]; intros w os Hfo Hall Hf Ha.
  - cbn in Hfo. injection Hfo as <- <-. cbn [app tryInOrder]. by rewrite Hf, Ha.
  - cbn [fetchInOrder] in Hfo. cbn [app tryInOrder].
    destruct (fetch w (queryOf endpoint p) fetchOpts) as [o' w'].
    destruct (fetchInOrder endpoint fetchOpts w' failed) as [os' w''] eqn:Hfo'.
    injection Hfo as <- <-. apply Forall_cons in Hall as [Ho' Hall].
    rewrite Ho'. by rewrite (IH w' os' Hfo' Hall Hf Ha).
Qed.

Lemma tryInOrder_all_failed (endpoint : jsstring) (fetchOpts : FetchOpts)
  (portals : list jsstring) (os : list fetchOutcome) (w w1 : World) :
  fetchInOrder endpoint fetchOpts w portals = (os, w1) ->
  Forall (fun o => accepted o = None) os ->
  tryInOrder endpoint fetchOpts w portals
  = {| failedPortals := portals; failedOutcomes := os;
       logLines := failureLogs endpoint portals os;
       winner := None; untried := []; worldAfter := w1 |}.
Proof.
  revert w os. induction portals as [|p portals IH]; intros w os Hfo Hall.
  - cbn in Hfo. by injection Hfo as <- <-.
  - cbn [fetchInOrder] in Hfo. cbn [tryInOrder].
    destruct (fetch w (queryOf endpoint p) fetchOpts) as [o' w'].
    destruct (fetchInOrder endpoint fetchOpts w' portals) as [os' w''] eqn:Hfo'.
    injection Hfo as <- <-. apply Forall_cons in Hall as [Ho' Hall].
    rewrite Ho'. by rewrite (IH w' os' Hfo' Hall).
Qed.

(** A failed attempt, in the words of the specification: a transport
    error, a response without a numeric status, or a status outside 2xx. *)
Definition failedAttempt (o : fetchOutcome) : Prop :=
  match o with
  | Rejected _ => True
  | Resolved r =>
      match status r with
      | None => True
      | Some st => st < 200 \/ 300 <= st
      end
  end.

Lemma failedAttempt_accepted (o : fetchOutcome) :
  failedAttempt o <-> accepted o = None.
Proof.
  destruct o as [r|err]; cbn [failedAttempt accepted]; [|done].
  destruct (status r) as [st|]; [|done].
  destruct (decide (200 <= st < 300)); split; (done || lia).
Qed.

Lemma accepted_2xx (r : Response) (st : Z) :
  status r = Some st -> 200 <= st < 300 -> accepted (Resolved r) = Some r.
Proof.
  intros Hst Hr. cbn [accepted]. rewrite Hst.
  destruct (decide (200 <= st < 300)); done.
Qed.

(** The accepted portal of a trail is the first whose answer is accepted:
    the portals before it were fetched in order and failed, and its response
    is what [fetch] gave for it then. *)
Lemma tryInOrder_winner_fetched (endpoint : jsstring) (fetchOpts : FetchOpts) (w : World)
  (portals : list jsstring) (portal : jsstring) (r : Response) :
  winner (tryInOrder endpoint fetchOpts w portals) = Some (portal, r) ->
  exists (failed rest : list jsstring) (os : list fetchOutcome) (w1 : World),
    portals = failed ++ portal :: rest /\
    fetchInOrder endpoint fetchOpts w failed = (os, w1) /\
    Forall failedAttempt os /\
    fetch w1 (queryOf endpoint portal) fetchOpts
    = (Resolved r, worldAfter (tryInOrder endpoint fetchOpts w portals)).
Proof.
  revert w. induction portals as [|p rest IH]; intros w; cbn [tryInOrder].
  - discriminate.
  - destruct (fetch w (queryOf endpoint p) fetchOpts) as [o w'] eqn:Hf.
    destruct (accepted o) as [r'|] eqn:Ha; cbn [winner worldAfter].
    + intros [= <- <-]. apply accepted_inv in Ha as [-> _].
      exists [], rest, [], w. split; [reflexivity|]. split; [reflexivity|].
      split; [apply Forall_nil_2 | exact Hf].
    + intros Hw. destruct (IH _ Hw) as (failed & rest' & os & w1 & -> & Hfo & Hall & Hfw).
      exists (p :: failed), rest', (o :: os), w1. split; [reflexivity|].
      split; [cbn [fetchInOrder]; by rewrite Hf, Hfo|].
      split; [|exact Hfw]. apply Forall_cons. split; [|exact Hall].
      by apply failedAttempt_accepted.
Qed.

(** *** The claims *)

(** C1 (as the code has it): [progressiveFetch] takes no verification
    function.  It resolves with [success = true] only with the response that
    [fetch] gave for one of the supplied portals: the first portal in the
    list whose answer has a numeric status in the 2xx range, every portal
    before it having been fetched and having failed.  And a 2xx status is
    all it asks for: the first portal that answers with one, after the
    failures of the portals before it, gives the successful result, with
    that portal and that response. *)
Theorem success_is_a_2xx_status (endpoint : jsstring) (fetchOpts : FetchOpts)
  (portals : loc) (w w' : World) (h h' : heap) (hosts : list jsstring) (res : Result.t) :
  strings h !! portals = Some hosts ->
  progressiveFetch endpoint fetchOpts portals w h = Some (res, w', h') ->
  (Result.success res = true ->
   exists (failed : list jsstring) (portal : jsstring) (rest : list jsstring)
          (os : list fetchOutcome) (r : Response) (st : Z) (w1 : World),
     hosts = failed ++ portal :: rest /\
     fetchInOrder endpoint fetchOpts w failed = (os, w1) /\
     Forall failedAttempt os /\
     fetch w1 (queryOf endpoint portal) fetchOpts = (Resolved r, w') /\
     status r = Some st /\ 200 <= st < 300 /\
     Result.portal res = Some portal /\
     Result.response res = Some r)
  /\
  (forall (failed : list jsstring) (portal : jsstring) (rest : list jsstring)
          (os : list fetchOutcome) (r : Response) (st : Z) (w1 w2 : World),
      hosts = failed ++ portal :: rest ->
      fetchInOrder endpoint fetchOpts w failed = (os, w1) ->
      Forall failedAttempt os ->
      fetch w1 (queryOf endpoint portal) fetchOpts = (Resolved r, w2) ->
      status r = Some st -> 200 <= st < 300 ->
      Result.success res = true /\
      Result.portal res = Some portal /\
      Result.response res = Some r).
Proof.
  intros Hp Hrun.
  destruct (progressiveFetch_run endpoint fetchOpts portals w h hosts Hp)
    as (pfm & h'' & Hrun' & _).
  rewrite Hrun in Hrun'. injection Hrun' as -> Hw' _. split.
  - unfold resultOf. cbn.
    destruct (winner (tryInOrder endpoint fetchOpts w hosts)) as [[portal r]|] eqn:Hw.
    + intros _.
      destruct (tryInOrder_winner_fetched _ _ _ _ _ _ Hw)
        as (failed & rest & os & w1 & Hhosts & Hfo & Hall & Hf).
      apply tryInOrder_winner in Hw as (_ & st & Hst & Hrange).
      exists failed, portal, rest, os, r, st, w1. rewrite Hw'.
      split; [exact Hhosts|]. split; [exact Hfo|]. split; [exact Hall|].
      split; [exact Hf|]. split; [exact Hst|]. split; [exact Hrange|].
      split; reflexivity.
    + intros Hs. apply bool_decide_eq_true in Hs. by destruct Hs.
  - intros failed portal rest os r st w1 w2 -> Hfo Hall Hf Hst Hrange.
    assert (Hall' : Forall (fun o => accepted o = None) os).
    { eapply Forall_impl; [exact Hall|]. intros o. apply failedAttempt_accepted. }
    rewrite (tryInOrder_first_accepted endpoint fetchOpts failed rest portal os
               (Resolved r) r w w1 w2 Hfo Hall' Hf (accepted_2xx r st Hst Hrange)).
    unfold resultOf. cbn. by repeat split.
Qed.

(** C4 (as the code has it): the portals are tried in the order supplied.
    Each portal that fails (a transport error, a response without a numeric
    status, or a status outside 2xx) is appended to [portalsFailed], and what
    it answered to [responsesFailed], before the next one is tried.  The
    first portal with a 2xx status resolves the operation with
    [success = true], that portal and response, the failures so far, and
    [remainingPortals] holding the portals not tried.  When every portal
    fails the result has [success = false], all portals in the failed lists
    and the log, [portal], [response] and [remainingPortals] all [null]; no
    portal is left in the caller's array. *)
Theorem progressiveFetch_in_order (endpoint : jsstring) (fetchOpts : FetchOpts)
  (portals : loc) (w : World) (h : heap) (hosts : list jsstring) :
  strings h !! portals = Some hosts ->
  (forall (failed : list jsstring) (portal : jsstring) (rest : list jsstring)
          (os : list fetchOutcome) (r : Response) (st : Z) (w1 w2 : World),
      hosts = failed ++ portal :: rest ->
      fetchInOrder endpoint fetchOpts w failed = (os, w1) ->
      Forall failedAttempt os ->
      fetch w1 (queryOf endpoint portal) fetchOpts = (Resolved r, w2) ->
      status r = Some st -> 200 <= st < 300 ->
      exists (res : Result.t) (h' : heap),
        progressiveFetch endpoint fetchOpts portals w h = Some (res, w2, h') /\
        Result.success res = true /\
        Result.portal res = Some portal /\
        Result.response res = Some r /\
        strings h' !! Result.portalsFailed res = Some failed /\
        outcomes h' !! Result.responsesFailed res = Some os /\
        lines h' !! Result.logs res = Some (failureLogs endpoint failed os) /\
        Result.remainingPortals res = Some portals /\
        strings h' !! portals = Some rest)
  /\
  (forall (os : list fetchOutcome) (w1 : World),
      fetchInOrder endpoint fetchOpts w hosts = (os, w1) ->
      Forall failedAttempt os ->
      exists (res : Result.t) (h' : heap) (pfm : Midstate.t FetchOpts),
        progressiveFetch endpoint fetchOpts portals w h = Some (res, w1, h') /\
        Result.success res = false /\
        Result.portal res = None /\
        Result.response res = None /\
        strings h' !! Result.portalsFailed res = Some hosts /\
        outcomes h' !! Result.responsesFailed res = Some os /\
        lines h' !! Result.logs res
        = Some (failureLogs endpoint hosts os ++ [LogAllTried pfm]) /\
        Result.remainingPortals res = None /\
        strings h' !! portals = Some []).
Proof.
  intros Hp.
  destruct (progressiveFetch_run endpoint fetchOpts portals w h hosts Hp)
    as (pfm & h' & Hrun & Hrp & _ & _ & H1 & H2 & H3 & H4).
  split.
  - intros failed portal rest os r st w1 w2 -> Hfo Hall Hf Hst Hrange.
    assert (Hall' : Forall (fun o => accepted o = None) os).
    { eapply Forall_impl; [exact Hall|]. intros o. apply failedAttempt_accepted. }
    rewrite (tryInOrder_first_accepted endpoint fetchOpts failed rest portal os
               (Resolved r) r w w1 w2 Hfo Hall' Hf (accepted_2xx r st Hst Hrange)) in *.
    cbn in *. exists (resultOf pfm
                        {| failedPortals := failed; failedOutcomes := os;
                           logLines := failureLogs endpoint failed os;
                           winner := Some (portal, r); untried := rest;
                           worldAfter := w2 |}), h'.
    split; [exact Hrun|]. cbn. rewrite Hrp.
    rewrite app_nil_r in H4. by repeat split.
  - intros os w1 Hfo Hall.
    assert (Hall' : Forall (fun o => accepted o = None) os).
    { eapply Forall_impl; [exact Hall|]. intros o. apply failedAttempt_accepted. }
    rewrite (tryInOrder_all_failed endpoint fetchOpts hosts os w w1 Hfo Hall') in *.
    cbn in *. exists (resultOf pfm
                        {| failedPortals := hosts; failedOutcomes := os;
                           logLines := failureLogs endpoint hosts os;
                           winner := None; untried := []; worldAfter := w1 |}), h', pfm.
    split; [exact Hrun|]. cbn.
    by repeat split.
Qed.

(** C9 (the code departs from it): the host list is said to be read-only.
    [remainingPortals] is the caller's array itself and [shift()] removes the
    portals tried from it: after the promise settles the caller's array holds
    only the portals not tried, so for a non-empty list it is never what it
    was before the call. *)
Theorem progressiveFetch_consumes_portals (endpoint : jsstring) (fetchOpts : FetchOpts)
  (portals : loc) (w w' : World) (h h' : heap) (hosts : list jsstring) (res : Result.t) :
  strings h !! portals = Some hosts ->
  hosts <> [] ->
  progressiveFetch endpoint fetchOpts portals w h = Some (res, w', h') ->
  strings h' !! portals = Some (untried (tryInOrder endpoint fetchOpts w hosts)) /\
  strings h' !! portals <> Some hosts.
Proof.
  intros Hp Hne Hrun.
  destruct (progressiveFetch_run endpoint fetchOpts portals w h hosts Hp)
    as (pfm & h'' & Hrun' & _ & _ & _ & H1 & _).
  rewrite Hrun in Hrun'. injection Hrun' as -> _ <-.
  split; [exact H1|]. rewrite H1. intros [= Heq].
  pose proof (tryInOrder_untried endpoint fetchOpts w hosts Hne) as Hlt.
  rewrite Heq in Hlt. lia.
Qed.

End Fetch.

End ProgressiveFetch.

(** ** Progressive fetch on concrete portals *)

Module FetchExamples.
Import ProgressiveFetch.

Local Open Scope Z_scope.

Definition H1 : jsstring := lit "h1.example".
Definition H2 : jsstring := lit "h2.example".
Definition H3 : jsstring := lit "h3.example".

Definition payload : Response := {| status := Some 200; body := lit "payload" |}.
Definition serverError : Response := {| status := Some 500; body := lit "" |}.
Definition refused : jsstring := lit "connection refused".

(** A network in which H1 refuses the connection, H2 answers 500 and every
    other portal answers 200. *)
Definition modelFetch (w : unit) (query : jsstring) (fetchOpts : unit)
  : fetchOutcome * unit :=
  if decide (query = lit "https://h1.example/x") then (Rejected refused, w)
  else if decide (query = lit "https://h2.example/x") then (Resolved serverError, w)
  else (Resolved payload, w).

(** A memory holding only the caller's array, at location 1. *)
Definition callerHeap (hosts : list jsstring) : heap unit :=
  {| strings := {[ 1%positive := hosts ]}; outcomes := ∅; lines := ∅ |}.

Lemma callerHeap_lookup (hosts : list jsstring) :
  strings unit (callerHeap hosts) !! 1%positive = Some hosts.
Proof. apply lookup_singleton_eq. Qed.

(** Counterexample to C1 as stated: with a verification function that rejects every
    response and the single portal H3, which answers 200,
    [progressiveFetch] resolves with [success = true]. *)
Lemma success_without_verification :
  ~ (forall (verify : Response -> bool) (res : Result.t) (w' : unit) (h' : heap unit),
        progressiveFetch unit unit modelFetch (lit "/x") tt 1%positive tt (callerHeap [H3])
        = Some (res, w', h') ->
        Result.success res = true ->
        exists r, Result.response res = Some r /\ verify r = true).
Proof.
  intros Hclaim.
  destruct (progressiveFetch_run unit unit modelFetch (lit "/x") tt 1%positive tt
              (callerHeap [H3]) [H3] (callerHeap_lookup _))
    as (pfm & h' & Hrun & _).
  destruct (Hclaim (fun _ => false) _ _ _ Hrun eq_refl) as (r & _ & Hv).
  discriminate Hv.
Qed.

(** A witness of C1, at the portals H1, H3: H1 refuses the connection, and the result
    is the response H3 gave, status 200. *)
Lemma success_is_a_2xx_status_witness :
  exists (res : Result.t) (h' : heap unit),
    progressiveFetch unit unit modelFetch (lit "/x") tt 1%positive tt (callerHeap [H1; H3])
    = Some (res, tt, h') /\
    Result.success res = true /\
    Result.portal res = Some H3 /\
    Result.response res = Some payload.
Proof.
  assert (Hrun : exists (res : Result.t) (h' : heap unit),
             progressiveFetch unit unit modelFetch (lit "/x") tt 1%positive tt
               (callerHeap [H1; H3]) = Some (res, tt, h'))
    by (eexists _, _; vm_compute; reflexivity).
  destruct Hrun as (res & h' & Hrun). exists res, h'. split; [exact Hrun|].
  apply (proj2 (success_is_a_2xx_status unit unit modelFetch (lit "/x") tt 1%positive
                  tt tt (callerHeap [H1; H3]) h' [H1; H3] res
                  (callerHeap_lookup _) Hrun) [H1] H3 [] [Rejected refused] payload 200 tt tt).
  - reflexivity.
  - reflexivity.
  - apply Forall_cons. split; [exact I | apply Forall_nil_2].
  - reflexivity.
  - reflexivity.
  - lia.
Defined.

(** A witness of C4, at the portals of the specification's example: H1 fails in
    transport, H2 answers 500, H3 answers 200. *)
Lemma progressiveFetch_in_order_witness :
  exists (res : Result.t) (h' : heap unit),
    progressiveFetch unit unit modelFetch (lit "/x") tt 1%positive tt
      (callerHeap [H1; H2; H3])
    = Some (res, tt, h') /\
    Result.success res = true /\
    Result.portal res = Some H3 /\
    Result.response res = Some payload /\
    strings unit h' !! Result.portalsFailed res = Some [H1; H2] /\
    outcomes unit h' !! Result.responsesFailed res
    = Some [Rejected refused; Resolved serverError] /\
    lines unit h' !! Result.logs res
    = Some (failureLogs unit (lit "/x") [H1; H2] [Rejected refused; Resolved serverError]) /\
    Result.remainingPortals res = Some 1%positive /\
    strings unit h' !! 1%positive = Some [].
Proof.
  apply (proj1 (progressiveFetch_in_order unit unit modelFetch (lit "/x") tt 1%positive
                  tt (callerHeap [H1; H2; H3]) [H1; H2; H3] (callerHeap_lookup _))
           [H1; H2] H3 [] [Rejected refused; Resolved serverError] payload 200 tt tt).
  - reflexivity.
  - reflexivity.
  - apply Forall_cons. split; [exact I|].
    apply Forall_cons. split; [right; lia | apply Forall_nil_2].
  - reflexivity.
  - reflexivity.
  - lia.
Defined.

(** Counterexample to C4 as stated: when every portal has failed the result does not
    hold an empty list of remaining portals; [remainingPortals] is [null].
    Here the only portal is H1. *)
Lemma exhausted_remainingPortals_is_null :
  ~ (forall (res : Result.t) (w' : unit) (h' : heap unit),
        progressiveFetch unit unit modelFetch (lit "/x") tt 1%positive tt (callerHeap [H1])
        = Some (res, w', h') ->
        Result.success res = false /\
        exists l, Result.remainingPortals res = Some l /\ strings unit h' !! l = Some []).
Proof.
  intros Hclaim.
  destruct (progressiveFetch_run unit unit modelFetch (lit "/x") tt 1%positive tt
              (callerHeap [H1]) [H1] (callerHeap_lookup _))
    as (pfm & h' & Hrun & _).
  destruct (Hclaim _ _ _ Hrun) as (_ & l & Hl & _).
  discriminate Hl.
Qed.

(** A witness of C9, at the portals H3, H1: H3 is accepted, and the caller's array is
    left holding H1 alone. *)
Lemma progressiveFetch_consumes_portals_witness :
  exists (res : Result.t) (h' : heap unit),
    progressiveFetch unit unit modelFetch (lit "/x") tt 1%positive tt (callerHeap [H3; H1])
    = Some (res, tt, h') /\
    strings unit h' !! 1%positive = Some [H1] /\
    strings unit h' !! 1%positive <> Some [H3; H1].
Proof.
  assert (Hrun : exists (res : Result.t) (h' : heap unit),
             progressiveFetch unit unit modelFetch (lit "/x") tt 1%positive tt
               (callerHeap [H3; H1]) = Some (res, tt, h'))
    by (eexists _, _; vm_compute; reflexivity).
  destruct Hrun as (res & h' & Hrun). exists res, h'. split; [exact Hrun|].
  apply (progressiveFetch_consumes_portals unit unit modelFetch (lit "/x") tt 1%positive
           tt tt (callerHeap [H3; H1]) h' [H3; H1] res (callerHeap_lookup _)).
  - discriminate.
  - exact Hrun.
Defined.

End FetchExamples.

(** * Further properties of the code *)

(** ** Little-endian encodings can be read back *)

Module EncodingFacts.

Local Open Scope Z_scope.

(** The number a little-endian byte string stands for. *)
Fixpoint le_value (b : bytes) : Z :=
  match b with
  | [] => 0
  | x :: rest => Z.of_N (Byte.to_N x) + 256 * le_value rest
  end.

Lemma to_N_byte_of_N (n : N) : Byte.to_N (byte_of_N n) = (n mod 256)%N.
Proof.
  unfold byte_of_N.
  assert (Hlt : (n mod 256 < 256)%N) by (apply N.mod_lt; discriminate).
  destruct (Byte.of_N (n mod 256)) as [b|] eqn:E.
  - cbn [default from_option id]. by apply Byte.to_of_N.
  - apply Byte.of_N_None_iff in E. lia.
Qed.

Lemma le_value_le_bytes (k : nat) (n : Z) :
  0 <= n -> le_value (le_bytes k n) = n mod 2 ^ (8 * Z.of_nat k).
Proof.
  revert n. induction k as [|k IH]; intros n Hn.
  - cbn [le_bytes le_value]. change (8 * Z.of_nat 0) with 0. by rewrite Z.mod_1_r.
  - cbn [le_bytes le_value]. rewrite to_N_byte_of_N.
    rewrite IH by (apply Z.shiftr_nonneg; exact Hn).
    change 255 with (Z.ones 8). rewrite Z.land_ones by lia.
    rewrite Z.shiftr_div_pow2 by lia.
    rewrite N2Z.inj_mod. rewrite Z2N.id by (apply Z.mod_pos_bound; lia).
    change (Z.of_N 256) with (2 ^ 8).
    rewrite Z.mod_mod by lia.
    replace (8 * Z.of_nat (S k)) with (8 + 8 * Z.of_nat k) by lia.
    rewrite Z.pow_add_r by lia.
    rewrite Z.rem_mul_r by lia. reflexivity.
Qed.

Lemma le_bytes_inj (n m : Z) :
  0 <= n < 2 ^ 64 -> 0 <= m < 2 ^ 64 -> le_bytes 8 n = le_bytes 8 m -> n = m.
Proof.
  intros Hn Hm H. apply (f_equal le_value) in H.
  rewrite !le_value_le_bytes in H by lia.
  change (8 * Z.of_nat 8) with 64 in H.
  rewrite !Z.mod_small in H by lia. exact H.
Qed.

End EncodingFacts.

(** ** More on registry entries *)

Module RegistryFacts.
Import Registry EncodingFacts.

(** [set] in general: the part of the target under the source is replaced. *)
Lemma u8_set_fits (target src : bytes) (off : nat) :
  off + length src <= length target ->
  u8_set target src off
  = Normal (take off target ++ src ++ drop (off + length src) target).
Proof. intros H. unfold u8_set. by rewrite decide_True. Qed.

(** The buffer that is signed or verified, for a datakey of any length that
    fits: the datakey cut or zero-padded to 32 bytes, then the encodings. *)
Lemma registrySigningData_any (dataKey data encodedData encodedRevision : bytes) :
  length encodedData = 8 + length data ->
  length encodedRevision = 8 ->
  length dataKey <= 48 + length data ->
  registrySigningData dataKey data encodedData encodedRevision
  = Normal (take 32 (dataKey ++ replicate 32 x00) ++ encodedData ++ encodedRevision).
Proof.
  intros Hd Hr Hk. unfold registrySigningData, u8_new.
  rewrite u8_set_fits by (rewrite length_replicate; lia).
  cbn [bind]. rewrite take_0, Nat.add_0_l, drop_replicate. cbn [app].
  set (buf1 := dataKey ++ replicate (32 + 8 + length data + 8 - length dataKey) x00).
  assert (Hlen1 : length buf1 = 48 + length data).
  { subst buf1. rewrite length_app, length_replicate. lia. }
  rewrite u8_set_fits by lia. cbn [bind].
  set (buf2 := take 32 buf1 ++ encodedData ++ drop (32 + length encodedData) buf1).
  assert (Ht : length (take 32 buf1) = 32) by (rewrite length_take; lia).
  assert (Hlen2 : length buf2 = 48 + length data).
  { subst buf2. rewrite !length_app, length_drop, Ht. lia. }
  rewrite u8_set_fits by lia. f_equal.
  rewrite (drop_ge buf2) by lia. rewrite app_nil_r.
  subst buf2. rewrite app_assoc.
  rewrite take_app_length' by (rewrite length_app, Ht; lia).
  rewrite <- app_assoc. f_equal.
  subst buf1.
  destruct (decide (length dataKey <= 32)) as [Hle|Hgt].
  - rewrite !take_app_ge by lia. f_equal.
    rewrite !take_replicate. f_equal. lia.
  - by rewrite !take_app_le by lia.
Qed.

Section Primitives.

Variable blake2b : bytes -> bytes.
Variable sha512 : bytes -> bytes.
Variable ed25519KeypairFromEntropy : bytes -> Ed25519Keypair * Err.
Variable ed25519Sign : bytes -> bytes -> bytes * Err.
Variable ed25519Verify : bytes -> bytes -> bytes -> bool.

(** [bufToB64] of [encoding.ts] is not among the sources: a parameter. *)
Variable bufToB64 : bytes -> jsstring.

(** X1: what [verifyRegistrySignature] does for a datakey of any length,
    when data and revision can be encoded.  A datakey longer than
    [48 + data.length] bytes makes it throw; any other datakey is cut or
    zero-padded to 32 bytes and the signature is checked over that: a short
    datakey is accepted as its zero-padded form. *)
Theorem verifyRegistrySignature_any_datakey
  (pubkey datakey data : bytes) (revision : Z) (sig encodedData encodedRevision : bytes) :
  encodePrefixedBytes data = (encodedData, None) ->
  encodeU64 revision = (encodedRevision, None) ->
  verifyRegistrySignature blake2b ed25519Verify pubkey datakey data revision sig
  = if decide (length datakey <= 48 + length data)
    then Normal (ed25519Verify
                   (blake2b (take 32 (datakey ++ replicate 32 x00)
                               ++ encodedData ++ encodedRevision))
                   sig pubkey)
    else Throw RangeError.
Proof.
  intros Hd Hr. unfold verifyRegistrySignature. rewrite Hd, Hr.
  assert (HlenD : length encodedData = 8 + length data).
  { apply encodePrefixedBytes_inv in Hd as ->. rewrite length_app, length_le_bytes. lia. }
  assert (HlenR : length encodedRevision = 8).
  { apply encodeU64_inv in Hr as [_ ->]. apply length_le_bytes. }
  destruct (decide (length datakey <= 48 + length data)) as [Hk|Hk].
  - by rewrite registrySigningData_any.
  - unfold registrySigningData, u8_new.
    rewrite u8_set_too_long; [reflexivity|]. rewrite length_replicate. lia.
Qed.

(** X2: a revision outside [0, 2^64) is refused on both sides without the
    buffer ever being built: [verifyRegistrySignature] returns false for
    every datakey and signature, and [computeRegistrySignature] returns an
    error. *)
Theorem revision_out_of_range_is_refused
  (secretKey pubkey datakey data : bytes) (revision : Z) (sig : bytes) :
  (revision < 0 \/ 2 ^ 64 <= revision)%Z ->
  verifyRegistrySignature blake2b ed25519Verify pubkey datakey data revision sig
  = Normal false /\
  exists err : jsstring,
    computeRegistrySignature blake2b ed25519Sign secretKey datakey data revision
    = Normal ([], Some err).
Proof.
  intros Hrev.
  assert (He : exists err, encodeU64 revision = ([], Some err)).
  { unfold encodeU64. destruct (decide (revision < 0)%Z) as [?|?]; [by eexists|].
    destruct (decide (2 ^ 64 <= revision)%Z) as [?|?]; [by eexists | lia]. }
  destruct He as [err He]. split.
  - unfold verifyRegistrySignature. rewrite He.
    by destruct (encodePrefixedBytes data) as [? [?|]].
  - unfold computeRegistrySignature. rewrite He.
    destruct (decide (86 < length data)); [by eexists|].
    destruct (encodePrefixedBytes data) as [? [?|]]; by eexists.
Qed.

(** X3: two registry entries with 32-byte datakeys that differ in datakey,
    data or revision never share the bytes that are hashed and signed. *)
Theorem signing_data_unambiguous
  (datakey data encodedData encodedRevision : bytes) (revision : Z)
  (datakey' data' encodedData' encodedRevision' : bytes) (revision' : Z) :
  length datakey = 32 -> length datakey' = 32 ->
  encodePrefixedBytes data = (encodedData, None) ->
  encodeU64 revision = (encodedRevision, None) ->
  encodePrefixedBytes data' = (encodedData', None) ->
  encodeU64 revision' = (encodedRevision', None) ->
  registrySigningData datakey data encodedData encodedRevision
  = registrySigningData datakey' data' encodedData' encodedRevision' ->
  datakey = datakey' /\ data = data' /\ revision = revision'.
Proof.
  intros Hk Hk' Hd Hr Hd' Hr' H.
  rewrite (registrySigningData_encoded _ _ _ _ revision Hk Hd Hr) in H.
  rewrite (registrySigningData_encoded _ _ _ _ revision' Hk' Hd' Hr') in H.
  apply (f_equal (fun c => match c with Normal b => b | Throw _ => [] end)) in H.
  apply app_inj_1 in H as [-> H]; [|congruence].
  pose proof Hd as Hd0. pose proof Hd' as Hd0'.
  unfold encodePrefixedBytes in Hd0, Hd0'.
  destruct (encodeU64 (Z.of_nat (length data))) as [l [e|]] eqn:El; [discriminate|].
  destruct (encodeU64 (Z.of_nat (length data'))) as [l' [e'|]] eqn:El'; [discriminate|].
  apply encodeU64_inv in El as [Hl ->], El' as [Hl' ->].
  apply encodePrefixedBytes_inv in Hd as ->, Hd' as ->.
  apply encodeU64_inv in Hr as [Hrv ->], Hr' as [Hrv' ->].
  rewrite <- !app_assoc in H.
  apply app_inj_1 in H as [Hlen H]; [|by rewrite !length_le_bytes].
  apply le_bytes_inj in Hlen; [|lia..].
  apply app_inj_1 in H as [-> H]; [|lia].
  apply le_bytes_inj in H; [|lia..]. done.
Qed.


(** *** Resolver links *)

(** [entryIDToSkylink] of libskynet, before the text encoding: the 34 bytes
    of the resolver skylink. *)
Definition entryIDToSkylinkBytes (entryID : bytes) : completion bytes :=
  let v2Skylink := u8_new 34 in
  v2Skylink <- u8_set v2Skylink entryID 2 ;;;
  let v2Skylink := u8_store v2Skylink 0 x01 in
  Normal v2Skylink.

Definition entryIDToSkylink (entryID : bytes) : completion jsstring :=
  v2Skylink <- entryIDToSkylinkBytes entryID ;;;
  Normal (bufToB64 v2Skylink).

(** [resolverLink] of libkerneldev: the same with a length check. *)
Definition resolverLink (entryID : bytes) : completion (jsstring * Err) :=
  if decide (length entryID ≠ 32)
  then Normal (lit "", Some (lit "provided entry ID has the wrong length"))
  else
    v2Skylink <- entryIDToSkylinkBytes entryID ;;;
    let skylink := bufToB64 v2Skylink in
    Normal (skylink, None).

Lemma entryIDToSkylinkBytes_fits (entryID : bytes) :
  length entryID <= 32 ->
  entryIDToSkylinkBytes entryID
  = Normal ([x01; x00] ++ entryID ++ replicate (32 - length entryID) x00).
Proof.
  intros Hlen. unfold entryIDToSkylinkBytes, u8_new.
  rewrite (u8_set_fill [x00; x00] entryID _ 32 (32 - length entryID) 2);
    [reflexivity | reflexivity | lia | reflexivity].
Qed.

(** X4: [resolverLink] never throws; it returns an error exactly when the
    entry id is not 32 bytes long, and otherwise the text of the 34 bytes
    [1, 0, entryID]. *)
Theorem resolverLink_spec (entryID : bytes) :
  exists (skylink : jsstring) (err : Err),
    resolverLink entryID = Normal (skylink, err) /\
    (err <> None <-> length entryID <> 32) /\
    (err = None -> skylink = bufToB64 ([x01; x00] ++ entryID)).
Proof.
  unfold resolverLink. destruct (decide (length entryID ≠ 32)) as [Hne|Heq].
  - eexists _, _. split; [reflexivity|]. split; [done|]. discriminate.
  - assert (Hlen : length entryID = 32) by lia.
    rewrite entryIDToSkylinkBytes_fits by lia. rewrite Hlen. cbn [bind].
    eexists _, _. split; [reflexivity|]. split; [split; done|].
    intros _. cbn [replicate Nat.sub]. by rewrite app_nil_r.
Qed.

(** X5: [entryIDToSkylink] has no length check.  An entry id longer than 32
    bytes makes it throw; a shorter one is silently padded with zeros to 34
    bytes; on 32 bytes it gives the link [resolverLink] gives. *)
Theorem entryIDToSkylink_any_length (entryID : bytes) :
  entryIDToSkylink entryID
  = (if decide (length entryID <= 32)
     then Normal (bufToB64 ([x01; x00] ++ entryID ++ replicate (32 - length entryID) x00))
     else Throw RangeError) /\
  (length entryID = 32 ->
   resolverLink entryID = (skylink <- entryIDToSkylink entryID ;;; Normal (skylink, None))).
Proof.
  split.
  - unfold entryIDToSkylink. destruct (decide (length entryID <= 32)) as [Hle|Hgt].
    + by rewrite entryIDToSkylinkBytes_fits.
    + unfold entryIDToSkylinkBytes, u8_new. rewrite u8_set_too_long; [reflexivity|].
      rewrite length_replicate. lia.
  - intros Hlen. unfold resolverLink, entryIDToSkylink.
    destruct (decide (length entryID ≠ 32)) as [?|_]; [done|].
    by destruct (entryIDToSkylinkBytes entryID).
Qed.

(** X6: the entry id derived from a 32-byte pubkey and datakey always
    converts to a resolver link, when the hash returns 32 bytes. *)
Theorem derived_entry_id_has_resolver_link (pubkey datakey : bytes) :
  (forall m, length (blake2b m) = 32) ->
  length pubkey = 32 -> length datakey = 32 ->
  exists id : bytes,
    deriveRegistryEntryID blake2b pubkey datakey = Normal (id, None) /\
    resolverLink id = Normal (bufToB64 ([x01; x00] ++ id), None).
Proof.
  intros Hh Hp Hd. exists (blake2b (entryIDPreimage pubkey datakey)).
  split; [by apply deriveRegistryEntryID_ok|].
  unfold resolverLink. destruct (decide (_ ≠ 32)) as [Hne|_]; [by rewrite Hh in Hne|].
  rewrite entryIDToSkylinkBytes_fits by (rewrite Hh; lia).
  rewrite Hh. cbn [bind replicate Nat.sub]. by rewrite app_nil_r.
Qed.

(** *** Tagged keys *)

(** X7: [taggedRegistryEntryKeys] never throws, the keypair and the error do
    not depend on the datakey tag, and leaving the datakey tag out is the
    same as passing the empty string. *)
Theorem taggedRegistryEntryKeys_keypair
  (seed : bytes) (keypairTagStr : jsstring) (datakeyTagStr : option jsstring) :
  exists (keypair : Ed25519Keypair) (datakey : bytes) (err : Err),
    taggedRegistryEntryKeys sha512 ed25519KeypairFromEntropy seed keypairTagStr datakeyTagStr
    = Normal (keypair, datakey, err) /\
    (forall datakeyTagStr' : option jsstring,
        exists datakey' : bytes,
          taggedRegistryEntryKeys sha512 ed25519KeypairFromEntropy seed keypairTagStr
            datakeyTagStr'
          = Normal (keypair, datakey', err)) /\
    taggedRegistryEntryKeys sha512 ed25519KeypairFromEntropy seed keypairTagStr None
    = taggedRegistryEntryKeys sha512 ed25519KeypairFromEntropy seed keypairTagStr (Some []).
Proof.
  unfold taggedRegistryEntryKeys.
  destruct (decide (length seed ≠ SEED_BYTES)) as [?|_].
  { eexists _, _, _. split; [reflexivity|]. split; [|reflexivity].
    intros _. by eexists. }
  destruct (decide (255 < length keypairTagStr)) as [?|_].
  { eexists _, _, _. split; [reflexivity|]. split; [|reflexivity].
    intros _. by eexists. }
  rewrite entropyInput_ok. cbn [bind].
  destruct (ed25519KeypairFromEntropy _) as [kp [e|]].
  - eexists _, _, _. rewrite datakeyInput_ok. cbn [bind].
    split; [reflexivity|]. split; [|reflexivity].
    intros dt'. rewrite datakeyInput_ok. cbn [bind]. by eexists.
  - eexists _, _, _. rewrite datakeyInput_ok. cbn [bind].
    split; [reflexivity|]. split; [|reflexivity].
    intros dt'. rewrite datakeyInput_ok. cbn [bind]. by eexists.
Qed.

(** The encoding of a string of ASCII characters: one byte per character. *)
Definition isAscii (s : jsstring) : Prop := Forall (fun u => (u < 128)%N) s.

Lemma encode_ascii (s : jsstring) :
  isAscii s -> Text.encode s = map byte_of_N s.
Proof.
  induction 1 as [|u s Hu Hs IH]; [reflexivity|].
  cbn [Text.encode map].
  assert (H1 : Text.isHighSurrogate u = false).
  { unfold Text.isHighSurrogate. apply andb_false_iff. left. apply N.leb_gt. lia. }
  assert (H2 : Text.isLowSurrogate u = false).
  { unfold Text.isLowSurrogate. apply andb_false_iff. left. apply N.leb_gt. lia. }
  rewrite H1, H2, IH. unfold Text.utf8.
  assert (H3 : (u <? 128)%N = true) by (apply N.ltb_lt; exact Hu).
  change 0x80%N with 128%N. by rewrite H3.
Qed.

Lemma encode_ascii_inj (s s' : jsstring) :
  isAscii s -> isAscii s' -> Text.encode s = Text.encode s' -> s = s'.
Proof.
  intros Hs Hs'. rewrite !encode_ascii by assumption.
  revert s' Hs'. induction Hs as [|u s Hu Hs IH]; intros s' Hs' H.
  - by destruct s'.
  - destruct Hs' as [|u' s' Hu' Hs']; [discriminate|].
    cbn [map] in H.
    assert (Hb : byte_of_N u = byte_of_N u') by congruence.
    assert (Ht : map byte_of_N s = map byte_of_N s') by congruence.
    apply byte_of_N_inj in Hb; [|lia..]. subst u'. f_equal. by apply IH.
Qed.

(** X8: for ASCII tags with a keypair tag of at most 255 characters, two
    different tag pairs never build the same datakey preimage: here the
    length prefix does its work. *)
Theorem ascii_tag_pairs_do_not_collide
  (seed : bytes) (keypairTag datakeyTag keypairTag' datakeyTag' : jsstring) :
  isAscii keypairTag -> isAscii datakeyTag ->
  isAscii keypairTag' -> isAscii datakeyTag' ->
  length keypairTag <= 255 -> length keypairTag' <= 255 ->
  (keypairTag, datakeyTag) <> (keypairTag', datakeyTag') ->
  datakeyInput seed (Text.encode keypairTag) (Text.encode datakeyTag)
  <> datakeyInput seed (Text.encode keypairTag') (Text.encode datakeyTag').
Proof.
  intros Hk Hd Hk' Hd' Hlen Hlen' Hne Heq. apply Hne.
  apply datakeyInput_inj in Heq as [H1 H2].
  - apply encode_ascii_inj in H1, H2; try assumption. congruence.
  - rewrite encode_ascii by assumption. by rewrite length_map.
  - rewrite encode_ascii by assumption. by rewrite length_map.
Qed.

End Primitives.

End RegistryFacts.

(** ** More on seed phrases *)

Module SeedFacts.
Import Seed.

Section Dictionary.

Variable dictionary : list jsstring.
Variable DICTIONARY_UNIQUE_PREFIX : nat.
Variable sha512 : bytes -> bytes.

Abbreviation findWord := (Seed.findWord DICTIONARY_UNIQUE_PREFIX).
Abbreviation seedWordsToSeed := (Seed.seedWordsToSeed dictionary DICTIONARY_UNIQUE_PREFIX).
Abbreviation packWords := (Seed.packWords dictionary DICTIONARY_UNIQUE_PREFIX).
Abbreviation seedToChecksumWords := (Seed.seedToChecksumWords dictionary sha512).
Abbreviation validSeedPhrase :=
  (Seed.validSeedPhrase dictionary DICTIONARY_UNIQUE_PREFIX sha512).
Abbreviation prefix := (Seed.prefix DICTIONARY_UNIQUE_PREFIX).

(** A word is in the dictionary when some dictionary word has its prefix. *)
Definition inDictionary (w : jsstring) : Prop :=
  exists d, In d dictionary /\
            slice0 DICTIONARY_UNIQUE_PREFIX w = slice0 DICTIONARY_UNIQUE_PREFIX d.

Lemma findWord_None (dict : list jsstring) (j : nat) (w : jsstring) :
  findWord dict j w = None <->
  forall d, In d dict ->
            slice0 DICTIONARY_UNIQUE_PREFIX w <> slice0 DICTIONARY_UNIQUE_PREFIX d.
Proof.
  revert j. induction dict as [|d dict IH]; intros j; cbn [Seed.findWord].
  - split; [intros _ d [] | done].
  - destruct (decide (_ = _)) as [Heq|Hne].
    + split; [done|]. intros H. exfalso. apply (H d); [by left | exact Heq].
    + rewrite IH. split.
      * intros H d' [<-|Hin]; [exact Hne | by apply H].
      * intros H d' Hin. apply H. by right.
Qed.

Lemma findWord_found (w : jsstring) :
  findWord dictionary 0 w <> None <-> inDictionary w.
Proof.
  rewrite findWord_None. unfold inDictionary. split.
  - intros H. destruct (decide (Exists (fun d => slice0 DICTIONARY_UNIQUE_PREFIX w
                                          = slice0 DICTIONARY_UNIQUE_PREFIX d) dictionary))
      as [Hex|Hnex].
    + apply Exists_exists in Hex as (d & Hin & Hd). exists d.
      split; [by apply list_elem_of_In | exact Hd].
    + exfalso. apply H. intros d Hin Hd. apply Hnex. apply Exists_exists.
      exists d. split; [by apply list_elem_of_In | exact Hd].
  - intros (d & Hin & Hd) H. by apply (H d).
Qed.

Lemma findWord_prefix (dict : list jsstring) (j : nat) (w w' : jsstring) :
  slice0 DICTIONARY_UNIQUE_PREFIX w = slice0 DICTIONARY_UNIQUE_PREFIX w' ->
  findWord dict j w = findWord dict j w'.
Proof.
  intros Hp. revert j. induction dict as [|d dict IH]; intros j; cbn [Seed.findWord];
    [reflexivity|].
  rewrite Hp. destruct (decide (_ = _)); [reflexivity | apply IH].
Qed.

Lemma packWords_inv (seedWords : list jsstring) (i : nat) (st : packing)
  (seed : bytes) (err : Err) :
  packWords seedWords i st = (seed, err) ->
  match err with
  | None => Forall inDictionary seedWords
  | Some _ => seed = []
  end.
Proof.
  revert i st. induction seedWords as [|w rest IH]; intros i st; cbn [Seed.packWords].
  - intros [= <- <-]. constructor.
  - destruct (Seed.findWord _ dictionary 0 w) as [word|] eqn:Ew.
    + intros H. specialize (IH _ _ H). destruct err; [exact IH|].
      constructor; [|exact IH]. apply findWord_found. by rewrite Ew.
    + by intros [= <- <-].
Qed.

(** A successful run: 13 words in, 16 bytes out. *)
Lemma seedWordsToSeed_success (seedWords : list jsstring) (seed : bytes) :
  seedWordsToSeed seedWords = (seed, None) ->
  length seedWords = 13 /\ length seed = 16.
Proof.
  unfold Seed.seedWordsToSeed.
  destruct (decide (length seedWords ≠ SEED_ENTROPY_WORDS)) as [?|Hlen]; [discriminate|].
  intros E. split; [unfold SEED_ENTROPY_WORDS in Hlen; lia|].
  pose proof (packWords_inv _ _ _ _ _ E) as Hinv. cbn beta iota in Hinv.
  destruct (packWords_found dictionary DICTIONARY_UNIQUE_PREFIX seedWords 0
              {| packed := u8_new SEED_BYTES; curByte := 0; curBit := 0 |})
    as (seed' & Hs & Hl).
  { intros w Hw. apply findWord_found. rewrite Forall_forall in Hinv.
    apply Hinv. by apply list_elem_of_In. }
  rewrite E in Hs. injection Hs as <-. rewrite Hl. apply length_replicate.
Qed.

(** X9: [seedWordsToSeed] succeeds exactly on 13 words that are all in the
    dictionary, and then returns 16 bytes; in every other case it returns an
    error next to an empty array. *)
Theorem seedWordsToSeed_spec (seedWords : list jsstring) :
  exists (seed : bytes) (err : Err),
    seedWordsToSeed seedWords = (seed, err) /\
    (err = None <-> length seedWords = 13 /\ Forall inDictionary seedWords) /\
    (err = None -> length seed = 16) /\
    (err <> None -> seed = []).
Proof.
  destruct (seedWordsToSeed seedWords) as [seed err] eqn:E.
  exists seed, err. split; [reflexivity|].
  unfold Seed.seedWordsToSeed in E.
  destruct (decide (length seedWords ≠ SEED_ENTROPY_WORDS)) as [Hlen|Hlen].
  - injection E as <- <-. split; [split; [done | intros [? _]; done]|]. done.
  - assert (Hlen' : length seedWords = 13) by (unfold SEED_ENTROPY_WORDS in Hlen; lia).
    pose proof (packWords_inv _ _ _ _ _ E) as Hinv.
    destruct err as [e|].
    + split; [split; [done|]|done]. intros [_ Hall].
      destruct (packWords_found dictionary DICTIONARY_UNIQUE_PREFIX seedWords 0
                  {| packed := u8_new SEED_BYTES; curByte := 0; curBit := 0 |})
        as (seed' & Hs & _); [|congruence].
      intros w Hw. apply findWord_found. rewrite Forall_forall in Hall.
      apply Hall. by apply list_elem_of_In.
    + split; [done|]. split; [|done]. intros _.
      destruct (packWords_found dictionary DICTIONARY_UNIQUE_PREFIX seedWords 0
                  {| packed := u8_new SEED_BYTES; curByte := 0; curBit := 0 |})
        as (seed' & Hs & Hl).
      { intros w Hw. apply findWord_found. rewrite Forall_forall in Hinv.
        apply Hinv. by apply list_elem_of_In. }
      rewrite E in Hs. injection Hs as <-. rewrite Hl. apply length_replicate.
Qed.

Lemma packWords_prefix (seedWords seedWords' : list jsstring) (i : nat) (st : packing)
  (seed : bytes) :
  Forall2 (fun w w' => slice0 DICTIONARY_UNIQUE_PREFIX w
                       = slice0 DICTIONARY_UNIQUE_PREFIX w') seedWords seedWords' ->
  packWords seedWords i st = (seed, None) ->
  packWords seedWords' i st = (seed, None).
Proof.
  intros H. revert i st. induction H as [|w w' ws ws' Hw Hws IH]; intros i st;
    cbn [Seed.packWords]; [done|].
  rewrite <- (findWord_prefix dictionary 0 w w' Hw).
  destruct (Seed.findWord _ dictionary 0 w); [apply IH | discriminate].
Qed.

(** X10: only the first [DICTIONARY_UNIQUE_PREFIX] characters of each word
    count: words with the same prefixes give the same seed. *)
Theorem seedWordsToSeed_prefixes (seedWords seedWords' : list jsstring) (seed : bytes) :
  Forall2 (fun w w' => slice0 DICTIONARY_UNIQUE_PREFIX w
                       = slice0 DICTIONARY_UNIQUE_PREFIX w') seedWords seedWords' ->
  seedWordsToSeed seedWords = (seed, None) ->
  seedWordsToSeed seedWords' = (seed, None).
Proof.
  intros H. unfold Seed.seedWordsToSeed.
  rewrite <- (Forall2_length _ _ _ H).
  destruct (decide (length seedWords ≠ SEED_ENTROPY_WORDS)); [discriminate|].
  by apply packWords_prefix.
Qed.

(** *** The bits of the seed *)

(** The [width] low bits of a number, most significant first. *)
Fixpoint bitsOf (width : nat) (n : N) : list bool :=
  match width with
  | O => []
  | S r => N.testbit n (N.of_nat r) :: bitsOf r n
  end.

(** The bits of a byte array, byte by byte, most significant bit first. *)
Fixpoint seedBits (s : bytes) : list bool :=
  match s with
  | [] => []
  | b :: rest => bitsOf 8 (Byte.to_N b) ++ seedBits rest
  end.

(** The bits the 13 word indices are packed to, from word [i] on: 10 bits
    for a word, 8 for the last. *)
Fixpoint indexBits (i : nat) (indices : list nat) : list bool :=
  match indices with
  | [] => []
  | x :: rest =>
      bitsOf (if decide (i = SEED_ENTROPY_WORDS - 1) then 8 else 10) (N.of_nat x)
        ++ indexBits (S i) rest
  end.

Lemma length_bitsOf (width : nat) (n : N) : length (bitsOf width n) = width.
Proof. induction width as [|r IH]; cbn [bitsOf length]; [reflexivity | by rewrite IH]. Qed.

Lemma length_seedBits (s : bytes) : length (seedBits s) = 8 * length s.
Proof.
  induction s as [|b s IH]; [reflexivity|].
  cbn [seedBits]. rewrite length_app, length_bitsOf, IH. cbn [length]. lia.
Qed.

Lemma bit_test (word : N) (r : N) :
  (0 <? N.land word (N.shiftl 1 r))%N = N.testbit word r.
Proof.
  rewrite N.shiftl_1_l.
  destruct (N.testbit word r) eqn:Hb.
  - apply N.ltb_lt. apply N.neq_0_lt_0. intros H0.
    assert (Ht : N.testbit (N.land word (2 ^ r)) r = true).
    { by rewrite N.land_spec, Hb, N.pow2_bits_true. }
    rewrite H0 in Ht. by rewrite N.bits_0 in Ht.
  - apply N.ltb_ge. apply N.le_0_r. apply N.bits_inj. intros m.
    rewrite N.land_spec, N.pow2_bits_eqb, N.bits_0.
    destruct (N.eqb_spec r m) as [<-|?]; [by rewrite Hb | apply andb_false_r].
Qed.

Lemma byteBits_set (b : byte) (j : nat) :
  j < 8 ->
  bitsOf 8 (Byte.to_N (byte_of_N (N.lor (Byte.to_N b)
                                     (N.shiftl 1 (N.of_nat (8 - j - 1))))))
  = <[j := true]> (bitsOf 8 (Byte.to_N b)).
Proof.
  intros Hj. do 8 (destruct j as [|j]; [by destruct b|]). lia.
Qed.

Lemma seedBits_cons (b : byte) (s : bytes) :
  seedBits (b :: s) = bitsOf 8 (Byte.to_N b) ++ seedBits s.
Proof. reflexivity. Qed.

Lemma seedBits_insert (s : list byte) (i j : nat) (b b' : byte) :
  s !! i = Some b ->
  j < 8 ->
  bitsOf 8 (Byte.to_N b') = <[j := true]> (bitsOf 8 (Byte.to_N b)) ->
  seedBits (<[i := b']> s) = <[8 * i + j := true]> (seedBits s).
Proof.
  revert i. induction s as [|x s IH]; intros i Hs Hj Hb; [done|].
  destruct i as [|i].
  - injection Hs as ->. change (<[0 := b']> (b :: s)) with (b' :: s).
    rewrite !seedBits_cons, Hb. rewrite Nat.mul_0_r, Nat.add_0_l.
    rewrite insert_app_l; [reflexivity|]. by rewrite length_bitsOf.
  - cbn in Hs. change (<[S i := b']> (x :: s)) with (x :: <[i := b']> s).
    rewrite !seedBits_cons, (IH i Hs Hj Hb).
    replace (8 * S i + j) with (length (bitsOf 8 (Byte.to_N x)) + (8 * i + j))
      by (rewrite length_bitsOf; lia).
    by rewrite insert_app_r.
Qed.

(** The bits written so far are [stream]; the rest of the array is zero. *)
Definition written (st : packing) (stream : list bool) : Prop :=
  curBit st < 8 /\
  length stream = 8 * curByte st + curBit st /\
  seedBits (packed st)
  = stream ++ replicate (8 * length (packed st) - length stream) false.

Lemma packBits_written (word : N) (remaining : nat) (st : packing) (stream : list bool) :
  written st stream ->
  length stream + remaining <= 8 * length (packed st) ->
  written (packBits word remaining st) (stream ++ bitsOf remaining word) /\
  length (packed (packBits word remaining st)) = length (packed st).
Proof.
  revert st stream. induction remaining as [|bit IH]; intros st stream Hw Hroom.
  - cbn [packBits bitsOf]. by rewrite app_nil_r.
  - destruct Hw as (Hcb & Hpos & Hbits).
    cbn [packBits bitsOf]. rewrite bit_test.
    assert (HcB : curByte st < length (packed st)) by lia.
    destruct (packed st !! curByte st) as [b0|] eqn:Hb0;
      [|apply lookup_ge_None in Hb0; lia].
    set (packed' := if N.testbit word (N.of_nat bit) then _ else packed st).
    assert (Hlen' : length packed' = length (packed st)).
    { subst packed'. destruct (N.testbit word (N.of_nat bit)); [|reflexivity].
      apply length_insert. }
    assert (Hbits' : seedBits packed'
                     = (stream ++ [N.testbit word (N.of_nat bit)])
                         ++ replicate (8 * length (packed st) - S (length stream)) false).
    { subst packed'.
      assert (Hrep : replicate (8 * length (packed st) - length stream) false
                     = false :: replicate (8 * length (packed st) - S (length stream)) false).
      { replace (8 * length (packed st) - length stream)
          with (S (8 * length (packed st) - S (length stream))) by lia. reflexivity. }
      destruct (N.testbit word (N.of_nat bit)).
      - unfold u8_store.
        etrans;
          [exact (seedBits_insert _ _ (curBit st) b0 _ Hb0 Hcb (byteBits_set b0 _ Hcb))|].
        rewrite Hbits, Hrep, <- Hpos.
        replace (length stream) with (length stream + 0) at 1 by lia.
        rewrite insert_app_r. cbn. by rewrite <- app_assoc.
      - rewrite Hbits, Hrep. by rewrite <- app_assoc. }
    set (st' := if decide (8 <= curBit st + 1) then _ else _).
    assert (Hst' : written st' (stream ++ [N.testbit word (N.of_nat bit)])
                   /\ packed st' = packed').
    { subst st'. destruct (decide (8 <= curBit st + 1)); cbn [packed curByte curBit].
      - split; [|reflexivity]. unfold written. cbn [packed curByte curBit].
        rewrite length_app, Hlen'. cbn [length].
        split; [lia|]. split; [lia|]. rewrite Hbits'. do 2 f_equal. lia.
      - split; [|reflexivity]. unfold written. cbn [packed curByte curBit].
        rewrite length_app, Hlen'. cbn [length].
        split; [lia|]. split; [lia|]. rewrite Hbits'. do 2 f_equal. lia. }
    destruct Hst' as [Hw' Hp'].
    destruct (IH st' (stream ++ [N.testbit word (N.of_nat bit)]) Hw') as [Hw'' Hl''].
    { rewrite Hp', Hlen', length_app. cbn [length]. lia. }
    split.
    + by rewrite <- app_assoc in Hw''.
    + by rewrite Hl'', Hp'.
Qed.

Lemma packWords_bits (seedWords : list jsstring) (i : nat) (st : packing)
  (stream : list bool) (seed : bytes) :
  written st stream ->
  packWords seedWords i st = (seed, None) ->
  exists indices : list nat,
    Forall2 (fun w x => findWord dictionary 0 w = Some x) seedWords indices /\
    (length stream + length (indexBits i indices) <= 8 * length (packed st) ->
     seedBits seed
     = stream ++ indexBits i indices
         ++ replicate (8 * length (packed st) - length stream
                       - length (indexBits i indices)) false).
Proof.
  revert i st stream. induction seedWords as [|w rest IH]; intros i st stream Hw;
    cbn [Seed.packWords].
  - intros [= <-]. exists []. split; [constructor|]. intros _.
    destruct Hw as (_ & _ & ->). cbn [indexBits app length]. do 2 f_equal. lia.
  - destruct (Seed.findWord _ dictionary 0 w) as [word|] eqn:Ew; [|discriminate].
    intros Hrun.
    set (wordBits := if decide (i = SEED_ENTROPY_WORDS - 1) then 8 else 10) in *.
    destruct (decide (length stream + wordBits <= 8 * length (packed st))) as [Hroom|Hroom].
    + destruct (packBits_written (N.of_nat word) wordBits st stream Hw Hroom)
        as [Hw' Hl'].
      destruct (IH _ _ _ Hw' Hrun) as (indices & Hidx & Hbits).
      exists (word :: indices). split; [by constructor|].
      cbn [indexBits]. fold wordBits. rewrite length_app, length_bitsOf. intros Hfit.
      rewrite Hbits by (rewrite length_app, length_bitsOf, Hl'; lia).
      rewrite Hl', length_app, length_bitsOf, <- !app_assoc. do 4 f_equal. lia.
    + destruct (packWords_found dictionary DICTIONARY_UNIQUE_PREFIX rest (S i)
                  (packBits (N.of_nat word) wordBits st)) as (seed' & Hs & _).
      { intros v Hv. apply findWord_found.
        pose proof (packWords_inv _ _ _ _ _ Hrun) as Hall. cbn in Hall.
        rewrite Forall_forall in Hall. apply Hall. by apply list_elem_of_In. }
      assert (Hex : exists indices,
                 Forall2 (fun w x => findWord dictionary 0 w = Some x) rest indices).
      { pose proof (packWords_inv _ _ _ _ _ Hrun) as Hall. cbn in Hall.
        clear -Hall. induction Hall as [|v vs Hv _ [idx Hidx]]; [by exists []|].
        apply findWord_found in Hv.
        destruct (Seed.findWord _ dictionary 0 v) as [x|] eqn:Ex; [|done].
        exists (x :: idx). by constructor. }
      destruct Hex as [indices Hidx]. exists (word :: indices).
      split; [by constructor|]. cbn [indexBits]. fold wordBits.
      rewrite length_app, length_bitsOf. lia.
Qed.

(** The indices of a word list are determined by the words. *)
Lemma findWord_indices_unique (ws : list jsstring) (l1 l2 : list nat) :
  Forall2 (fun w x => findWord dictionary 0 w = Some x) ws l1 ->
  Forall2 (fun w x => findWord dictionary 0 w = Some x) ws l2 -> l1 = l2.
Proof.
  intros H1. revert l2. induction H1 as [|w x ws l1 Hx _ IH]; intros l2 H2.
  - by apply Forall2_nil_inv_l in H2.
  - apply Forall2_cons_inv_l in H2 as (x' & l2' & Hx' & H2 & ->).
    f_equal; [congruence | by apply IH].
Qed.

(** The bits of 13 indices fill the 16 bytes. *)
Lemma length_indexBits (indices : list nat) :
  length indices = 13 -> length (indexBits 0 indices) = 128.
Proof.
  intros Hn. do 13 (destruct indices as [|? indices]; [discriminate Hn|]).
  destruct indices; [|discriminate Hn].
  cbn [indexBits]. rewrite !length_app, !length_bitsOf. reflexivity.
Qed.

(** The bits of the seed for the indices of the words, from the invariant
    of the packing loop. *)
Lemma seedWordsToSeed_indexBits (seedWords : list jsstring) (seed : bytes)
  (indices : list nat) :
  seedWordsToSeed seedWords = (seed, None) ->
  Forall2 (fun w x => findWord dictionary 0 w = Some x) seedWords indices ->
  seedBits seed = indexBits 0 indices.
Proof.
  unfold Seed.seedWordsToSeed.
  destruct (decide (length seedWords ≠ SEED_ENTROPY_WORDS)) as [?|Hlen]; [discriminate|].
  intros Hrun Hgiven.
  destruct (packWords_bits seedWords 0
              {| packed := u8_new SEED_BYTES; curByte := 0; curBit := 0 |} [] seed)
    as (indices' & Hidx & Hbits); [|exact Hrun|].
  { unfold written. cbn [packed curByte curBit length app].
    split; [lia|]. split; [lia|]. vm_compute. reflexivity. }
  rewrite (findWord_indices_unique _ _ _ Hidx Hgiven) in Hbits.
  assert (Hl : length (indexBits 0 indices) = 128).
  { apply length_indexBits. rewrite <- (Forall2_length _ _ _ Hgiven).
    unfold SEED_ENTROPY_WORDS in Hlen. lia. }
  cbn [packed length app] in Hbits. unfold u8_new in Hbits.
  rewrite length_replicate in Hbits.
  rewrite Hbits by (rewrite Hl; unfold SEED_BYTES; lia).
  rewrite Hl. unfold SEED_BYTES. cbn [Nat.mul Nat.add Nat.sub replicate].
  by rewrite app_nil_r.
Qed.

(** X11: the bit layout of the seed.  When [seedWordsToSeed] succeeds, the
    128 bits of the seed are, in order and most significant bit first, the
    10 low bits of the dictionary index of each of the first 12 words and
    the 8 low bits of the index of the 13th. *)
Theorem seedWordsToSeed_bits (seedWords : list jsstring) (seed : bytes) :
  seedWordsToSeed seedWords = (seed, None) ->
  exists indices : list nat,
    Forall2 (fun w x => findWord dictionary 0 w = Some x) seedWords indices /\
    seedBits seed = indexBits 0 indices.
Proof.
  intros Hrun.
  assert (Hex : exists indices,
             Forall2 (fun w x => findWord dictionary 0 w = Some x) seedWords indices).
  { unfold Seed.seedWordsToSeed in Hrun.
    destruct (decide (length seedWords ≠ SEED_ENTROPY_WORDS)); [discriminate|].
    pose proof (packWords_inv _ _ _ _ _ Hrun) as Hall.
    clear -Hall. induction Hall as [|v vs Hv _ [idx Hidx]]; [by exists []|].
    apply findWord_found in Hv.
    destruct (Seed.findWord _ dictionary 0 v) as [x|] eqn:Ex; [|done].
    exists (x :: idx). by constructor. }
  destruct Hex as [indices Hidx]. exists indices. split; [exact Hidx|].
  exact (seedWordsToSeed_indexBits seedWords seed indices Hrun Hidx).
Qed.

(** *** Which word lists give the same seed *)

Lemma bitsOf_testbit (width : nat) (n m : N) :
  bitsOf width n = bitsOf width m <->
  forall r, r < width -> N.testbit n (N.of_nat r) = N.testbit m (N.of_nat r).
Proof.
  induction width as [|w IH]; cbn [bitsOf].
  - split; [intros _ r Hr; lia | done].
  - split.
    + intros H r Hr. injection H as Hb Ht.
      destruct (decide (r = w)) as [->|Hne]; [exact Hb|].
      apply IH; [exact Ht | lia].
    + intros H. f_equal; [apply H; lia|]. apply IH. intros r Hr. apply H. lia.
Qed.

Lemma bitsOf_eq_mod (width : nat) (n m : N) :
  bitsOf width n = bitsOf width m <->
  (n mod 2 ^ N.of_nat width = m mod 2 ^ N.of_nat width)%N.
Proof.
  rewrite bitsOf_testbit. split.
  - intros H. apply N.bits_inj. intros k.
    destruct (decide (k < N.of_nat width)%N) as [Hlt|Hge].
    + rewrite !N.mod_pow2_bits_low by exact Hlt.
      specialize (H (N.to_nat k)). rewrite N2Nat.id in H. apply H. lia.
    + rewrite !N.mod_pow2_bits_high by lia. reflexivity.
  - intros H r Hr.
    rewrite <- (N.mod_pow2_bits_low n (N.of_nat width)) by lia.
    rewrite <- (N.mod_pow2_bits_low m (N.of_nat width)) by lia.
    by rewrite H.
Qed.

Lemma seedBits_inj (s s' : bytes) : seedBits s = seedBits s' -> s = s'.
Proof.
  revert s'. induction s as [|b s IH]; intros s' H.
  - destruct s' as [|b' s']; [reflexivity|].
    apply (f_equal length) in H. rewrite seedBits_cons, length_app, length_bitsOf in H.
    cbn in H. lia.
  - destruct s' as [|b' s'].
    + apply (f_equal length) in H. rewrite seedBits_cons, length_app, length_bitsOf in H.
      cbn in H. lia.
    + rewrite !seedBits_cons in H.
      apply app_inj_1 in H as [Hb Hs]; [|by rewrite !length_bitsOf].
      f_equal; [|by apply IH].
      apply bitsOf_eq_mod in Hb. change (2 ^ N.of_nat 8)%N with 256%N in Hb.
      pose proof (Byte.to_N_bounded b). pose proof (Byte.to_N_bounded b').
      rewrite !N.mod_small in Hb by lia.
      assert (Ho : Byte.of_N (Byte.to_N b) = Byte.of_N (Byte.to_N b')) by congruence.
      rewrite !Byte.of_to_N in Ho. congruence.
Qed.

(** Two index lists agree from word [i] on: each pair of indices agrees
    modulo [2^10], and modulo [2^8] for the last word. *)
Fixpoint sameIndices (i : nat) (indices indices' : list nat) : Prop :=
  match indices, indices' with
  | [], [] => True
  | x :: rest, x' :: rest' =>
      let wordBits := if decide (i = SEED_ENTROPY_WORDS - 1) then 8 else 10 in
      (N.of_nat x mod 2 ^ N.of_nat wordBits = N.of_nat x' mod 2 ^ N.of_nat wordBits)%N
      /\ sameIndices (S i) rest rest'
  | _, _ => False
  end.

Lemma indexBits_eq (i : nat) (indices indices' : list nat) :
  length indices = length indices' ->
  indexBits i indices = indexBits i indices' <-> sameIndices i indices indices'.
Proof.
  revert i indices'. induction indices as [|x rest IH]; intros i [|x' rest'] Hlen;
    try discriminate Hlen; cbn [indexBits sameIndices]; [done|].
  injection Hlen as Hlen. rewrite <- (IH (S i) rest' Hlen), <- bitsOf_eq_mod. split.
  - intros H. apply app_inj_1 in H; [exact H | by rewrite !length_bitsOf].
  - by intros [-> ->].
Qed.

(** X12: two accepted word lists give the same seed exactly when their
    dictionary indices agree modulo 1024 in the first twelve places and
    modulo 256 in the thirteenth: the top two bits of the last index are
    dropped. *)
Theorem same_seed_iff_same_indices
  (seedWords seedWords' : list jsstring) (seed seed' : bytes) (indices indices' : list nat) :
  seedWordsToSeed seedWords = (seed, None) ->
  seedWordsToSeed seedWords' = (seed', None) ->
  Forall2 (fun w x => findWord dictionary 0 w = Some x) seedWords indices ->
  Forall2 (fun w x => findWord dictionary 0 w = Some x) seedWords' indices' ->
  seed = seed' <-> sameIndices 0 indices indices'.
Proof.
  intros Hs Hs' Hi Hi'.
  pose proof (seedWordsToSeed_indexBits _ _ _ Hs Hi) as Hbits.
  pose proof (seedWordsToSeed_indexBits _ _ _ Hs' Hi') as Hbits'.
  assert (Hlen : length indices = length indices').
  { rewrite <- (Forall2_length _ _ _ Hi), <- (Forall2_length _ _ _ Hi').
    unfold Seed.seedWordsToSeed in Hs, Hs'.
    destruct (decide (length seedWords ≠ _)); [discriminate|].
    destruct (decide (length seedWords' ≠ _)); [discriminate|]. lia. }
  rewrite <- (indexBits_eq 0 _ _ Hlen), <- Hbits, <- Hbits'. split.
  - by intros ->.
  - apply seedBits_inj.
Qed.

(** *** Checksum words *)

(** The arithmetic of the two indices, for three bytes of a hash. *)
Lemma checksum_indices (h0 h1 h2 : N) :
  (h0 <= 255 -> h1 <= 255 -> h2 <= 255 ->
   let i1 := N.shiftr (N.shiftl h0 8 + h1) 6 in
   let i2 := N.shiftr (N.land (N.shiftl h1 10) 0xffff + N.shiftl h2 2) 6 in
   i1 < 1024 /\ i2 < 1024 /\ i1 * 1024 + i2 = (h0 * 65536 + h1 * 256 + h2) / 16)%N.
Proof.
  intros H0 H1 H2. cbv zeta.
  change 0xffff%N with (N.ones 16).
  rewrite N.land_ones, !N.shiftl_mul_pow2, !N.shiftr_div_pow2.
  change (2 ^ 8)%N with 256%N. change (2 ^ 6)%N with 64%N.
  change (2 ^ 10)%N with 1024%N. change (2 ^ 16)%N with 65536%N.
  change (2 ^ 2)%N with 4%N.
  zify. Z.to_euclidean_division_equations. lia.
Qed.

Lemma hashByte_le (h : bytes) (i : nat) : (hashByte h i <= 255)%N.
Proof. apply Byte.to_N_bounded. Qed.

(** A seed of 16 bytes has checksum words. *)
Lemma seedToChecksumWords_total (seed : bytes) :
  length seed = 16 ->
  exists word1 word2 : option jsstring, seedToChecksumWords seed = (word1, word2, None).
Proof.
  intros Hlen. unfold Seed.seedToChecksumWords.
  destruct (decide (length seed ≠ SEED_BYTES)) as [Hne|_];
    [unfold SEED_BYTES in Hne; lia|].
  destruct (decide (SEED_CHECKSUM_WORDS ≠ 2)) as [?|_]; [done|].
  by eexists _, _.
Qed.

(** They are entries of the dictionary below index 1024. *)
Lemma seedToChecksumWords_words (seed : bytes) (word1 word2 : option jsstring) :
  seedToChecksumWords seed = (word1, word2, None) ->
  exists i1 i2 : N,
    word1 = dictionary !! N.to_nat i1 /\ word2 = dictionary !! N.to_nat i2 /\
    (i1 < 1024)%N /\ (i2 < 1024)%N.
Proof.
  unfold Seed.seedToChecksumWords.
  destruct (decide (length seed ≠ SEED_BYTES)) as [?|_]; [discriminate|].
  destruct (decide (SEED_CHECKSUM_WORDS ≠ 2)) as [?|_]; [discriminate|].
  intros [= <- <-]. eexists _, _. split; [reflexivity|]. split; [reflexivity|].
  pose proof (checksum_indices _ _ _ (hashByte_le (sha512 seed) 0)
                (hashByte_le (sha512 seed) 1) (hashByte_le (sha512 seed) 2)) as (H1 & H2 & _).
  split; [exact H1 | exact H2].
Qed.

(** X13: [seedToChecksumWords] returns an error exactly when the seed is
    not 16 bytes long.  Otherwise the two words are the dictionary entries
    at the first and the second group of 10 bits of the hash: both indices
    are below 1024 and together they are the top 20 bits of the first three
    hash bytes. *)
Theorem seedToChecksumWords_spec (seed : bytes) :
  exists (word1 word2 : option jsstring) (err : Err),
    seedToChecksumWords seed = (word1, word2, err) /\
    (err <> None <-> length seed <> 16) /\
    (err = None ->
     exists i1 i2 : N,
       word1 = dictionary !! N.to_nat i1 /\
       word2 = dictionary !! N.to_nat i2 /\
       (i1 < 1024)%N /\ (i2 < 1024)%N /\
       (i1 * 1024 + i2
        = (hashByte (sha512 seed) 0 * 65536 + hashByte (sha512 seed) 1 * 256
           + hashByte (sha512 seed) 2) / 16)%N).
Proof.
  unfold Seed.seedToChecksumWords.
  destruct (decide (length seed ≠ SEED_BYTES)) as [Hne|Heq].
  { eexists _, _, _. split; [reflexivity|]. split; [done|]. discriminate. }
  destruct (decide (SEED_CHECKSUM_WORDS ≠ 2)) as [?|_]; [done|].
  eexists _, _, _. split; [reflexivity|].
  split; [split; [done | intros ?; unfold SEED_BYTES in Heq; lia]|].
  intros _. eexists _, _. split; [reflexivity|]. split; [reflexivity|].
  apply (checksum_indices _ _ _ (hashByte_le (sha512 seed) 0)
           (hashByte_le (sha512 seed) 1) (hashByte_le (sha512 seed) 2)).
Qed.

(** *** When [validSeedPhrase] returns *)

Lemma split_app (sep : codeunit) (a b : jsstring) :
  split sep (a ++ sep :: b) = split sep a ++ split sep b.
Proof.
  induction a as [|c a IH]; cbn [app split].
  - by rewrite decide_True.
  - destruct (decide (c = sep)) as [->|Hne]; [by rewrite IH|].
    rewrite IH. pose proof (Skyfile.split_nonempty sep a) as Hn.
    by destruct (split sep a).
Qed.

(** X14: outside phrases of 13 or 14 words [validSeedPhrase] never throws,
    when the dictionary has at least 1024 words: it returns a 16-byte seed
    or an error. *)
Theorem validSeedPhrase_returns (seedPhrase : jsstring) :
  1024 <= length dictionary ->
  length (split space seedPhrase) <> 13 ->
  length (split space seedPhrase) <> 14 ->
  exists (seed : bytes) (err : Err),
    validSeedPhrase seedPhrase = Normal (seed, err) /\
    (err = None -> length seed = 16) /\
    (err <> None -> seed = []).
Proof.
  intros Hdict H13 H14. unfold Seed.validSeedPhrase.
  set (ws := split space seedPhrase) in *.
  destruct (seedWordsToSeed (take SEED_ENTROPY_WORDS ws)) as [seed [e|]] eqn:E.
  { eexists _, _. split; [reflexivity|]. done. }
  destruct (seedWordsToSeed_success _ _ E) as [Htake Hlen].
  rewrite length_take in Htake. unfold SEED_ENTROPY_WORDS in Htake.
  assert (Hn : 15 <= length ws) by lia.
  destruct (seedToChecksumWords_total seed Hlen) as (word1 & word2 & Hc). rewrite Hc.
  destruct (seedToChecksumWords_words _ _ _ Hc) as (i1 & i2 & -> & -> & Hi1 & Hi2).
  destruct (lookup_lt_is_Some_2 ws SEED_ENTROPY_WORDS) as [c1 ->];
    [unfold SEED_ENTROPY_WORDS; lia|].
  destruct (lookup_lt_is_Some_2 ws (SEED_ENTROPY_WORDS + 1)) as [c2 ->];
    [unfold SEED_ENTROPY_WORDS; lia|].
  destruct (lookup_lt_is_Some_2 dictionary (N.to_nat i1)) as [d1 ->]; [lia|].
  destruct (lookup_lt_is_Some_2 dictionary (N.to_nat i2)) as [d2 ->]; [lia|].
  cbn [Seed.prefix bind].
  destruct (decide (_ ≠ _)); [eexists _, _; split; [reflexivity | done]|].
  destruct (decide (_ ≠ _)); eexists _, _; (split; [reflexivity|]).
  - done.
  - split; [intros _; exact Hlen | done].
Qed.

(** X15: words after the fifteenth are ignored: a phrase of at least 15
    words followed by a space and anything else is judged exactly as the
    phrase itself. *)
Theorem validSeedPhrase_ignores_trailing_words (seedPhrase extra : jsstring) :
  15 <= length (split space seedPhrase) ->
  validSeedPhrase (seedPhrase ++ space :: extra) = validSeedPhrase seedPhrase.
Proof.
  intros Hn. unfold Seed.validSeedPhrase. rewrite split_app.
  rewrite take_app_le by (unfold SEED_ENTROPY_WORDS; lia).
  rewrite !lookup_app_l by (unfold SEED_ENTROPY_WORDS; lia).
  reflexivity.
Qed.

End Dictionary.

End SeedFacts.

(** ** Generating seed phrases

    [generateSeedPhraseDeterministic] of [libs/libskynet/src/seed.ts],
    [generateSeedPhrase] of libkerneldev and [generateSeedPhraseRandom] of
    [libs/libskynetnode/src/seed.ts].  libkerneldev has its own
    [seedWordsToSeed], [seedToChecksumWords] and [validSeedPhrase]; they
    are the same code as those of libskynet. *)

Module SeedGenerate.
Import Seed SeedFacts.

Section Dictionary.

Variable dictionary : list jsstring.
Variable DICTIONARY_UNIQUE_PREFIX : nat.
Variable sha512 : bytes -> bytes.

(** [bufToB64] of [encoding.ts] is not among the sources: a parameter. *)
Variable bufToB64 : bytes -> jsstring.

(** [Uint16Array.from(buf)] for a [Uint8Array]: one element for each byte,
    with the value of that byte. *)
Definition Uint16Array_from (buf : bytes) : list N := map Byte.to_N buf.

(** [a % m] for an element [a] of the array and a length [m]; [None] is
    [NaN], the remainder of [undefined] or by zero. *)
Definition remainder (a : option N) (m : nat) : option N :=
  match a with
  | None => None
  | Some r => if decide (m = 0) then None else Some (r mod N.of_nat m)%N
  end.

(** [a % (m / 4)]: the division is exact in floating point, and the
    remainder is [((4 * a) mod m) / 4]; [None] when that is [NaN] or not an
    integer, which indexes no array element. *)
Definition remainderOfQuarter (a : option N) (m : nat) : option N :=
  match a with
  | None => None
  | Some r =>
      if decide (m = 0) then None
      else
        let q := ((4 * r) mod N.of_nat m)%N in
        if decide (q mod 4 = 0)%N then Some (q / 4)%N else None
  end.

(** [dictionary[wordIndex]]. *)
Definition wordAt (wordIndex : option N) : option jsstring :=
  match wordIndex with
  | None => None
  | Some k => dictionary !! N.to_nat k
  end.

(** The search for a word that is [undefined]: the first comparison reads
    its prefix and throws; with an empty dictionary there is no comparison
    and the word is reported as not found. *)
Definition undefinedWord (i : nat) : completion (bytes * Err) :=
  match dictionary with
  | [] =>
      Normal ([], Some (lit "word '" ++ lit "undefined" ++ lit "' at index " ++ lit (pretty i)
                          ++ lit " not found in dictionary"))
  | _ :: _ => Throw TypeError
  end.

(** [seedWordsToSeed] on an array that may hold [undefined]. *)
Fixpoint packWords (seedWords : list (option jsstring)) (i : nat) (st : packing)
  : completion (bytes * Err) :=
  match seedWords with
  | [] => Normal (packed st, None)
  | None :: _ => undefinedWord i
  | Some seedWord :: rest =>
      match findWord DICTIONARY_UNIQUE_PREFIX dictionary 0 seedWord with
      | None =>
          Normal ([], Some (lit "word '" ++ seedWord ++ lit "' at index " ++ lit (pretty i)
                              ++ lit " not found in dictionary"))
      | Some word =>
          let wordBits := if decide (i = SEED_ENTROPY_WORDS - 1) then 8 else 10 in
          packWords rest (S i) (packBits (N.of_nat word) wordBits st)
      end
  end.

Definition seedWordsToSeed (seedWords : list (option jsstring)) : completion (bytes * Err) :=
  if decide (length seedWords ≠ SEED_ENTROPY_WORDS)
  then Normal ([], Some (lit "Seed words should have length "
                           ++ lit (pretty SEED_ENTROPY_WORDS)
                           ++ lit " but has length " ++ lit (pretty (length seedWords))))
  else packWords seedWords 0 {| packed := u8_new SEED_BYTES; curByte := 0; curBit := 0 |}.

(** [allWords.join(" ")]: an [undefined] element is joined as the empty
    string. *)
Definition joinWords (allWords : list (option jsstring)) : jsstring :=
  Skyfile.joinWith space (map (default []) allWords).

(** The part both generators share, from "Convert the seedWords to a seed"
    on. *)
Definition assemblePhrase (seedWords : list (option jsstring)) : completion (jsstring * Err) :=
  r <- seedWordsToSeed seedWords ;;;
  match r with
  | (_, Some err1) => Normal (lit "", Some err1)
  | (seed, None) =>
      match Seed.seedToChecksumWords dictionary sha512 seed with
      | (_, _, Some err2) => Normal (lit "", Some err2)
      | (checksumOne, checksumTwo, None) =>
          let allWords := seedWords ++ [checksumOne; checksumTwo] in
          let seedPhrase := joinWords allWords in
          Normal (seedPhrase, None)
      end
  end.

Definition generateSeedPhraseDeterministic (password : jsstring)
  : completion (jsstring * Err) :=
  let u8 := Text.encode password in
  let buf := sha512 u8 in
  let randNums := Uint16Array_from buf in
  let seedWords :=
    map (fun i =>
           if decide (i = SEED_ENTROPY_WORDS - 1)
           then wordAt (remainderOfQuarter (randNums !! i) (length dictionary))
           else wordAt (remainder (randNums !! i) (length dictionary)))
      (seq 0 SEED_ENTROPY_WORDS) in
  assemblePhrase seedWords.

(** [generateSeedPhrase] of libkerneldev; [random] is what
    [randomBytes(24)] returns. *)
Definition generateSeedPhrase (password : option jsstring) (random : bytes)
  : completion (jsstring * Err) :=
  let randNums :=
    match password with
    | None => Uint16Array_from random
    | Some password => Uint16Array_from (sha512 (Text.encode password))
    end in
  let seedWords :=
    map (fun i => wordAt (remainder (randNums !! i) (length dictionary)))
      (seq 0 SEED_ENTROPY_WORDS) in
  assemblePhrase seedWords.

(** [generateSeedPhraseRandom]; [random] is what [randomBytes(32)]
    returns. *)
Definition generateSeedPhraseRandom (random : bytes) : completion (jsstring * Err) :=
  let buf := random in
  let str := bufToB64 buf in
  r <- generateSeedPhraseDeterministic str ;;;
  match r with
  | (_, Some errGSPD) =>
      Normal (lit "", Some (addContextToErr errGSPD (lit "unable to generate seed from string")))
  | (sp, None) => Normal (sp, None)
  end.

(** *** What a successful run leaves *)

Lemma packWords_defined (ws : list jsstring) (i : nat) (st : packing) :
  packWords (map Some ws) i st
  = Normal (Seed.packWords dictionary DICTIONARY_UNIQUE_PREFIX ws i st).
Proof.
  revert i st. induction ws as [|w ws IH]; intros i st; cbn [map packWords Seed.packWords];
    [reflexivity|].
  destruct (findWord _ dictionary 0 w); [apply IH | reflexivity].
Qed.

Lemma undefinedWord_fails (i : nat) (r : bytes * Err) :
  undefinedWord i = Normal r -> snd r <> None.
Proof. unfold undefinedWord. destruct dictionary; [by intros [= <-] | discriminate]. Qed.

Lemma packWords_normal (seedWords : list (option jsstring)) (i : nat) (st : packing)
  (r : bytes * Err) :
  packWords seedWords i st = Normal r ->
  snd r = None ->
  exists ws, seedWords = map Some ws.
Proof.
  revert i st. induction seedWords as [|[w|] rest IH]; intros i st; cbn [packWords].
  - intros _ _. by exists [].
  - destruct (findWord _ dictionary 0 w); [|by intros [= <-]].
    intros H Hr. destruct (IH _ _ H Hr) as [ws ->]. by exists (w :: ws).
  - intros H Hr. by apply undefinedWord_fails in H.
Qed.

Lemma seedWordsToSeed_normal (seedWords : list (option jsstring)) (seed : bytes) :
  seedWordsToSeed seedWords = Normal (seed, None) ->
  exists ws, seedWords = map Some ws /\
             Seed.seedWordsToSeed dictionary DICTIONARY_UNIQUE_PREFIX ws = (seed, None).
Proof.
  unfold seedWordsToSeed, Seed.seedWordsToSeed.
  destruct (decide (length seedWords ≠ SEED_ENTROPY_WORDS)) as [?|Hlen]; [discriminate|].
  intros H. destruct (packWords_normal _ _ _ _ H eq_refl) as [ws ->].
  exists ws. split; [reflexivity|]. rewrite length_map in Hlen.
  destruct (decide (length ws ≠ SEED_ENTROPY_WORDS)); [done|].
  rewrite packWords_defined in H. by injection H.
Qed.

(** What a successful [assemblePhrase] leaves: the 13 words, the seed they
    pack to, the checksum words, and the phrase. *)
Lemma assemblePhrase_normal (seedWords : list (option jsstring)) (seedPhrase : jsstring) :
  assemblePhrase seedWords = Normal (seedPhrase, None) ->
  exists (ws : list jsstring) (seed : bytes) (checksumOne checksumTwo : option jsstring),
    seedWords = map Some ws /\ length ws = 13 /\ length seed = 16 /\
    Seed.seedWordsToSeed dictionary DICTIONARY_UNIQUE_PREFIX ws = (seed, None) /\
    Seed.seedToChecksumWords dictionary sha512 seed = (checksumOne, checksumTwo, None) /\
    seedPhrase
    = Skyfile.joinWith space (ws ++ [default [] checksumOne; default [] checksumTwo]).
Proof.
  unfold assemblePhrase.
  destruct (seedWordsToSeed seedWords) as [[seed [e|]]|] eqn:Hs; cbn [bind];
    [discriminate| |discriminate].
  destruct (seedWordsToSeed_normal _ _ Hs) as (ws & -> & Hws).
  destruct (Seed.seedToChecksumWords dictionary sha512 seed) as [[c1 c2] [e|]] eqn:Hc;
    [discriminate|].
  intros [= <-]. exists ws, seed, c1, c2.
  destruct (seedWordsToSeed_success dictionary DICTIONARY_UNIQUE_PREFIX ws seed Hws)
    as [Hwords Hlen].
  split; [reflexivity|]. split; [exact Hwords|].
  split; [exact Hlen|]. split; [exact Hws|]. split; [exact Hc|].
  unfold joinWords. rewrite map_app, map_map. cbn [map default from_option id].
  by rewrite map_id.
Qed.

Section Valid.

(** No dictionary word contains a space. *)
Hypothesis dictionary_no_space : forall d, In d dictionary -> ~ In space d.

Lemma assembled_split (ws : list jsstring) (checksumOne checksumTwo : option jsstring) :
  Forall (fun w => In w dictionary) ws ->
  (forall d, checksumOne = Some d -> In d dictionary) ->
  (forall d, checksumTwo = Some d -> In d dictionary) ->
  split space
    (Skyfile.joinWith space (ws ++ [default [] checksumOne; default [] checksumTwo]))
  = ws ++ [default [] checksumOne; default [] checksumTwo].
Proof.
  intros Hws H1 H2. apply Skyfile.split_joinWith; [by destruct ws|].
  intros w Hw. apply in_app_or in Hw as [Hw|[<-|[<-|[]]]].
  - rewrite Forall_forall in Hws. apply dictionary_no_space, Hws.
    by apply list_elem_of_In.
  - destruct checksumOne as [d|]; [by apply dictionary_no_space, H1 | by intros []].
  - destruct checksumTwo as [d|]; [by apply dictionary_no_space, H2 | by intros []].
Qed.

Lemma wordAt_in (k : option N) (d : jsstring) : wordAt k = Some d -> In d dictionary.
Proof.
  destruct k as [k|]; [|discriminate]. cbn [wordAt]. intros H.
  apply list_elem_of_In, list_elem_of_lookup. by eexists.
Qed.

(** *** Which words a generated phrase can contain *)

Definition amongFirst (n : nat) (d : jsstring) : Prop :=
  exists j, j < n /\ dictionary !! j = Some d.

Lemma Uint16Array_from_lt (buf : bytes) (i : nat) (r : N) :
  Uint16Array_from buf !! i = Some r -> (r < 256)%N.
Proof.
  unfold Uint16Array_from. intros H.
  apply (list_lookup_fmap_Some Byte.to_N buf i r) in H as (b & ? & ?). subst r.
  pose proof (Byte.to_N_bounded b). lia.
Qed.

Lemma wordAt_remainder (buf : bytes) (i : nat) (d : jsstring) :
  wordAt (remainder (Uint16Array_from buf !! i) (length dictionary)) = Some d ->
  amongFirst 256 d.
Proof.
  destruct (Uint16Array_from buf !! i) as [r|] eqn:Hr; [|discriminate].
  apply Uint16Array_from_lt in Hr. cbn [remainder].
  destruct (decide (length dictionary = 0)); [discriminate|]. cbn [wordAt].
  intros Hd. exists (N.to_nat (r mod N.of_nat (length dictionary))). split; [|exact Hd].
  pose proof (N.Div0.mod_le r (N.of_nat (length dictionary))). lia.
Qed.

Lemma wordAt_remainderOfQuarter (buf : bytes) (i : nat) (d : jsstring) :
  wordAt (remainderOfQuarter (Uint16Array_from buf !! i) (length dictionary)) = Some d ->
  amongFirst 256 d.
Proof.
  destruct (Uint16Array_from buf !! i) as [r|] eqn:Hr; [|discriminate].
  apply Uint16Array_from_lt in Hr. cbn [remainderOfQuarter].
  destruct (decide (length dictionary = 0)); [discriminate|]. cbv zeta.
  destruct (decide (_ = 0)%N); [|discriminate]. cbn [wordAt].
  intros Hd. eexists. split; [|exact Hd].
  pose proof (N.Div0.mod_le (4 * r) (N.of_nat (length dictionary))).
  assert (((4 * r) mod N.of_nat (length dictionary)) / 4 <= r)%N; [|lia].
  transitivity ((4 * r) / 4)%N; [by apply N.Div0.div_le_mono|].
  rewrite N.mul_comm, N.div_mul by done. lia.
Qed.

Lemma assembled_words (seedWords : list (option jsstring)) (seedPhrase : jsstring) :
  Forall (fun w => forall d, w = Some d -> amongFirst 256 d) seedWords ->
  assemblePhrase seedWords = Normal (seedPhrase, None) ->
  length (split space seedPhrase) = 15 /\
  Forall (amongFirst 256) (take SEED_ENTROPY_WORDS (split space seedPhrase)).
Proof.
  intros Hin Hrun.
  destruct (assemblePhrase_normal _ _ Hrun)
    as (ws & seed & c1 & c2 & -> & Hlen & Hseed & Hws & Hc & ->).
  destruct (seedToChecksumWords_words dictionary sha512 seed c1 c2 Hc)
    as (i1 & i2 & Hc1 & Hc2 & _).
  assert (Hws' : Forall (amongFirst 256) ws).
  { apply Forall_forall. intros w Hw. rewrite Forall_forall in Hin.
    apply (Hin (Some w)); [|reflexivity]. apply list_elem_of_fmap. by exists w. }
  rewrite assembled_split.
  - split; [rewrite length_app; cbn [length]; lia|].
    by rewrite take_app_length' by (unfold SEED_ENTROPY_WORDS; lia).
  - eapply Forall_impl; [exact Hws'|]. intros w (j & _ & Hj).
    apply list_elem_of_In, list_elem_of_lookup. by eexists.
  - intros d ->. apply list_elem_of_In, list_elem_of_lookup. by eexists.
  - intros d ->. apply list_elem_of_In, list_elem_of_lookup. by eexists.
Qed.

(** X16: a generated phrase has 15 words, and each of its 13 entropy words
    is one of the first 256 entries of the dictionary: a word is chosen by
    one byte of the hash or of the random bytes. *)
Theorem generated_words_are_among_the_first_256 (seedPhrase : jsstring) :
  (exists password, generateSeedPhraseDeterministic password = Normal (seedPhrase, None)) \/
  (exists password random, generateSeedPhrase password random = Normal (seedPhrase, None)) \/
  (exists random, generateSeedPhraseRandom random = Normal (seedPhrase, None)) ->
  length (split space seedPhrase) = 15 /\
  Forall (amongFirst 256) (take SEED_ENTROPY_WORDS (split space seedPhrase)).
Proof.
  assert (Hdet : forall password,
             generateSeedPhraseDeterministic password = Normal (seedPhrase, None) ->
             length (split space seedPhrase) = 15 /\
             Forall (amongFirst 256) (take SEED_ENTROPY_WORDS (split space seedPhrase))).
  { intros password. unfold generateSeedPhraseDeterministic. apply assembled_words.
    apply Forall_forall. intros w Hw d ->.
    apply list_elem_of_fmap in Hw as (i & Hi & _). symmetry in Hi.
    destruct (decide (i = _)).
    - by apply wordAt_remainderOfQuarter in Hi.
    - by apply wordAt_remainder in Hi. }
  intros [[password H]|[(password & random & H)|[random H]]].
  - by apply (Hdet password).
  - revert H. unfold generateSeedPhrase. apply assembled_words.
    apply Forall_forall. intros w Hw d ->.
    apply list_elem_of_fmap in Hw as (i & Hi & _). symmetry in Hi.
    destruct password; by apply wordAt_remainder in Hi.
  - unfold generateSeedPhraseRandom in H.
    destruct (generateSeedPhraseDeterministic (bufToB64 random))
      as [[sp [e|]]|] eqn:E; cbn [bind] in H; try discriminate.
    injection H as ->. by apply (Hdet (bufToB64 random)).
Qed.

(** *** Generated phrases are accepted *)

Section Size.

(** The dictionary has at least 1024 words. *)
Hypothesis dictionary_size : 1024 <= length dictionary.

Lemma assembled_valid (seedWords : list (option jsstring)) (seedPhrase : jsstring) :
  Forall (fun w => forall d, w = Some d -> In d dictionary) seedWords ->
  assemblePhrase seedWords = Normal (seedPhrase, None) ->
  exists seed : bytes,
    Seed.validSeedPhrase dictionary DICTIONARY_UNIQUE_PREFIX sha512 seedPhrase
    = Normal (seed, None) /\
    length seed = 16.
Proof.
  intros Hin Hrun.
  destruct (assemblePhrase_normal _ _ Hrun)
    as (ws & seed & c1 & c2 & -> & Hlen & Hseed & Hws & Hc & ->).
  exists seed. split; [|exact Hseed].
  destruct (seedToChecksumWords_words dictionary sha512 seed c1 c2 Hc)
    as (i1 & i2 & Hc1 & Hc2 & Hi1 & Hi2).
  destruct (lookup_lt_is_Some_2 dictionary (N.to_nat i1)) as [d1 Hd1]; [lia|].
  destruct (lookup_lt_is_Some_2 dictionary (N.to_nat i2)) as [d2 Hd2]; [lia|].
  rewrite Hd1 in Hc1. rewrite Hd2 in Hc2. subst c1 c2.
  assert (Hws' : Forall (fun w => In w dictionary) ws).
  { apply Forall_forall. intros w Hw. rewrite Forall_forall in Hin.
    apply (Hin (Some w)); [|reflexivity]. apply list_elem_of_fmap. by exists w. }
  unfold Seed.validSeedPhrase. rewrite assembled_split; try assumption.
  - rewrite take_app_length' by (unfold SEED_ENTROPY_WORDS; lia).
    rewrite Hws, Hc.
    rewrite (lookup_app_r ws) by (unfold SEED_ENTROPY_WORDS; lia).
    rewrite (lookup_app_r ws) by (unfold SEED_ENTROPY_WORDS; lia).
    rewrite Hlen. unfold SEED_ENTROPY_WORDS.
    cbn [Nat.sub Nat.add lookup list_lookup default from_option id Seed.prefix bind].
    destruct (decide (_ ≠ _)); [done|]. by destruct (decide (_ ≠ _)).
  - intros d [= <-]. apply list_elem_of_In, list_elem_of_lookup. by eexists.
  - intros d [= <-]. apply list_elem_of_In, list_elem_of_lookup. by eexists.
Qed.

(** X17: every phrase the generators return is accepted by
    [validSeedPhrase], with a 16-byte seed. *)
Theorem generated_phrases_are_valid (seedPhrase : jsstring) :
  (exists password, generateSeedPhraseDeterministic password = Normal (seedPhrase, None)) \/
  (exists password random, generateSeedPhrase password random = Normal (seedPhrase, None)) \/
  (exists random, generateSeedPhraseRandom random = Normal (seedPhrase, None)) ->
  exists seed : bytes,
    Seed.validSeedPhrase dictionary DICTIONARY_UNIQUE_PREFIX sha512 seedPhrase
    = Normal (seed, None) /\
    length seed = 16.
Proof.
  assert (Hdet : forall password,
             generateSeedPhraseDeterministic password = Normal (seedPhrase, None) ->
             exists seed : bytes,
               Seed.validSeedPhrase dictionary DICTIONARY_UNIQUE_PREFIX sha512 seedPhrase
               = Normal (seed, None) /\ length seed = 16).
  { intros password. unfold generateSeedPhraseDeterministic. apply assembled_valid.
    apply Forall_forall. intros w Hw d ->.
    apply list_elem_of_fmap in Hw as (i & Hi & _).
    destruct (decide (i = _)); symmetry in Hi; by apply wordAt_in in Hi. }
  intros [[password H]|[(password & random & H)|[random H]]].
  - by apply (Hdet password).
  - revert H. unfold generateSeedPhrase. apply assembled_valid.
    apply Forall_forall. intros w Hw d ->.
    apply list_elem_of_fmap in Hw as (i & Hi & _).
    symmetry in Hi. by apply wordAt_in in Hi.
  - unfold generateSeedPhraseRandom in H.
    destruct (generateSeedPhraseDeterministic (bufToB64 random))
      as [[sp [e|]]|] eqn:E; cbn [bind] in H; try discriminate.
    injection H as ->. by apply (Hdet (bufToB64 random)).
Qed.

End Size.

End Valid.

End Dictionary.

End SeedGenerate.

(** ** Progressive fetch: what every run does *)

Module FetchFacts.
Import ProgressiveFetch.

Local Open Scope Z_scope.

Section Fetch.

Variable FetchOpts : Type.
Variable World : Type.
Variable fetch : World -> jsstring -> FetchOpts -> fetchOutcome * World.

Local Abbreviation heap := (ProgressiveFetch.heap FetchOpts).
Local Abbreviation strings := (ProgressiveFetch.strings FetchOpts).
Local Abbreviation outcomes := (ProgressiveFetch.outcomes FetchOpts).
Local Abbreviation lines := (ProgressiveFetch.lines FetchOpts).
Local Abbreviation tryInOrder := (ProgressiveFetch.tryInOrder FetchOpts World fetch).
Local Abbreviation fetchInOrder := (ProgressiveFetch.fetchInOrder FetchOpts World fetch).
Local Abbreviation progressiveFetch := (ProgressiveFetch.progressiveFetch FetchOpts World fetch).
Local Abbreviation failedPortals := (ProgressiveFetch.failedPortals FetchOpts World).
Local Abbreviation failedOutcomes := (ProgressiveFetch.failedOutcomes FetchOpts World).
Local Abbreviation winner := (ProgressiveFetch.winner FetchOpts World).
Local Abbreviation untried := (ProgressiveFetch.untried FetchOpts World).
Local Abbreviation worldAfter := (ProgressiveFetch.worldAfter FetchOpts World).

(** The portal of a result as a list: empty for [null]. *)
Definition portalOf (res : Result.t) : list jsstring := option_list (Result.portal res).

(** The response of a result as the list of what was fetched. *)
Definition responseOf (res : Result.t) : list fetchOutcome :=
  option_list (Resolved <$> Result.response res).

Lemma fetchInOrder_app (endpoint : jsstring) (fetchOpts : FetchOpts) (w : World)
  (ps qs : list jsstring) :
  fetchInOrder endpoint fetchOpts w (ps ++ qs)
  = let '(os, w1) := fetchInOrder endpoint fetchOpts w ps in
    let '(os', w2) := fetchInOrder endpoint fetchOpts w1 qs in
    (os ++ os', w2).
Proof.
  revert w. induction ps as [|p ps IH]; intros w; cbn [app ProgressiveFetch.fetchInOrder].
  - by destruct (fetchInOrder endpoint fetchOpts w qs).
  - destruct (fetch w (queryOf endpoint p) fetchOpts) as [o w']. rewrite IH.
    destruct (fetchInOrder endpoint fetchOpts w' ps) as [os w1].
    by destruct (fetchInOrder endpoint fetchOpts w1 qs).
Qed.

(** A trail splits the portals into the failed ones, the accepted one and
    the ones not tried; the first two groups are what was fetched. *)
Lemma tryInOrder_partition (endpoint : jsstring) (fetchOpts : FetchOpts) (w : World)
  (portals : list jsstring) :
  let t := tryInOrder endpoint fetchOpts w portals in
  portals = failedPortals t ++ option_list (fst <$> winner t) ++ untried t /\
  length (failedOutcomes t) = length (failedPortals t) /\
  Forall failedAttempt (failedOutcomes t) /\
  (winner t = None -> untried t = []) /\
  fetchInOrder endpoint fetchOpts w (failedPortals t ++ option_list (fst <$> winner t))
  = (failedOutcomes t ++ option_list (Resolved <$> (snd <$> winner t)), worldAfter t).
Proof.
  revert w. induction portals as [|p rest IH]; intros w;
    cbn [ProgressiveFetch.tryInOrder].
  - cbn. by repeat split.
  - destruct (fetch w (queryOf endpoint p) fetchOpts) as [o w'] eqn:Hf.
    destruct (accepted o) as [r|] eqn:Ha.
    + apply accepted_inv in Ha as [-> _]. cbn -[queryOf]. rewrite Hf. by repeat split.
    + destruct (IH w') as (H1 & H2 & H3 & H4 & H5). cbn zeta.
      cbn [ProgressiveFetch.failedPortals ProgressiveFetch.failedOutcomes
           ProgressiveFetch.winner ProgressiveFetch.untried ProgressiveFetch.worldAfter].
      repeat split.
      * cbn [app]. by rewrite <- H1.
      * cbn [length]. by rewrite H2.
      * apply Forall_cons. split; [by apply failedAttempt_accepted | exact H3].
      * exact H4.
      * cbn [app ProgressiveFetch.fetchInOrder]. by rewrite Hf, H5.
Qed.

(** The run of [progressiveFetch] with everything it leaves in memory. *)
Lemma progressiveFetch_run_full (endpoint : jsstring) (fetchOpts : FetchOpts)
  (portals : loc) (w : World) (h : heap) (hosts : list jsstring) :
  strings h !! portals = Some hosts ->
  let t := tryInOrder endpoint fetchOpts w hosts in
  exists (res : Result.t) (h' : heap),
    progressiveFetch endpoint fetchOpts portals w h = Some (res, worldAfter t, h') /\
    (Result.portal res = fst <$> winner t /\
     Result.response res = snd <$> winner t /\
     Result.remainingPortals res
     = match winner t with Some _ => Some portals | None => None end) /\
    (strings h' !! portals = Some (untried t) /\
     strings h' !! Result.portalsFailed res = Some (failedPortals t) /\
     outcomes h' !! Result.responsesFailed res = Some (failedOutcomes t)) /\
    ((Result.portalsFailed res ∉ dom (strings h)) /\
     (Result.responsesFailed res ∉ dom (outcomes h)) /\
     (Result.logs res ∉ dom (lines h))) /\
    (forall l, l <> portals -> l <> Result.portalsFailed res ->
               strings h' !! l = strings h !! l) /\
    (forall l, l <> Result.responsesFailed res -> outcomes h' !! l = outcomes h !! l) /\
    (forall l, l <> Result.logs res -> lines h' !! l = lines h !! l).
Proof.
  intros Hp t. unfold ProgressiveFetch.progressiveFetch, newStrings, newOutcomes, newLines.
  set (pf := fresh (dom (strings h))).
  set (h1 := writeStrings FetchOpts h pf []).
  set (rf := fresh (dom (outcomes h1))).
  set (h2 := writeOutcomes FetchOpts h1 rf []).
  set (lg := fresh (dom (lines h2))).
  set (h3 := writeLines FetchOpts h2 lg []).
  set (pfm := {| Midstate.endpoint := endpoint; Midstate.fetchOpts := fetchOpts;
                 Midstate.portalsFailed := pf; Midstate.responsesFailed := rf;
                 Midstate.remainingPortals := portals; Midstate.logs := lg |}).
  assert (Hne : pf <> portals).
  { intros Heq. apply (is_fresh (dom (strings h))). fold pf. rewrite Heq.
    apply elem_of_dom. by eexists. }
  assert (Hp3 : strings h3 !! portals = Some hosts).
  { subst h3 h2 h1. cbn. by rewrite lookup_insert_ne. }
  destruct (helper_run FetchOpts World fetch pfm hosts (not_eq_sym Hne)
              (S (length (readStrings FetchOpts h3 portals))) w h3 [] [] [])
    as (h' & Hrun & [H1 H2 H3 H4 H5 H6 H7]).
  - unfold readStrings. rewrite Hp3. cbn. lia.
  - exact Hp3.
  - subst h3 h2 h1. cbn. by rewrite lookup_insert_eq.
  - subst h3 h2. cbn. by rewrite lookup_insert_eq.
  - subst h3. cbn. by rewrite lookup_insert_eq.
  - exists (resultOf FetchOpts World pfm t), h'. split; [exact Hrun|].
    split; [by repeat split|]. split; [by repeat split|]. split; [|split; [|split]].
    + cbn. repeat split; apply is_fresh.
    + intros l Hl1 Hl2. cbn in Hl2. rewrite H5 by done. subst h3 h2 h1. cbn.
      by rewrite lookup_insert_ne.
    + intros l Hl. cbn in Hl. rewrite H6 by done. subst h3 h2. cbn.
      by rewrite lookup_insert_ne.
    + intros l Hl. cbn in Hl. rewrite H7 by done. subst h3. cbn.
      by rewrite lookup_insert_ne.
Qed.

(** X18: whatever the portals answer, a run accounts for every portal
    once: the caller's list is the failed portals, then the accepted one if
    there is one, then the portals left in the caller's array, which is
    empty when no portal was accepted.  Every recorded answer is a failed
    attempt, there is one for each failed portal, and requests went to the
    failed and the accepted portals only, each once and in this order. *)
Theorem progressiveFetch_accounts_for_every_portal (endpoint : jsstring)
  (fetchOpts : FetchOpts) (portals : loc) (w w' : World) (h h' : heap)
  (hosts : list jsstring) (res : Result.t) :
  strings h !! portals = Some hosts ->
  progressiveFetch endpoint fetchOpts portals w h = Some (res, w', h') ->
  exists (failed remaining : list jsstring) (os : list fetchOutcome),
    strings h' !! Result.portalsFailed res = Some failed /\
    outcomes h' !! Result.responsesFailed res = Some os /\
    strings h' !! portals = Some remaining /\
    hosts = failed ++ portalOf res ++ remaining /\
    (Result.portal res = None -> remaining = []) /\
    length os = length failed /\
    Forall failedAttempt os /\
    fetchInOrder endpoint fetchOpts w (failed ++ portalOf res) = (os ++ responseOf res, w').
Proof.
  intros Hp Hrun.
  destruct (progressiveFetch_run_full endpoint fetchOpts portals w h hosts Hp)
    as (res' & h'' & Hrun' & (R1 & R2 & _) & (M1 & M2 & M3) & _).
  rewrite Hrun in Hrun'. injection Hrun' as <- -> <-.
  destruct (tryInOrder_partition endpoint fetchOpts w hosts) as (T1 & T2 & T3 & T4 & T5).
  eexists _, _, _. split; [exact M2|]. split; [exact M3|]. split; [exact M1|].
  unfold portalOf, responseOf. rewrite R1, R2.
  split; [exact T1|]. split; [|by repeat split].
  intros Hn. apply T4. by destruct (winner _).
Qed.

(** X19: a run changes no array that existed before the call other than
    the caller's portal list, and the three arrays of its result are new
    ones. *)
Theorem progressiveFetch_leaves_other_arrays_alone (endpoint : jsstring)
  (fetchOpts : FetchOpts) (portals : loc) (w w' : World) (h h' : heap)
  (hosts : list jsstring) (res : Result.t) :
  strings h !! portals = Some hosts ->
  progressiveFetch endpoint fetchOpts portals w h = Some (res, w', h') ->
  ((Result.portalsFailed res ∉ dom (strings h)) /\
   (Result.responsesFailed res ∉ dom (outcomes h)) /\
   (Result.logs res ∉ dom (lines h))) /\
  (forall l, l ∈ dom (strings h) -> l <> portals -> strings h' !! l = strings h !! l) /\
  (forall l, l ∈ dom (outcomes h) -> outcomes h' !! l = outcomes h !! l) /\
  (forall l, l ∈ dom (lines h) -> lines h' !! l = lines h !! l).
Proof.
  intros Hp Hrun.
  destruct (progressiveFetch_run_full endpoint fetchOpts portals w h hosts Hp)
    as (res' & h'' & Hrun' & _ & _ & (N1 & N2 & N3) & F1 & F2 & F3).
  rewrite Hrun in Hrun'. injection Hrun' as <- _ <-.
  split; [by repeat split|]. split; [|split].
  - intros l Hl Hne. apply F1; [exact Hne|]. by intros ->.
  - intros l Hl. apply F2. by intros ->.
  - intros l Hl. apply F3. by intros ->.
Qed.

(** X20: calling [progressiveFetch] again with the [remainingPortals] of a
    successful result goes on where the first call stopped.  The two calls
    together split the original list into the portals that failed in the
    first call, the portal it accepted, the portals that failed in the
    second call, the portal that one accepted if any, and the portals still
    left; the failed list of the first result is not touched by the second
    call. *)
Theorem retry_continues_with_the_untried_portals (endpoint endpoint' : jsstring)
  (fetchOpts fetchOpts' : FetchOpts) (portals retry : loc) (w w1 w2 : World)
  (h h1 h2 : heap) (hosts : list jsstring) (res1 res2 : Result.t) :
  strings h !! portals = Some hosts ->
  progressiveFetch endpoint fetchOpts portals w h = Some (res1, w1, h1) ->
  Result.remainingPortals res1 = Some retry ->
  progressiveFetch endpoint' fetchOpts' retry w1 h1 = Some (res2, w2, h2) ->
  exists (failed1 failed2 remaining : list jsstring) (accepted1 : jsstring),
    retry = portals /\
    Result.portal res1 = Some accepted1 /\
    strings h2 !! Result.portalsFailed res1 = Some failed1 /\
    strings h2 !! Result.portalsFailed res2 = Some failed2 /\
    strings h2 !! portals = Some remaining /\
    hosts = failed1 ++ accepted1 :: failed2 ++ portalOf res2 ++ remaining.
Proof.
  intros Hp Hrun1 Hrp Hrun2.
  destruct (progressiveFetch_run_full endpoint fetchOpts portals w h hosts Hp)
    as (res' & h'' & Hrun' & (R1 & _ & R3) & (M1 & M2 & _) & (N1 & _) & _).
  rewrite Hrun1 in Hrun'. injection Hrun' as <- _ <-.
  destruct (tryInOrder_partition endpoint fetchOpts w hosts) as (T1 & _).
  rewrite Hrp in R3.
  destruct (winner (tryInOrder endpoint fetchOpts w hosts)) as [[p1 r1]|] eqn:Hw;
    [|discriminate].
  injection R3 as ->.
  destruct (progressiveFetch_run_full endpoint' fetchOpts' portals w1 h1 _ M1)
    as (res' & h'' & Hrun' & (R1' & _) & (M1' & M2' & _) & (N1' & _) & F1' & _).
  rewrite Hrun2 in Hrun'. injection Hrun' as <- _ <-.
  destruct (tryInOrder_partition endpoint' fetchOpts' w1
              (untried (tryInOrder endpoint fetchOpts w hosts))) as (T1' & _).
  eexists _, _, _, p1. split; [reflexivity|]. split; [exact R1|].
  split; [|split; [exact M2'|split; [exact M1'|]]].
  - rewrite F1'; [exact M2| |].
    + intros Heq. apply N1. rewrite Heq. apply elem_of_dom. by eexists.
    + intros Heq. apply N1'. rewrite <- Heq. apply elem_of_dom. by eexists.
  - unfold portalOf. rewrite R1'. rewrite <- T1'. exact T1.
Qed.

End Fetch.

End FetchFacts.

(** ** Values decoded from JSON or received by [postMessage] *)

Module Value.

#[local] Set Warnings "-register-all".

(** Data as [JSON.parse] and the structured clone of [postMessage] deliver
    it: no functions, no symbols.  A number is kept as the integer it is,
    or as [None] when it is not an integer ([1.5], [NaN], an infinity). *)
Inductive value :=
| Undefined
| Null
| Boolean (b : bool)
| Number (n : option Z)
| BigInt (n : Z)
| String (s : jsstring)
| Array (elems : list value)
| Uint8Array (u8 : bytes)
| Object (fields : list (jsstring * value)).

(** The first field with the given name. *)
Fixpoint field (name : jsstring) (fields : list (jsstring * value)) : option value :=
  match fields with
  | [] => None
  | (k, v) :: rest => if decide (k = name) then Some v else field name rest
  end.

(** [name in v], for a name that is no array index, not [length] and not a
    property of the built-in prototypes: the operator throws on a value
    that is not an object. *)
Definition hasProperty (name : jsstring) (v : value) : completion bool :=
  match v with
  | Object fields => Normal (bool_decide (is_Some (field name fields)))
  | Array _ | Uint8Array _ => Normal false
  | Undefined | Null | Boolean _ | Number _ | BigInt _ | String _ => Throw TypeError
  end.

(** [v.name] for such a name. *)
Definition getProperty (name : jsstring) (v : value) : completion value :=
  match v with
  | Object fields => Normal (default Undefined (field name fields))
  | Undefined | Null => Throw TypeError
  | _ => Normal Undefined
  end.

(** [typeof v]. *)
Definition typeOf (v : value) : jsstring :=
  match v with
  | Undefined => lit "undefined"
  | Boolean _ => lit "boolean"
  | Number _ => lit "number"
  | BigInt _ => lit "bigint"
  | String _ => lit "string"
  | Null | Array _ | Uint8Array _ | Object _ => lit "object"
  end.

(** [v.length], read as a number of elements. *)
Definition lengthOf (v : value) : option nat :=
  match v with
  | String s => Some (length s)
  | Array elems => Some (length elems)
  | Uint8Array u8 => Some (length u8)
  | _ => None
  end.

(** [v.IsArray()]: no value has a method of that name ([Array.isArray] is a
    function of the constructor), and a field of that name holding data is
    not callable, so the call throws whatever [v] is. *)
Definition callIsArray (v : value) : completion bool := Throw TypeError.

End Value.

(** ** Skyfile metadata ([validateSkyfileMetadata]) *)

Module SkyfileMetadata.
Import Value Skyfile.

Definition validateSkyfileMetadata (metadata : value) : completion Err :=
  (* Check that the filename is valid. *)
  hasFilename <- hasProperty (lit "Filename") metadata ;;;
  if negb hasFilename then Normal (Some (lit "metadata.Filename does not exist")) else
  filename <- getProperty (lit "Filename") metadata ;;;
  match filename with
  | String path =>
      match validateSkyfilePath path with
      | Some errVSP =>
          Normal (Some (addContextToErr errVSP
                          (lit "metadata.Filename does not have a valid path")))
      | None =>
          (* Check that there are no subfiles. *)
          hasSubfiles <- hasProperty (lit "Subfiles") metadata ;;;
          if hasSubfiles then Normal (Some (lit "cannot upload files that have subfiles")) else
          (* Check that the default path rules are being respected. *)
          hasDisable <- hasProperty (lit "DisableDefaultPath") metadata ;;;
          hasDefault <- hasProperty (lit "DefaultPath") metadata ;;;
          if hasDisable && hasDefault
          then Normal (Some (lit "cannot set both a DefaultPath and also DisableDefaultPath"))
          else if hasDefault
          then Normal (Some (lit "cannot set a default path if there are no subfiles"))
          else
          hasTryFiles <- hasProperty (lit "TryFiles") metadata ;;;
          if hasTryFiles then
            tryFiles <- getProperty (lit "TryFiles") metadata ;;;
            isArray <- callIsArray tryFiles ;;;
            if negb isArray then Normal (Some (lit "metadata.TryFiles must be an array"))
            else if decide (lengthOf tryFiles = Some 0)
            then Normal (Some (lit "metadata.TryFiles should not be empty"))
            else if hasDefault
            then Normal (Some (lit "metadata.TryFiles cannot be used alongside DefaultPath"))
            else if hasDisable
            then Normal (Some (lit "metadata.TryFiles cannot be used alongside DisableDefaultPath"))
            else Normal (Some (lit "TryFiles is not supported at this time"))
          else
          hasErrorPages <- hasProperty (lit "ErrorPages") metadata ;;;
          if hasErrorPages then Normal (Some (lit "ErrorPages is not supported at this time"))
          else Normal None
      end
  | _ => Normal (Some (lit "metadata.Filename is not a string"))
  end.

(** The object has a field of that name. *)
Definition has (name : string) (fields : list (jsstring * value)) : Prop :=
  is_Some (field (lit name) fields).

(** X21: metadata is accepted exactly when it is an object whose
    [Filename] is a string that [validateSkyfilePath] accepts and that has
    none of [Subfiles], [DefaultPath], [TryFiles] and [ErrorPages];
    [DisableDefaultPath] alone is allowed. *)
Theorem validateSkyfileMetadata_accepts_iff (metadata : value) :
  validateSkyfileMetadata metadata = Normal None <->
  exists (fields : list (jsstring * value)) (path : jsstring),
    metadata = Object fields /\
    field (lit "Filename") fields = Some (String path) /\
    validateSkyfilePath path = None /\
    ~ has "Subfiles" fields /\ ~ has "DefaultPath" fields /\
    ~ has "TryFiles" fields /\ ~ has "ErrorPages" fields.
Proof.
  unfold validateSkyfileMetadata, has. split.
  - destruct metadata as [| | | | | | | |fields]; cbn [hasProperty bind negb]; try discriminate.
    destruct (field (lit "Filename") fields) as [filename|] eqn:Hf.
    2:{ rewrite bool_decide_eq_false_2 by (by intros [? ?]). discriminate. }
    rewrite bool_decide_eq_true_2 by (by eexists).
    cbn [negb getProperty bind]. rewrite Hf. cbn [default from_option id].
    destruct filename as [| | | | |path| | |]; cbv beta iota; try discriminate.
    destruct (validateSkyfilePath path) eqn:Hp; [discriminate|].
    destruct (bool_decide (is_Some (field (lit "Subfiles") fields))) eqn:H1;
      [discriminate|].
    destruct (bool_decide (is_Some (field (lit "DisableDefaultPath") fields)));
      destruct (bool_decide (is_Some (field (lit "DefaultPath") fields))) eqn:H2;
      cbn [andb]; try discriminate.
    all: destruct (bool_decide (is_Some (field (lit "TryFiles") fields))) eqn:H3;
      [discriminate|].
    all: destruct (bool_decide (is_Some (field (lit "ErrorPages") fields))) eqn:H4;
      [discriminate|].
    all: intros _; exists fields, path.
    all: apply bool_decide_eq_false in H1, H2, H3, H4; by repeat split.
  - intros (fields & path & -> & Hf & Hp & H1 & H2 & H3 & H4).
    cbn [hasProperty bind getProperty]. rewrite Hf.
    rewrite bool_decide_eq_true_2 by (by eexists).
    cbn [negb default from_option id]. rewrite Hp.
    rewrite (bool_decide_eq_false_2 _ H1), (bool_decide_eq_false_2 _ H2),
      (bool_decide_eq_false_2 _ H3), (bool_decide_eq_false_2 _ H4).
    by rewrite andb_false_r.
Qed.

(** X22: metadata with a valid [Filename], without [Subfiles] and
    [DefaultPath] but with [TryFiles] is not answered with an error string:
    the call of [IsArray] throws a TypeError, whatever [TryFiles] holds. *)
Theorem validateSkyfileMetadata_TryFiles_throws (fields : list (jsstring * value))
  (path : jsstring) :
  field (lit "Filename") fields = Some (String path) ->
  validateSkyfilePath path = None ->
  ~ has "Subfiles" fields -> ~ has "DefaultPath" fields ->
  has "TryFiles" fields ->
  validateSkyfileMetadata (Object fields) = Throw TypeError.
Proof.
  unfold validateSkyfileMetadata, has. intros Hf Hp H1 H2 H3.
  cbn [hasProperty bind getProperty]. rewrite Hf.
  rewrite bool_decide_eq_true_2 by (by eexists).
  cbn [negb default from_option id]. rewrite Hp.
  rewrite (bool_decide_eq_false_2 _ H1), (bool_decide_eq_false_2 _ H2),
    (bool_decide_eq_true_2 _ H3).
  by rewrite andb_false_r.
Qed.

End SkyfileMetadata.

(** ** Checking untrusted objects ([checkObj]) *)

Module CheckObj.

(** The results of [typeof]. *)
Inductive jstype :=
| TUndefined | TObject | TBoolean | TNumber | TBigint | TString | TSymbol | TFunction.

Definition typeName (t : jstype) : jsstring :=
  match t with
  | TUndefined => lit "undefined"
  | TObject => lit "object"
  | TBoolean => lit "boolean"
  | TNumber => lit "number"
  | TBigint => lit "bigint"
  | TString => lit "string"
  | TSymbol => lit "symbol"
  | TFunction => lit "function"
  end.

(** What [checkObj] looks at in [obj[property]]: its [typeof], and whether
    [Array.isArray] holds of it. *)
Record observed := { typeOf : jstype; isArray : bool }.

Definition checkFailed (expectedType type : jsstring) : jsstring :=
  lit "check failed, expecting " ++ expectedType ++ lit " got " ++ type.

(** [checkObj]; [obj] is the reading of its properties, or [None] for
    [null] and [undefined], on which reading a property throws. *)
Fixpoint checkObj (obj : option (jsstring -> observed)) (checks : list (jsstring * jsstring))
  : completion Err :=
  match checks with
  | [] => Normal None
  | (property, expectedType) :: rest =>
      match obj with
      | None => Throw TypeError
      | Some read =>
          let type := typeName (typeOf (read property)) in
          (* special case for array detection *)
          if bool_decide (expectedType = lit "array") && negb (isArray (read property))
          then Normal (Some (checkFailed expectedType type))
          else if decide (type ≠ expectedType)
          then Normal (Some (checkFailed expectedType type))
          else checkObj obj rest
      end
  end.

(** A check passes when [typeof] of the property is the expected name. *)
Definition passes (read : jsstring -> observed) (check : jsstring * jsstring) : Prop :=
  typeName (typeOf (read check.1)) = check.2.

#[local] Instance passes_dec read check : Decision (passes read check).
Proof. unfold passes. apply _. Defined.

Lemma typeName_not_array (t : jstype) : typeName t <> lit "array".
Proof. by destruct t. Qed.

(** X23: [checkObj] returns [null] exactly when every check passes, and
    otherwise reports the first check that does not, with the type it
    found. *)
Theorem checkObj_reports_first_failure (read : jsstring -> observed)
  (checks : list (jsstring * jsstring)) :
  (checkObj (Some read) checks = Normal None <-> Forall (passes read) checks) /\
  (forall (ok rest : list (jsstring * jsstring)) (property expectedType : jsstring),
      checks = ok ++ (property, expectedType) :: rest ->
      Forall (passes read) ok ->
      ~ passes read (property, expectedType) ->
      checkObj (Some read) checks
      = Normal (Some (checkFailed expectedType (typeName (typeOf (read property)))))).
Proof.
  assert (Hstep : forall property expectedType rest,
             checkObj (Some read) ((property, expectedType) :: rest)
             = if decide (passes read (property, expectedType))
               then checkObj (Some read) rest
               else Normal (Some (checkFailed expectedType
                                    (typeName (typeOf (read property)))))).
  { intros property expectedType rest. cbn [checkObj]. unfold passes. cbn [fst snd].
    destruct (decide (typeName (typeOf (read property)) = expectedType)) as [He|Hne].
    - rewrite bool_decide_eq_false_2; [cbn [andb]|].
      + by destruct (decide (_ ≠ _)).
      + rewrite <- He. apply typeName_not_array.
    - destruct (_ && _); [reflexivity|]. by destruct (decide (_ ≠ _)). }
  split.
  - induction checks as [|[property expectedType] rest IH].
    + split; [intros _; apply Forall_nil_2 | reflexivity].
    + rewrite Hstep, Forall_cons.
      destruct (decide (passes read (property, expectedType))) as [Hp|Hp].
      * rewrite IH. tauto.
      * split; [discriminate | tauto].
  - intros ok rest property expectedType -> Hok Hbad.
    induction Hok as [|[p t] ok Hp Hok IH]; cbn [app]; rewrite Hstep.
    + by destruct (decide (passes read (property, expectedType))).
    + by destruct (decide (passes read (p, t))).
Qed.

(** X24: a check that expects ["array"] can never be met: for an array
    [typeof] is ["object"], so [checkObj] never returns [null] when such a
    check is in the list. *)
Theorem checkObj_array_check_never_passes (obj : option (jsstring -> observed))
  (checks : list (jsstring * jsstring)) (property : jsstring) :
  In (property, lit "array") checks ->
  checkObj obj checks <> Normal None.
Proof.
  induction checks as [|[p t] rest IH]; intros Hin; [destruct Hin|].
  cbn [checkObj]. destruct obj as [read|]; [|discriminate].
  destruct (_ && _); [discriminate|].
  destruct (decide (typeName (typeOf (read p)) ≠ t)) as [?|He]; [discriminate|].
  destruct Hin as [[= -> ->]|Hin]; [|by apply IH].
  exfalso. apply He, typeName_not_array.
Qed.

End CheckObj.

(** ** Verifying a registry read ([modules/secure-registry/src/index.ts]) *)

Module SecureRegistry.
Import Value Registry EncodingFacts RegistryFacts.
Import ProgressiveFetch(Response, status, body).

Local Open Scope Z_scope.

Section Primitives.

Variable blake2b : bytes -> bytes.
Variable ed25519Verify : bytes -> bytes -> bytes -> bool.

(** [hexToBuf] and [tryStringify] of libskynet are not among the sources:
    parameters. *)
Variable hexToBuf : jsstring -> bytes * Err.
Variable tryStringify : option Z -> jsstring.

(** [resp.json()]: the decoded body the promise resolves with, or the text
    of the error it rejects with. *)
Variable json : Response -> value + jsstring.

(** The text of a thrown error, as [addContextToErr] appends it. *)
Variable errorText : exn -> jsstring.

(** [BigInt(n)] for a number: a RangeError when it is not an integer. *)
Definition toBigInt (n : option Z) : completion Z :=
  match n with
  | Some z => Normal z
  | None => Throw RangeError
  end.

Definition verifyDecodedResp (resp : Response) (data : value) (pubkey datakey : bytes)
  : completion Err :=
  (* Status is expected to be 200. *)
  if decide (status resp ≠ Some 200)
  then Normal (Some (lit "expected 200 response status, got: " ++ tryStringify (status resp)))
  else
  (* Verify that all required fields were provided. *)
  hasData <- hasProperty (lit "data") data ;;;
  if negb hasData then Normal (Some (lit "expected data field in response")) else
  dataField <- getProperty (lit "data") data ;;;
  match dataField with
  | String dataHex =>
      hasRevision <- hasProperty (lit "revision") data ;;;
      if negb hasRevision then Normal (Some (lit "expected revision in response")) else
      revisionField <- getProperty (lit "revision") data ;;;
      match revisionField with
      | Number n =>
          hasSignature <- hasProperty (lit "signature") data ;;;
          if negb hasSignature then Normal (Some (lit "expected signature in response")) else
          signatureField <- getProperty (lit "signature") data ;;;
          match signatureField with
          | String signatureHex =>
              (* Parse out the fields we need. *)
              revision <- toBigInt n ;;;
              match hexToBuf dataHex with
              | (_, Some _) =>
                  Normal (Some (lit "could not decode registry data from response"))
              | (entryData, None) =>
                  match hexToBuf signatureHex with
                  | (_, Some _) =>
                      Normal (Some (lit "could not decode signature from response"))
                  | (sig, None) =>
                      (* Verify the signature. *)
                      valid <- verifyRegistrySignature blake2b ed25519Verify
                                 pubkey datakey entryData revision sig ;;;
                      if negb valid then Normal (Some (lit "signature mismatch"))
                      else Normal None
                  end
              end
          | _ => Normal (Some (lit "expected signature to be a string"))
          end
      | _ => Normal (Some (lit "expected revision to be a number"))
      end
  | _ => Normal (Some (lit "expected data field to be a string"))
  end.

(** [verifyRegReadResp]: what the promise resolves with.  An error thrown
    in the [then] callback rejects the promise [then] returns, and [catch]
    handles it like a body that cannot be decoded. *)
Definition verifyRegReadResp (resp : Response) (pubkey datakey : bytes) : Err :=
  match json resp with
  | inl j =>
      match verifyDecodedResp resp j pubkey datakey with
      | Normal (Some errVDR) =>
          Some (addContextToErr errVDR (lit "response failed verification"))
      | Normal None => None
      | Throw err => Some (addContextToErr (errorText err) (lit "unable to decode response"))
      end
  | inr err => Some (addContextToErr err (lit "unable to decode response"))
  end.

(** The fields of a registry read that passed the checks of their types. *)
Record entryFields (fields : list (jsstring * value)) (dataHex : jsstring) (revision : Z)
  (signatureHex : jsstring) : Prop := {
  fields_data : field (lit "data") fields = Some (String dataHex);
  fields_revision : field (lit "revision") fields = Some (Number (Some revision));
  fields_signature : field (lit "signature") fields = Some (String signatureHex)
}.

Lemma verifyDecodedResp_accepts (resp : Response) (data : value) (pubkey datakey : bytes) :
  verifyDecodedResp resp data pubkey datakey = Normal None ->
  status resp = Some 200 /\
  exists (fields : list (jsstring * value)) (dataHex signatureHex : jsstring)
         (revision : Z) (entryData sig : bytes),
    data = Object fields /\
    entryFields fields dataHex revision signatureHex /\
    hexToBuf dataHex = (entryData, None) /\
    hexToBuf signatureHex = (sig, None) /\
    verifyRegistrySignature blake2b ed25519Verify pubkey datakey entryData revision sig
    = Normal true.
Proof.
  unfold verifyDecodedResp.
  destruct (decide (status resp ≠ Some 200)) as [?|Hst]; [discriminate|].
  apply dec_stable in Hst. intros H. split; [exact Hst|].
  destruct data as [| | | | | | | |fields]; cbn [hasProperty bind negb] in H;
    try discriminate.
  cbn [getProperty bind] in H.
  destruct (bool_decide (is_Some (field (lit "data") fields))) eqn:Bd;
    cbn [negb] in H; [|discriminate].
  apply bool_decide_eq_true in Bd as [v Hd]. rewrite Hd in H.
  cbn [default from_option id] in H.
  destruct v as [| | | | |dataHex| | |]; try discriminate.
  destruct (bool_decide (is_Some (field (lit "revision") fields))) eqn:Br;
    cbn [negb] in H; [|discriminate].
  apply bool_decide_eq_true in Br as [v Hr]. rewrite Hr in H.
  cbn [default from_option id] in H.
  destruct v as [| | |[revision|]| | | | |]; try discriminate.
  all: destruct (bool_decide (is_Some (field (lit "signature") fields))) eqn:Bs;
    cbn [negb] in H; [|discriminate].
  all: apply bool_decide_eq_true in Bs as [v Hs]; rewrite Hs in H;
    cbn [default from_option id] in H.
  all: destruct v as [| | | | |signatureHex| | |]; try discriminate.
  all: cbn [toBigInt bind] in H; try discriminate.
  destruct (hexToBuf dataHex) as [entryData [e|]] eqn:Hhd; [discriminate|].
  destruct (hexToBuf signatureHex) as [sig [e|]] eqn:Hhs; [discriminate|].
  destruct (verifyRegistrySignature blake2b ed25519Verify pubkey datakey entryData
              revision sig) as [[|]|] eqn:Hv; cbn [bind negb] in H; try discriminate.
  exists fields, dataHex, signatureHex, revision, entryData, sig.
  by repeat split.
Qed.

(** X25: [verifyRegReadResp] resolves with [null] only for a response with
    status 200 whose body decodes to an object with a hex string [data], an
    integer [revision] in the range of 64 bits and a hex string
    [signature], such that the signature verifies under the public key
    over the hash of: the datakey cut or zero-padded to 32 bytes, the
    length of the data and the data, and the revision. *)
Theorem verifyRegReadResp_sound (resp : Response) (pubkey datakey : bytes) :
  verifyRegReadResp resp pubkey datakey = None ->
  status resp = Some 200 /\
  exists (fields : list (jsstring * value)) (dataHex signatureHex : jsstring)
         (revision : Z) (entryData sig : bytes),
    json resp = inl (Object fields) /\
    entryFields fields dataHex revision signatureHex /\
    hexToBuf dataHex = (entryData, None) /\
    hexToBuf signatureHex = (sig, None) /\
    0 <= revision < 2 ^ 64 /\
    (length datakey <= 48 + length entryData)%nat /\
    ed25519Verify
      (blake2b (take 32 (datakey ++ replicate 32 x00)
                  ++ (le_bytes 8 (Z.of_nat (length entryData)) ++ entryData)
                  ++ le_bytes 8 revision))
      sig pubkey = true.
Proof.
  unfold verifyRegReadResp.
  destruct (json resp) as [j|err]; [|discriminate].
  destruct (verifyDecodedResp resp j pubkey datakey) as [[e|]|e] eqn:Hv; try discriminate.
  intros _. apply verifyDecodedResp_accepts in Hv
    as (Hst & fields & dataHex & signatureHex & revision & entryData & sig
        & -> & Hf & Hd & Hs & Hv).
  split; [exact Hst|].
  exists fields, dataHex, signatureHex, revision, entryData, sig.
  split; [reflexivity|]. split; [exact Hf|]. split; [exact Hd|]. split; [exact Hs|].
  unfold verifyRegistrySignature in Hv.
  destruct (encodePrefixedBytes entryData) as [encodedData [e|]] eqn:He; [discriminate|].
  destruct (encodeU64 revision) as [encodedRevision [e|]] eqn:Hr; [discriminate|].
  pose proof He as He'. pose proof Hr as Hr'.
  apply encodePrefixedBytes_inv in He' as ->. apply encodeU64_inv in Hr' as [Hrange ->].
  split; [exact Hrange|].
  destruct (decide (length datakey <= 48 + length entryData)%nat) as [Hk|Hk].
  - split; [exact Hk|].
    rewrite registrySigningData_any in Hv; [|rewrite length_app, length_le_bytes; lia
                                            |apply length_le_bytes|exact Hk].
    cbn [bind] in Hv.
    exact (f_equal (fun c => match c with Normal b => b | Throw _ => false end) Hv).
  - unfold registrySigningData, u8_new in Hv.
    rewrite u8_set_too_long in Hv; [discriminate|]. rewrite length_replicate. lia.
Qed.

(** The values on which [in] throws. *)
Definition isPrimitive (v : value) : Prop :=
  match v with
  | Array _ | Uint8Array _ | Object _ => False
  | _ => True
  end.

(** X26: [verifyDecodedResp] throws a TypeError exactly for a response
    with status 200 whose decoded body is not an object (such as [null], a
    number or a string): the test for the [data] field is made on it
    without looking at what it is. *)
Theorem verifyDecodedResp_throws_on_primitive (resp : Response) (data : value)
  (pubkey datakey : bytes) :
  verifyDecodedResp resp data pubkey datakey = Throw TypeError <->
  status resp = Some 200 /\ isPrimitive data.
Proof.
  unfold verifyDecodedResp.
  destruct (decide (status resp ≠ Some 200)) as [Hst|Hst].
  { split; [discriminate | by intros [? _]]. }
  apply dec_stable in Hst. split.
  - intros H. split; [exact Hst|].
    destruct data as [| | | | | | | |fields]; cbn [hasProperty bind negb] in H;
      try discriminate; try exact I.
    exfalso. revert H. cbn [getProperty bind].
    destruct (bool_decide (is_Some (field (lit "data") fields))); cbn [negb];
      [|discriminate].
    destruct (default Undefined (field (lit "data") fields)); try discriminate.
    destruct (bool_decide (is_Some (field (lit "revision") fields))); cbn [negb];
      [|discriminate].
    destruct (default Undefined (field (lit "revision") fields)) as [| | |n| | | | |];
      try discriminate.
    destruct (bool_decide (is_Some (field (lit "signature") fields))); cbn [negb];
      [|discriminate].
    destruct (default Undefined (field (lit "signature") fields)); try discriminate.
    destruct n as [revision|]; cbn [toBigInt bind]; [|discriminate].
    destruct (hexToBuf _) as [entryData [e|]]; [discriminate|].
    destruct (hexToBuf _) as [sig [e|]]; [discriminate|].
    unfold verifyRegistrySignature.
    destruct (encodePrefixedBytes entryData) as [encodedData [e|]]; [discriminate|].
    destruct (encodeU64 revision) as [encodedRevision [e|]]; [discriminate|].
    unfold registrySigningData, u8_new, u8_set.
    repeat (destruct (decide _); cbn [bind]; try discriminate).
    all: by destruct (ed25519Verify _ _ _).
  - intros [_ Hp]. by destruct data.
Qed.

End Primitives.

End SecureRegistry.

(** ** Comparing byte arrays and keypairs ([libkerneldev/src-test/test.ts]) *)

Module TestHelpers.
Import Registry.

(** [u8sEqual]: the loop returns false at the first index where the arrays
    differ. *)
Definition u8sEqual (a b : bytes) : bool :=
  if decide (length a ≠ length b) then false
  else forallb (fun i => bool_decide (a !! i = b !! i)) (seq 0 (length a)).

Definition keypairsEqual (a b : Ed25519Keypair) : bool :=
  if negb (u8sEqual (publicKey a) (publicKey b)) then false
  else if negb (u8sEqual (secretKey a) (secretKey b)) then false
  else true.

(** X27: [u8sEqual] holds exactly of equal byte arrays, and
    [keypairsEqual] exactly of keypairs with the same public and the same
    secret key. *)
Theorem u8sEqual_keypairsEqual_decide_equality :
  (forall a b : bytes, u8sEqual a b = true <-> a = b) /\
  (forall a b : Ed25519Keypair, keypairsEqual a b = true <-> a = b).
Proof.
  assert (Hu : forall a b : bytes, u8sEqual a b = true <-> a = b).
  { intros a b. unfold u8sEqual.
    destruct (decide (length a ≠ length b)) as [Hne|Heq].
    - split; [discriminate | intros ->; done].
    - apply dec_stable in Heq. rewrite forallb_forall. split.
      + intros H. apply list_eq. intros i.
        destruct (decide (i < length a)) as [Hi|Hi].
        * eapply bool_decide_eq_true, H. apply in_seq. lia.
        * rewrite !lookup_ge_None_2 by lia. reflexivity.
      + intros -> i _. by apply bool_decide_eq_true. }
  split; [exact Hu|]. intros a b. unfold keypairsEqual.
  destruct (u8sEqual (publicKey a) (publicKey b)) eqn:Hp; cbn [negb].
  - destruct (u8sEqual (secretKey a) (secretKey b)) eqn:Hs; cbn [negb].
    + apply Hu in Hp, Hs. destruct a, b. cbn in *. by subst.
    + split; [discriminate|]. intros ->.
      assert (u8sEqual (secretKey b) (secretKey b) = true) by by apply Hu.
      congruence.
  - split; [discriminate|]. intros ->.
    assert (u8sEqual (publicKey b) (publicKey b) = true) by by apply Hu.
    congruence.
Qed.

End TestHelpers.

(** ** Queries to the kernel ([libs/libkmodule/src/queries.ts])

    The module state [queriesNonce] and [queries], and the functions that
    open a query and match a response to it.  [connectModule],
    [sendUpdate] and [handleResponseUpdate] are those of the fuller version
    of the file; in the other one [sendUpdate] and [handleResponseUpdate]
    do nothing. *)

Module Queries.
Import Value.

Local Open Scope N_scope.

(** An entry of [queries]: [resolve] is given as the promise it resolves,
    numbered in the order the promises are created; [receiveUpdate] as
    whether the caller supplied one (otherwise it is [emptyFn]). *)
Record query := { resolve : nat; receiveUpdate : bool }.

Record state := {
  queriesNonce : N;
  queries : gmap N query;
  promises : nat  (* the number of promises created so far *)
}.

Definition initial : state := {| queriesNonce := 0; queries := ∅; promises := 0 |}.

(** What the functions do to the outside. *)
Inductive effect :=
| Posted (method : value) (nonce : N) (data : value)
| PostedUpdate (nonce : N) (err : Err) (data : value)
| Resolved (promise : nat) (result : value * Err)
| Updated (promise : nat) (data : value) (err : Err)
| Logged (msg : jsstring).

(** The property key of [event.data.nonce], as far as a lookup in
    [queries] can tell keys apart.  [queries] is a plain object whose own
    keys are the decimal numerals of the nonces of the open queries, and
    which inherits the properties of [Object.prototype]. *)
Inductive key :=
| Numeral (n : N)  (* the decimal numeral of [n]: the number [n], or that string *)
| Inherited        (* a name [Object.prototype] defines: ["constructor"], ... *)
| Other.           (* any other key *)

(** [event.data] of a message. *)
Record eventData := { nonce : key; err : Err; data : value }.

(** [queriesNonce += 1] on a double: exact below [2^53], where adding one
    no longer changes the number. *)
Definition increment (n : N) : N := if decide (n < 2 ^ 53) then n + 1 else n.

Section Queries.

(** [tryStringify] is not among the sources: a parameter. *)
Variable tryStringify : value -> jsstring.

(** [newKernelQuery]; returns the nonce that [sendUpdate] closes over and
    the promise. *)
Definition newKernelQuery (method data : value) (receiveUpdate : bool) (s : state)
  : N * nat * state * list effect :=
  let nonce := queriesNonce s in
  let p := promises s in
  (nonce, p,
   {| queriesNonce := increment (queriesNonce s);
      queries := <[nonce := {| resolve := p; receiveUpdate := receiveUpdate |}]> (queries s);
      promises := S (promises s) |},
   [Posted method nonce data]).

(** The [sendUpdate] returned by [newKernelQuery]. *)
Definition sendUpdate (nonce : N) (updateData : value) (updateErr : Err) : list effect :=
  [PostedUpdate nonce updateErr updateData].

Definition moduleCallData (module method : jsstring) (data : value) : value :=
  Object [(lit "module", String module); (lit "method", String method); (lit "data", data)].

Definition callModule (module method : jsstring) (data : value) (s : state)
  : N * nat * state * list effect :=
  newKernelQuery (String (lit "moduleCall")) (moduleCallData module method data) false s.

Definition connectModule (module method : jsstring) (data : value) (receiveUpdate : bool)
  (s : state) : N * nat * state * list effect :=
  newKernelQuery (String (lit "moduleCall")) (moduleCallData module method data)
    receiveUpdate s.

(** What [event.data.nonce in queries] and [queries[event.data.nonce]]
    find: the open query of that nonce; a value inherited from
    [Object.prototype], which has neither [resolve] nor [receiveUpdate]; or
    nothing. *)
Inductive found :=
| OpenQuery (n : N) (q : query)
| FromPrototype
| NotFound.

Definition find (s : state) (e : eventData) : found :=
  match nonce e with
  | Numeral n =>
      match queries s !! n with
      | Some q => OpenQuery n q
      | None => NotFound
      end
  | Inherited => FromPrototype
  | Other => NotFound
  end.

(** [handleResponse]: the state it leaves, what it did, and the exception
    it ends with if it throws.  On an inherited value the test with [in]
    passes and the call of [resolve], which is [undefined] there, throws. *)
Definition handleResponse (e : eventData) (s : state)
  : state * list effect * option exn :=
  match find s e with
  | NotFound =>
      (s, [Logged (lit "no open query found for provided nonce: " ++ tryStringify (data e))],
       None)
  | FromPrototype =>
      match err e with
      | Some _ => (s, [Logged (lit "there's an error in the data")], Some TypeError)
      | None => (s, [], Some TypeError)
      end
  | OpenQuery n q =>
      let s' := {| queriesNonce := queriesNonce s; queries := delete n (queries s);
                   promises := promises s |} in
      match err e with
      | Some _ =>
          (s', [Logged (lit "there's an error in the data");
                Resolved (resolve q) (Object [], err e)], None)
      | None => (s', [Resolved (resolve q) (data e, None)], None)
      end
  end.

(** [handleResponseUpdate], likewise: on an inherited value the call of
    [receiveUpdate] throws. *)
Definition handleResponseUpdate (e : eventData) (s : state)
  : state * list effect * option exn :=
  match find s e with
  | NotFound => (s, [], None)
  | FromPrototype => (s, [], Some TypeError)
  | OpenQuery n q =>
      (s, if receiveUpdate q then [Updated (resolve q) (data e) (err e)] else [], None)
  end.

(** *** Any sequence of calls *)

Inductive call :=
| NewKernelQuery (method data : value) (receiveUpdate : bool)
| CallModule (module method : jsstring) (data : value)
| ConnectModule (module method : jsstring) (data : value) (receiveUpdate : bool)
| HandleResponse (e : eventData)
| HandleResponseUpdate (e : eventData).

(** One call: the state and what was done.  An exception ends the call it
    is thrown in; the module state stays for the calls that follow. *)
Definition step (s : state) (c : call) : state * list effect :=
  match c with
  | NewKernelQuery method data receiveUpdate =>
      let '(_, _, s', effects) := newKernelQuery method data receiveUpdate s in (s', effects)
  | CallModule module method data =>
      let '(_, _, s', effects) := callModule module method data s in (s', effects)
  | ConnectModule module method data receiveUpdate =>
      let '(_, _, s', effects) := connectModule module method data receiveUpdate s in
      (s', effects)
  | HandleResponse e => (handleResponse e s).1
  | HandleResponseUpdate e => (handleResponseUpdate e s).1
  end.

Fixpoint run (s : state) (calls : list call) : state * list effect :=
  match calls with
  | [] => (s, [])
  | c :: rest =>
      let '(s1, effects1) := step s c in
      let '(s2, effects2) := run s1 rest in
      (s2, effects1 ++ effects2)
  end.

(** The nonces of the queries posted, and the promises resolved. *)
Definition postedNonces (effects : list effect) : list N :=
  omap (fun e => match e with Posted _ n _ => Some n | _ => None end) effects.


Definition opensQuery (c : call) : bool :=
  match c with
  | NewKernelQuery _ _ _ | CallModule _ _ _ | ConnectModule _ _ _ _ => true
  | _ => false
  end.

Lemma step_posts (s : state) (c : call) :
  postedNonces (step s c).2 = (if opensQuery c then [queriesNonce s] else []) /\
  queriesNonce (step s c).1
  = (if opensQuery c then increment (queriesNonce s) else queriesNonce s) /\
  promises (step s c).1 = (if opensQuery c then S (promises s) else promises s).
Proof.
  destruct c as [method d r|module method d|module method d r|e|e];
    cbn [step opensQuery]; try done.
  - unfold handleResponse. destruct (find s e) as [n q| |]; by destruct (err e).
  - unfold handleResponseUpdate. destruct (find s e) as [n q| |]; [|done..].
    by destruct (receiveUpdate q).
Qed.

(** The nonces that [k] queries get when the counter stands at [n]. *)
Fixpoint noncesFrom (n : N) (k : nat) : list N :=
  match k with
  | O => []
  | S k => n :: noncesFrom (increment n) k
  end.

Lemma run_posts (s : state) (calls : list call) :
  postedNonces (run s calls).2
  = noncesFrom (queriesNonce s) (length (filter (fun c => opensQuery c = true) calls)).
Proof.
  revert s. induction calls as [|c rest IH]; intros s; [reflexivity|].
  cbn [run]. destruct (step s c) as [s1 e1] eqn:Hstep.
  pose proof (step_posts s c) as (H1 & H2 & _). rewrite Hstep in H1, H2. cbn [fst snd] in *.
  specialize (IH s1). destruct (run s1 rest) as [s2 e2]. cbn [snd] in *.
  unfold postedNonces in *. rewrite omap_app, H1, IH, H2.
  rewrite filter_cons. destruct (opensQuery c).
  - rewrite decide_True by done. reflexivity.
  - rewrite decide_False by done. reflexivity.
Qed.

Lemma noncesFrom_spec (n : N) (k : nat) :
  noncesFrom n k = (fun i => N.min (n + N.of_nat i) (N.max n (2 ^ 53))) <$> seq 0 k.
Proof.
  revert n. induction k as [|k IH]; intros n; [reflexivity|].
  cbn [noncesFrom seq fmap list_fmap]. f_equal.
  - rewrite N.add_0_r. lia.
  - rewrite IH. rewrite <- fmap_S_seq, <- list_fmap_compose.
    apply list_fmap_ext. intros _ i _. cbn. unfold increment.
    destruct (decide (n < 2 ^ 53)); lia.
Qed.

(** X28: from the initial state, whatever is called in between, the
    query opened as number [i] (counting from 0) is posted with nonce [i]
    as long as [i <= 2^53], and with nonce [2^53] after that: the first
    [2^53 + 1] queries have nonces of their own. *)
Theorem nonces_count_up (calls : list call) :
  postedNonces (run initial calls).2
  = (fun i => N.min (N.of_nat i) (2 ^ 53))
    <$> seq 0 (length (filter (fun c => opensQuery c = true) calls)).
Proof.
  rewrite run_posts, noncesFrom_spec. apply list_fmap_ext. intros _ i _. cbn. lia.
Qed.

(** *** Each promise is resolved at most once *)







End Queries.

End Queries.

(** ** Handling a message in a module ([libs/libkmodule/src/messages.ts]) *)

Module Messages.
Import Value.

(** [event.data] of the message handled. *)
Record messageData := { method : jsstring; nonce : value; data : value }.

(** What leaves the module.  [respondErr] of [err.ts] is not among the
    sources; it is kept as the call it is. *)
Inductive effect :=
| PostResponse (nonce : value) (data : value)
| RespondErr (nonce : value) (err : jsstring)
| LogErr (msg : jsstring).

(** A call of one of the two functions a handler is given. *)
Inductive handlerCall :=
| CallAccept (data : value)
| CallReject (err : jsstring).

(** What a handler does with [accept] and [reject]: the calls it makes
    before it returns or throws, what it throws if it does, and the calls
    made afterwards, from callbacks it has set up. *)
Record behaviour := {
  during : list handlerCall;
  thrown : option value;
  later : list handlerCall
}.

Section Router.

(** [tryStringify] is not among the sources: a parameter. *)
Variable tryStringify : value -> jsstring.

(** [router], by its own properties. *)
Variable router : gmap jsstring (value -> behaviour).

(** [accept] and [reject]: the variable [responded] they share is passed
    in and returned. *)
Definition accept (event : messageData) (responded : bool) (d : value)
  : bool * list effect :=
  if responded
  then
    let str := tryStringify d in
    (responded, [LogErr (lit "accept called after response already sent: " ++ str)])
  else (true, [PostResponse (nonce event) d]).

Definition reject (event : messageData) (responded : bool) (err : jsstring)
  : bool * list effect :=
  if responded
  then
    let str := tryStringify (String err) in
    (responded, [LogErr (lit "reject called after response already sent: " ++ str)])
  else (true, [RespondErr (nonce event) err]).

Fixpoint runCalls (event : messageData) (responded : bool) (calls : list handlerCall)
  : bool * list effect :=
  match calls with
  | [] => (responded, [])
  | c :: rest =>
      let '(responded, effects1) :=
        match c with
        | CallAccept d => accept event responded d
        | CallReject err => reject event responded err
        end in
      let '(responded, effects2) := runCalls event responded rest in
      (responded, effects1 ++ effects2)
  end.

(** [handleMessage], up to its return: [responded] as it is left for the
    callbacks, and what was sent and logged. *)
Definition handleMessage (event : messageData) : bool * list effect :=
  match router !! method event with
  | None =>
      (false, [RespondErr (nonce event)
                 (lit "unrecognized method '" ++ method event ++ lit "'")])
  | Some handler =>
      let responded := false in
      let b := handler (data event) in
      let '(responded, effects) := runCalls event responded (during b) in
      match thrown b with
      | None => (responded, effects)
      | Some err =>
          let strErr := tryStringify err in
          let finalErr := addContextToErr strErr (lit "module threw an error") in
          if responded then (responded, effects ++ [LogErr finalErr])
          else (responded, effects ++ [LogErr finalErr; RespondErr (nonce event) finalErr])
      end
  end.

(** Everything a message leads to: [handleMessage], then the calls made
    afterwards. *)
Definition handled (event : messageData) : list effect :=
  let '(responded, effects) := handleMessage event in
  effects ++
  match router !! method event with
  | None => []
  | Some handler => (runCalls event responded (later (handler (data event)))).2
  end.

(** The responses among the effects. *)
Definition isResponse (e : effect) : bool :=
  match e with
  | LogErr _ => false
  | _ => true
  end.

Definition responses (effects : list effect) : list effect :=
  filter (fun e => isResponse e = true) effects.

Definition responseTo (event : messageData) (c : handlerCall) : effect :=
  match c with
  | CallAccept d => PostResponse (nonce event) d
  | CallReject err => RespondErr (nonce event) err
  end.

(** The response to the first of the calls, if there is one. *)
Definition firstResponse (event : messageData) (calls : list handlerCall) : list effect :=
  match calls with
  | [] => []
  | c :: _ => [responseTo event c]
  end.

Lemma responses_app (l k : list effect) :
  responses (l ++ k) = responses l ++ responses k.
Proof. apply filter_app. Qed.

Lemma runCalls_responded (event : messageData) (calls : list handlerCall) :
  (runCalls event true calls).1 = true /\ responses (runCalls event true calls).2 = [].
Proof.
  induction calls as [|c rest [IH1 IH2]]; [done|].
  cbn [runCalls]. destruct c; cbn [accept reject];
    destruct (runCalls event true rest) as [r e]; cbn [fst snd] in *;
    (split; [exact IH1|]); rewrite responses_app, IH2; reflexivity.
Qed.

Lemma runCalls_first (event : messageData) (calls : list handlerCall) :
  (runCalls event false calls).1 = match calls with [] => false | _ => true end /\
  responses (runCalls event false calls).2 = firstResponse event calls.
Proof.
  destruct calls as [|c rest].
  - split; reflexivity.
  - cbn [runCalls firstResponse]. pose proof (runCalls_responded event rest) as [H1 H2].
    destruct c; cbn [accept reject]; destruct (runCalls event true rest) as [r e];
      cbn [fst snd] in *; (split; [exact H1|]); rewrite responses_app, H2; reflexivity.
Qed.

(** X30: what a message is answered with.  An unknown method gets one
    error response.  A handler that does not throw gets the message one
    response at most, the one of its first call of [accept] or [reject];
    so does a handler that throws after it has responded.  A handler that
    throws before responding gets the error response, and since that one
    does not set [responded], a call of [accept] or [reject] made later
    sends a second response. *)
Theorem handleMessage_responses (event : messageData) :
  responses (handled event)
  = match router !! method event with
    | None =>
        [RespondErr (nonce event) (lit "unrecognized method '" ++ method event ++ lit "'")]
    | Some handler =>
        let b := handler (data event) in
        match during b, thrown b with
        | [], Some err =>
            RespondErr (nonce event)
              (addContextToErr (tryStringify err) (lit "module threw an error"))
            :: firstResponse event (later b)
        | [], None => firstResponse event (later b)
        | c :: _, _ => [responseTo event c]
        end
    end.
Proof.
  unfold handled, handleMessage.
  destruct (router !! method event) as [handler|]; [|reflexivity].
  cbv zeta. set (b := handler (data event)).
  pose proof (runCalls_first event (during b)) as [D1 D2].
  destruct (runCalls event false (during b)) as [responded effects].
  cbn [fst snd] in D1, D2. subst responded.
  destruct (during b) as [|c rest].
  - pose proof (runCalls_first event (later b)) as [_ L2].
    destruct (thrown b) as [err|]; rewrite !responses_app, D2, L2; reflexivity.
  - pose proof (runCalls_responded event (later b)) as [_ L2].
    destruct (thrown b) as [err|]; rewrite !responses_app, D2, L2; reflexivity.
Qed.

End Router.

End Messages.

(** ** The further properties on concrete inputs *)

Module RegistryFactsExamples.
Import Registry RegistryFacts RegistryExamples.

Local Open Scope Z_scope.

(** A hash with 32-byte results, and a text encoding of bytes, to run the
    resolver links with. *)
Definition paddedHash (m : bytes) : bytes := take 32 (m ++ replicate 32 x00).
Definition codeUnits (b : bytes) : jsstring := map Byte.to_N b.

(** The datakey [2, 3] of two bytes is verified as its zero-padded form. *)
Lemma verifyRegistrySignature_any_datakey_witness :
  verifyRegistrySignature modelHash modelVerify [x01] [x02; x03] [x04] 7 []
  = if decide (length [x02; x03] <= 48 + length [x04])%nat
    then Normal (modelVerify
                   (modelHash (take 32 ([x02; x03] ++ replicate 32 x00)
                                 ++ (le_bytes 8 1 ++ [x04]) ++ le_bytes 8 7))
                   [] [x01])
    else Throw RangeError.
Proof.
  apply (verifyRegistrySignature_any_datakey modelHash modelVerify [x01] [x02; x03] [x04] 7
           [] (le_bytes 8 1 ++ [x04]) (le_bytes 8 7)).
  - reflexivity.
  - reflexivity.
Defined.

(** Revision -1 is refused by the verifier and by the signer. *)
Lemma revision_out_of_range_is_refused_witness :
  verifyRegistrySignature modelHash modelVerify [x01] (replicate 32 x02) [x03] (-1) []
  = Normal false /\
  exists err : jsstring,
    computeRegistrySignature modelHash modelSign [x01] (replicate 32 x02) [x03] (-1)
    = Normal ([], Some err).
Proof.
  apply (revision_out_of_range_is_refused modelHash modelSign modelVerify
           [x01] [x01] (replicate 32 x02) [x03] (-1) []).
  left. lia.
Defined.

(** One entry: datakey of 32 twos, data [3], revision 7. *)
Lemma signing_data_unambiguous_witness :
  replicate 32 x02 = replicate 32 x02 /\ [x03] = [x03] /\ 7 = 7.
Proof.
  apply (signing_data_unambiguous (replicate 32 x02) [x03] (le_bytes 8 1 ++ [x03])
           (le_bytes 8 7) 7 (replicate 32 x02) [x03] (le_bytes 8 1 ++ [x03])
           (le_bytes 8 7) 7).
  - reflexivity.
  - reflexivity.
  - reflexivity.
  - reflexivity.
  - reflexivity.
  - reflexivity.
  - reflexivity.
Defined.

Lemma length_paddedHash (m : bytes) : length (paddedHash m) = 32%nat.
Proof.
  unfold paddedHash. rewrite length_take, length_app, length_replicate. lia.
Qed.

(** The entry id of a pubkey of 32 ones and a datakey of 32 twos has a
    resolver link. *)
Lemma derived_entry_id_has_resolver_link_witness :
  exists id : bytes,
    deriveRegistryEntryID paddedHash (replicate 32 x01) (replicate 32 x02) = Normal (id, None) /\
    resolverLink codeUnits id = Normal (codeUnits ([x01; x00] ++ id), None).
Proof.
  apply (derived_entry_id_has_resolver_link paddedHash codeUnits
           (replicate 32 x01) (replicate 32 x02)).
  - exact length_paddedHash.
  - reflexivity.
  - reflexivity.
Defined.

(** The tag pairs ("a", "b") and ("ab", ""), both ASCII. *)
Lemma ascii_tag_pairs_do_not_collide_witness :
  datakeyInput (replicate 16 x00) (Text.encode (lit "a")) (Text.encode (lit "b"))
  <> datakeyInput (replicate 16 x00) (Text.encode (lit "ab")) (Text.encode (lit "")).
Proof.
  apply (ascii_tag_pairs_do_not_collide (replicate 16 x00)
           (lit "a") (lit "b") (lit "ab") (lit "")).
  - apply Forall_cons. split; [reflexivity | apply Forall_nil_2].
  - apply Forall_cons. split; [reflexivity | apply Forall_nil_2].
  - apply Forall_cons. split; [reflexivity|].
    apply Forall_cons. split; [reflexivity | apply Forall_nil_2].
  - apply Forall_nil_2.
  - cbn. lia.
  - cbn. lia.
  - discriminate.
Defined.

End RegistryFactsExamples.

Module SeedFactsExamples.
Import Seed SeedFacts.

(** A dictionary of 1024 words without spaces: the decimal numerals. *)
Definition numerals : list jsstring := map (fun i => lit (pretty i)) (seq 0 1024).

(** A stand-in for the hash: 64 times the byte 5. *)
Definition fives (m : bytes) : bytes := replicate 64 x05.

Definition codeUnits (b : bytes) : jsstring := map Byte.to_N b.

Definition thirteen (w : string) : list jsstring := replicate 13 (lit w).

(** "abbot" and "abbey" share their first three characters. *)
Lemma seedWordsToSeed_prefixes_witness :
  seedWordsToSeed modelDictionary 3 (thirteen "abbot") = (replicate 16 x00, None).
Proof.
  apply (seedWordsToSeed_prefixes modelDictionary 3 (thirteen "abbey") (thirteen "abbot")
           (replicate 16 x00)).
  - repeat constructor.
  - reflexivity.
Defined.

(** Thirteen times "ablaze", the word of index 1. *)
Lemma seedWordsToSeed_bits_witness :
  exists indices : list nat,
    Forall2 (fun w x => findWord 3 modelDictionary 0 w = Some x) (thirteen "ablaze") indices /\
    seedBits (seedWordsToSeed modelDictionary 3 (thirteen "ablaze")).1 = indexBits 0 indices.
Proof.
  apply (seedWordsToSeed_bits modelDictionary 3 (thirteen "ablaze")
           (seedWordsToSeed modelDictionary 3 (thirteen "ablaze")).1).
  reflexivity.
Defined.

(** "abbot" for "abbey" in every place: the same indices, the same seed. *)
Lemma same_seed_iff_same_indices_witness :
  (seedWordsToSeed modelDictionary 3 (thirteen "abbey")).1
  = (seedWordsToSeed modelDictionary 3 (thirteen "abbot")).1
  <-> sameIndices 0 (replicate 13 0) (replicate 13 0).
Proof.
  apply (same_seed_iff_same_indices modelDictionary 3 (thirteen "abbey") (thirteen "abbot")).
  - reflexivity.
  - reflexivity.
  - repeat constructor.
  - repeat constructor.
Defined.

Lemma length_numerals : 1024 <= length numerals.
Proof. unfold numerals. rewrite length_map, length_seq. lia. Qed.

(** A phrase of one word. *)
Lemma validSeedPhrase_returns_witness :
  exists (seed : bytes) (err : Err),
    validSeedPhrase numerals 4 fives (lit "7") = Normal (seed, err) /\
    (err = None -> length seed = 16) /\
    (err <> None -> seed = []).
Proof.
  apply (validSeedPhrase_returns numerals 4 fives (lit "7")).
  - exact length_numerals.
  - vm_compute. lia.
  - vm_compute. lia.
Defined.

Definition fifteenWords : jsstring :=
  lit "abbey abbey abbey abbey abbey abbey abbey abbey abbey abbey abbey abbey abbey abbey abbey".

(** A sixteenth word changes nothing. *)
Lemma validSeedPhrase_ignores_trailing_words_witness :
  validSeedPhrase modelDictionary 3 modelSha512 (fifteenWords ++ space :: lit "zebra")
  = validSeedPhrase modelDictionary 3 modelSha512 fifteenWords.
Proof.
  apply (validSeedPhrase_ignores_trailing_words modelDictionary 3 modelSha512
           fifteenWords (lit "zebra")).
  vm_compute. lia.
Defined.

Lemma numerals_no_space (d : jsstring) : In d numerals -> ~ In space d.
Proof.
  assert (H : Forall (fun d => space ∉ d) numerals).
  { apply (bool_decide_unpack _). vm_compute. reflexivity. }
  intros Hd Hs. rewrite Forall_forall in H.
  apply (H d); by apply list_elem_of_In.
Qed.

(** The phrase generated for the password "correct horse". *)
Definition generatedPhrase : jsstring :=
  Eval vm_compute in
    match SeedGenerate.generateSeedPhraseDeterministic numerals 4 fives (lit "correct horse") with
    | Normal (seedPhrase, _) => seedPhrase
    | Throw _ => []
    end.

Lemma generatedPhrase_generated :
  SeedGenerate.generateSeedPhraseDeterministic numerals 4 fives (lit "correct horse")
  = Normal (generatedPhrase, None).
Proof. vm_compute. reflexivity. Qed.

Lemma generated_words_are_among_the_first_256_witness :
  length (split space generatedPhrase) = 15 /\
  Forall (SeedGenerate.amongFirst numerals 256) (take SEED_ENTROPY_WORDS (split space generatedPhrase)).
Proof.
  apply (SeedGenerate.generated_words_are_among_the_first_256 numerals 4 fives codeUnits
           numerals_no_space generatedPhrase).
  left. exists (lit "correct horse"). exact generatedPhrase_generated.
Defined.

Lemma generated_phrases_are_valid_witness :
  exists seed : bytes,
    validSeedPhrase numerals 4 fives generatedPhrase = Normal (seed, None) /\
    length seed = 16.
Proof.
  apply (SeedGenerate.generated_phrases_are_valid numerals 4 fives codeUnits
           numerals_no_space length_numerals generatedPhrase).
  left. exists (lit "correct horse"). exact generatedPhrase_generated.
Defined.

End SeedFactsExamples.

Module FetchFactsExamples.
Import ProgressiveFetch FetchFacts FetchExamples.

Local Open Scope Z_scope.

(** H1 refuses, H2 answers 500, H3 answers 200; H1 is left over. *)
Lemma progressiveFetch_accounts_for_every_portal_witness :
  exists (res : Result.t) (h' : heap unit),
    progressiveFetch unit unit modelFetch (lit "/x") tt 1%positive tt
      (callerHeap [H1; H2; H3; H1])
    = Some (res, tt, h') /\
    exists (failed remaining : list jsstring) (os : list fetchOutcome),
      strings unit h' !! Result.portalsFailed res = Some failed /\
      outcomes unit h' !! Result.responsesFailed res = Some os /\
      strings unit h' !! 1%positive = Some remaining /\
      [H1; H2; H3; H1] = failed ++ portalOf res ++ remaining /\
      (Result.portal res = None -> remaining = []) /\
      length os = length failed /\
      Forall failedAttempt os /\
      fetchInOrder unit unit modelFetch (lit "/x") tt tt (failed ++ portalOf res)
      = (os ++ responseOf res, tt).
Proof.
  assert (Hrun : exists (res : Result.t) (h' : heap unit),
             progressiveFetch unit unit modelFetch (lit "/x") tt 1%positive tt
               (callerHeap [H1; H2; H3; H1]) = Some (res, tt, h'))
    by (eexists _, _; vm_compute; reflexivity).
  destruct Hrun as (res & h' & Hrun). exists res, h'. split; [exact Hrun|].
  apply (progressiveFetch_accounts_for_every_portal unit unit modelFetch (lit "/x") tt
           1%positive tt tt (callerHeap [H1; H2; H3; H1]) h' [H1; H2; H3; H1] res
           (callerHeap_lookup _) Hrun).
Defined.

(** A memory with the caller's array at location 1 and another array of
    strings at location 2. *)
Definition twoArrays (hosts other : list jsstring) : heap unit :=
  {| strings := {[ 1%positive := hosts; 2%positive := other ]}; outcomes := ∅; lines := ∅ |}.

Lemma twoArrays_lookup (hosts other : list jsstring) :
  strings unit (twoArrays hosts other) !! 1%positive = Some hosts.
Proof. cbn. apply lookup_insert_eq. Qed.

Lemma progressiveFetch_leaves_other_arrays_alone_witness :
  exists (res : Result.t) (h' : heap unit),
    progressiveFetch unit unit modelFetch (lit "/x") tt 1%positive tt (twoArrays [H1; H3] [H2])
    = Some (res, tt, h') /\
    ((Result.portalsFailed res ∉ dom (strings unit (twoArrays [H1; H3] [H2]))) /\
     (Result.responsesFailed res ∉ dom (outcomes unit (twoArrays [H1; H3] [H2]))) /\
     (Result.logs res ∉ dom (lines unit (twoArrays [H1; H3] [H2])))) /\
    (forall l, l ∈ dom (strings unit (twoArrays [H1; H3] [H2])) -> l <> 1%positive ->
               strings unit h' !! l = strings unit (twoArrays [H1; H3] [H2]) !! l) /\
    (forall l, l ∈ dom (outcomes unit (twoArrays [H1; H3] [H2])) ->
               outcomes unit h' !! l = outcomes unit (twoArrays [H1; H3] [H2]) !! l) /\
    (forall l, l ∈ dom (lines unit (twoArrays [H1; H3] [H2])) ->
               lines unit h' !! l = lines unit (twoArrays [H1; H3] [H2]) !! l).
Proof.
  assert (Hrun : exists (res : Result.t) (h' : heap unit),
             progressiveFetch unit unit modelFetch (lit "/x") tt 1%positive tt
               (twoArrays [H1; H3] [H2]) = Some (res, tt, h'))
    by (eexists _, _; vm_compute; reflexivity).
  destruct Hrun as (res & h' & Hrun). exists res, h'. split; [exact Hrun|].
  apply (progressiveFetch_leaves_other_arrays_alone unit unit modelFetch (lit "/x") tt
           1%positive tt tt (twoArrays [H1; H3] [H2]) h' [H1; H3] res
           (twoArrays_lookup _ _) Hrun).
Defined.

(** H3 is accepted first; the retry with what is left tries H1 and H2 and
    then accepts H3 again. *)
Lemma retry_continues_with_the_untried_portals_witness :
  exists (res1 res2 : Result.t) (h1 h2 : heap unit),
    progressiveFetch unit unit modelFetch (lit "/x") tt 1%positive tt
      (callerHeap [H3; H1; H2; H3; H1])
    = Some (res1, tt, h1) /\
    progressiveFetch unit unit modelFetch (lit "/x") tt 1%positive tt h1
    = Some (res2, tt, h2) /\
    exists (failed1 failed2 remaining : list jsstring) (accepted1 : jsstring),
      1%positive = 1%positive /\
      Result.portal res1 = Some accepted1 /\
      strings unit h2 !! Result.portalsFailed res1 = Some failed1 /\
      strings unit h2 !! Result.portalsFailed res2 = Some failed2 /\
      strings unit h2 !! 1%positive = Some remaining /\
      [H3; H1; H2; H3; H1] = failed1 ++ accepted1 :: failed2 ++ portalOf res2 ++ remaining.
Proof.
  assert (Hrun : exists (res1 res2 : Result.t) (h1 h2 : heap unit),
             progressiveFetch unit unit modelFetch (lit "/x") tt 1%positive tt
               (callerHeap [H3; H1; H2; H3; H1]) = Some (res1, tt, h1) /\
             Result.remainingPortals res1 = Some 1%positive /\
             progressiveFetch unit unit modelFetch (lit "/x") tt 1%positive tt h1
             = Some (res2, tt, h2))
    by (eexists _, _, _, _; split; [vm_compute; reflexivity|];
        split; [reflexivity | vm_compute; reflexivity]).
  destruct Hrun as (res1 & res2 & h1 & h2 & Hrun1 & Hrp & Hrun2).
  exists res1, res2, h1, h2. split; [exact Hrun1|]. split; [exact Hrun2|].
  apply (retry_continues_with_the_untried_portals unit unit modelFetch (lit "/x") (lit "/x")
           tt tt 1%positive 1%positive tt tt tt (callerHeap [H3; H1; H2; H3; H1]) h1 h2
           [H3; H1; H2; H3; H1] res1 res2 (callerHeap_lookup _) Hrun1 Hrp Hrun2).
Defined.

End FetchFactsExamples.

Module ValueExamples.
Import Value SkyfileMetadata CheckObj SecureRegistry RegistryExamples.
Import ProgressiveFetch(Response, status, body).

Local Open Scope Z_scope.

(** Metadata with a file name and an empty list of try files. *)
Definition withTryFiles : list (jsstring * value) :=
  [(lit "Filename", String (lit "index.html")); (lit "TryFiles", Array [])].

Lemma validateSkyfileMetadata_TryFiles_throws_witness :
  validateSkyfileMetadata (Object withTryFiles) = Throw TypeError.
Proof.
  apply (validateSkyfileMetadata_TryFiles_throws withTryFiles (lit "index.html")).
  - reflexivity.
  - vm_compute. reflexivity.
  - intros [v Hv]. vm_compute in Hv. discriminate Hv.
  - intros [v Hv]. vm_compute in Hv. discriminate Hv.
  - exists (Array []). vm_compute. reflexivity.
Defined.

(** An object whose every property reads as an array. *)
Definition allArrays : option (jsstring -> observed) :=
  Some (fun _ => {| typeOf := TObject; isArray := true |}).

Lemma checkObj_array_check_never_passes_witness :
  checkObj allArrays [(lit "aNum", lit "object"); (lit "list", lit "array")] <> Normal None.
Proof.
  apply (checkObj_array_check_never_passes allArrays
           [(lit "aNum", lit "object"); (lit "list", lit "array")] (lit "list")).
  right. left. reflexivity.
Defined.

(** A stand-in for the hex decoding: one byte for each character. *)
Definition unitsToBytes (s : jsstring) : bytes * Err := (map byte_of_N s, None).
Definition bytesToUnits (b : bytes) : jsstring := map Byte.to_N b.

(** A registry entry with data [3] at revision 7, signed for the public
    key [1] and a datakey of 32 twos. *)
Definition entrySignature : bytes :=
  [x01] ++ replicate 32 x02 ++ (le_bytes 8 1 ++ [x03]) ++ le_bytes 8 7.

Definition entryBody (resp : Response) : value + jsstring :=
  inl (Object [(lit "data", String (bytesToUnits [x03]));
               (lit "revision", Number (Some 7));
               (lit "signature", String (bytesToUnits entrySignature))]).

Definition ok : Response := {| status := Some 200; body := lit "" |}.

Lemma verifyRegReadResp_sound_witness :
  status ok = Some 200 /\
  exists (fields : list (jsstring * value)) (dataHex signatureHex : jsstring)
         (revision : Z) (entryData sig : bytes),
    entryBody ok = inl (Object fields) /\
    entryFields fields dataHex revision signatureHex /\
    unitsToBytes dataHex = (entryData, None) /\
    unitsToBytes signatureHex = (sig, None) /\
    0 <= revision < 2 ^ 64 /\
    (length (replicate 32 x02) <= 48 + length entryData)%nat /\
    modelVerify
      (modelHash (take 32 (replicate 32 x02 ++ replicate 32 x00)
                    ++ (le_bytes 8 (Z.of_nat (length entryData)) ++ entryData)
                    ++ le_bytes 8 revision))
      sig [x01] = true.
Proof.
  apply (verifyRegReadResp_sound modelHash modelVerify unitsToBytes (fun _ => lit "")
           entryBody (fun _ => lit "") ok [x01] (replicate 32 x02)).
  vm_compute. reflexivity.
Defined.

End ValueExamples.
